(** * Xidi: controller mapper, capability derivation and mapper registry

    A shallow embedding of [Source/Mapper.cpp] and of the declarations it
    relies on ([Include/Xidi/ControllerTypes.h], [Include/Xidi/ElementMapper.h],
    [Include/Xidi/MapperBuilder.h]), and of the choice of a coordinate system
    in [Source/VirtualDirectInputEffect.cpp], followed by the properties
    established about them.  Integers of the program are [Z] with their wrap-around written
    out, [std::map] is a [gmap], fixed-size arrays are vectors or lists. *)

From Stdlib Require Import ZArith Lia Bool SpecFloat.
From stdpp Require Import base decidable option list sorting vector gmap strings fin_maps.

Local Open Scope Z_scope.

(* ===================================================================== *)
(** * Part I: the program *)
(* ===================================================================== *)

(** ** Machine integers *)

(** Conversion to a signed integer of [w] bits (two's complement). *)
Definition wrap_signed (w : Z) (v : Z) : Z :=
  (v + 2 ^ (w - 1)) mod 2 ^ w - 2 ^ (w - 1).

(** Conversion to an unsigned integer of [w] bits. *)
Definition wrap_unsigned (w : Z) (v : Z) : Z := v mod 2 ^ w.

(** ** ControllerTypes.h *)

Definition kPhysicalControllerCount : Z := 4.

Definition kAnalogValueMax : Z := 32767.
Definition kAnalogValueMin : Z := - kAnalogValueMax.

Inductive EAxis : Type :=
| EAxis_X | EAxis_Y | EAxis_Z | EAxis_RotX | EAxis_RotY | EAxis_RotZ.

(** [EAxis::Count], the sentinel that follows the last axis. *)
Definition EAxis_Count : Z := 6.

(** [(int)axis]. *)
Definition EAxis_ordinal (a : EAxis) : Z :=
  match a with
  | EAxis_X => 0 | EAxis_Y => 1 | EAxis_Z => 2
  | EAxis_RotX => 3 | EAxis_RotY => 4 | EAxis_RotZ => 5
  end.

(** Position of an axis in an array that has one slot per axis. *)
Definition EAxis_index (a : EAxis) : fin 6 :=
  match a with
  | EAxis_X => 0%fin | EAxis_Y => 1%fin | EAxis_Z => 2%fin
  | EAxis_RotX => 3%fin | EAxis_RotY => 4%fin | EAxis_RotZ => 5%fin
  end.

Definition AllAxes : list EAxis :=
  [EAxis_X; EAxis_Y; EAxis_Z; EAxis_RotX; EAxis_RotY; EAxis_RotZ].

Inductive EAxisDirection : Type :=
| EAxisDirection_Both | EAxisDirection_Positive | EAxisDirection_Negative.

(** [EButton::Count]: buttons are B1 (ordinal 0) to B16 (ordinal 15). *)
Definition EButton_Count : Z := 16.

(** [SElementIdentifier]: the tag [type] with the member of the union it
    selects.  The payload is the underlying [uint8_t] of the enumerator, which
    the program compares against the [Count] sentinels before using it. *)
Inductive SElementIdentifier : Type :=
| Element_Axis (axis : Z)
| Element_Button (button : Z)
| Element_Pov
| Element_WholeController.

Record SAxisCapabilities : Type := mkAxisCaps {
  type : Z;
  supportsForceFeedback : bool
}.

(** [SCapabilities].  [numAxes] is a 3-bit and [numButtons] a 5-bit field. *)
Record SCapabilities : Type := mkCaps {
  axisCapabilities : list SAxisCapabilities;
  numAxes : Z;
  numButtons : Z;
  hasPov : bool
}.

(** [ZeroMemory(&capabilities, sizeof(capabilities))]. *)
Definition SCapabilities_zero : SCapabilities :=
  {| axisCapabilities := replicate (Z.to_nat EAxis_Count) (mkAxisCaps 0 false);
     numAxes := 0; numButtons := 0; hasPov := false |}.

(** [SCapabilities::AppendAxis].  The method does no bounds checking; a write
    past the end of [axisCapabilities] has no defined result and is [None]. *)
Definition AppendAxis (capabilities : SCapabilities)
    (newAxisCapabilities : SAxisCapabilities) : option SCapabilities :=
  if numAxes capabilities <? Z.of_nat (length (axisCapabilities capabilities))
  then
    Some {| axisCapabilities :=
              <[Z.to_nat (numAxes capabilities) := newAxisCapabilities]>
                (axisCapabilities capabilities);
            numAxes := wrap_unsigned 3 (numAxes capabilities + 1);
            numButtons := numButtons capabilities;
            hasPov := hasPov capabilities |}
  else None.

(** The entries of [axisCapabilities] that are valid, [0 .. numAxes - 1]. *)
Definition PresentAxes (capabilities : SCapabilities) : list SAxisCapabilities :=
  take (Z.to_nat (numAxes capabilities)) (axisCapabilities capabilities).

(** [SState]: [int32_t axis[6]], [std::bitset<16> button] and the four POV
    direction components. *)
Record SState : Type := mkState {
  axis : vec Z 6;
  button : vec bool 16;
  povDirection : vec bool 4
}.

(** [SState controllerState = {}]. *)
Definition SState_zero : SState :=
  {| axis := vreplicate 6 0; button := vreplicate 16 false;
     povDirection := vreplicate 4 false |}.

(** ** XINPUT_GAMEPAD (xinput.h) *)

Record XINPUT_GAMEPAD : Type := mkGamepad {
  wButtons : Z;
  bLeftTrigger : Z;
  bRightTrigger : Z;
  sThumbLX : Z;
  sThumbLY : Z;
  sThumbRX : Z;
  sThumbRY : Z
}.

Definition XINPUT_GAMEPAD_DPAD_UP : Z := 0x0001.
Definition XINPUT_GAMEPAD_DPAD_DOWN : Z := 0x0002.
Definition XINPUT_GAMEPAD_DPAD_LEFT : Z := 0x0004.
Definition XINPUT_GAMEPAD_DPAD_RIGHT : Z := 0x0008.
Definition XINPUT_GAMEPAD_START : Z := 0x0010.
Definition XINPUT_GAMEPAD_BACK : Z := 0x0020.
Definition XINPUT_GAMEPAD_LEFT_THUMB : Z := 0x0040.
Definition XINPUT_GAMEPAD_RIGHT_THUMB : Z := 0x0080.
Definition XINPUT_GAMEPAD_LEFT_SHOULDER : Z := 0x0100.
Definition XINPUT_GAMEPAD_RIGHT_SHOULDER : Z := 0x0200.
Definition XINPUT_GAMEPAD_A : Z := 0x1000.
Definition XINPUT_GAMEPAD_B : Z := 0x2000.
Definition XINPUT_GAMEPAD_X : Z := 0x4000.
Definition XINPUT_GAMEPAD_Y : Z := 0x8000.

(** ** ControllerTypes.h: methods of the structures *)

(** The methods below read [axisCapabilities[i]] for [i] from 0 up to
    [numAxes]; like [AppendAxis] they do no bounds checking, and a read past
    the end of the array has no defined result and is [None].  [remaining] is
    the number of iterations left and [i] the loop variable. *)

(** [SCapabilities::FindAxis]. *)
Fixpoint FindAxis_loop (remaining : nat) (i : Z) (capabilities : SCapabilities)
    (axis : EAxis) : option Z :=
  match remaining with
  | O => Some (-1)
  | S remaining =>
      match axisCapabilities capabilities !! Z.to_nat i with
      | None => None
      | Some entry =>
          if type entry =? EAxis_ordinal axis then Some i
          else FindAxis_loop remaining (i + 1) capabilities axis
      end
  end.

Definition FindAxis (capabilities : SCapabilities) (axis : EAxis) : option Z :=
  FindAxis_loop (Z.to_nat (numAxes capabilities)) 0 capabilities axis.

(** [SCapabilities::ForceFeedbackAxisCount]. *)
Fixpoint ForceFeedbackAxisCount_loop (remaining : nat) (i : Z)
    (capabilities : SCapabilities) (numForceFeedbackAxes : Z) : option Z :=
  match remaining with
  | O => Some numForceFeedbackAxes
  | S remaining =>
      match axisCapabilities capabilities !! Z.to_nat i with
      | None => None
      | Some entry =>
          ForceFeedbackAxisCount_loop remaining (i + 1) capabilities
            (if supportsForceFeedback entry then numForceFeedbackAxes + 1
             else numForceFeedbackAxes)
      end
  end.

Definition ForceFeedbackAxisCount (capabilities : SCapabilities) : option Z :=
  ForceFeedbackAxisCount_loop (Z.to_nat (numAxes capabilities)) 0 capabilities 0.

(** [SCapabilities::ForceFeedbackIsSupported]. *)
Fixpoint ForceFeedbackIsSupported_loop (remaining : nat) (i : Z)
    (capabilities : SCapabilities) : option bool :=
  match remaining with
  | O => Some false
  | S remaining =>
      match axisCapabilities capabilities !! Z.to_nat i with
      | None => None
      | Some entry =>
          if supportsForceFeedback entry then Some true
          else ForceFeedbackIsSupported_loop remaining (i + 1) capabilities
      end
  end.

Definition ForceFeedbackIsSupported (capabilities : SCapabilities) : option bool :=
  ForceFeedbackIsSupported_loop (Z.to_nat (numAxes capabilities)) 0 capabilities.

(** [SCapabilities::ForceFeedbackIsSupportedForAxis]. *)
Fixpoint ForceFeedbackIsSupportedForAxis_loop (remaining : nat) (i : Z)
    (capabilities : SCapabilities) (axis : EAxis) : option bool :=
  match remaining with
  | O => Some false
  | S remaining =>
      match axisCapabilities capabilities !! Z.to_nat i with
      | None => None
      | Some entry =>
          if type entry =? EAxis_ordinal axis
          then Some (supportsForceFeedback entry)
          else ForceFeedbackIsSupportedForAxis_loop remaining (i + 1)
                 capabilities axis
      end
  end.

Definition ForceFeedbackIsSupportedForAxis (capabilities : SCapabilities)
    (axis : EAxis) : option bool :=
  ForceFeedbackIsSupportedForAxis_loop (Z.to_nat (numAxes capabilities)) 0
    capabilities axis.

(** [SCapabilities::HasAxis]: [-1 != FindAxis(axis)]. *)
Definition HasAxis (capabilities : SCapabilities) (axis : EAxis) : option bool :=
  match FindAxis capabilities axis with
  | Some index => Some (negb (-1 =? index))
  | None => None
  end.

(** [SCapabilities::HasButton], for the ordinal of the button. *)
Definition HasButton (capabilities : SCapabilities) (button : Z) : bool :=
  button <? numButtons capabilities.

(** [SAxisCapabilities::operator==], defaulted: member by member. *)
Definition SAxisCapabilities_eqb (a b : SAxisCapabilities) : bool :=
  (type a =? type b)
  && Bool.eqb (supportsForceFeedback a) (supportsForceFeedback b).

(** [std::equal] on [count] entries of two arrays, from index [i] on. *)
Fixpoint std_equal (count : nat) (i : nat) (first1 first2 : list SAxisCapabilities)
    : option bool :=
  match count with
  | O => Some true
  | S count =>
      match first1 !! i, first2 !! i with
      | Some a, Some b =>
          if SAxisCapabilities_eqb a b then std_equal count (S i) first1 first2
          else Some false
      | _, _ => None
      end
  end.

(** [SCapabilities::operator==].  The two ranges handed to [std::equal] both
    end at index [numAxes] of the object the operator is called on. *)
Definition SCapabilities_eqb (this other : SCapabilities) : option bool :=
  if negb (numAxes other =? numAxes this) then Some false
  else if negb (numButtons other =? numButtons this) then Some false
  else if negb (Bool.eqb (hasPov other) (hasPov this)) then Some false
  else std_equal (Z.to_nat (numAxes this)) 0
         (axisCapabilities other) (axisCapabilities this).

(** [SPhysicalState], with the packet number and the reading of its
    [XINPUT_STATE]. *)
Record SPhysicalState : Type := mkPhysicalState {
  errorCode : Z;
  dwPacketNumber : Z;
  Gamepad : XINPUT_GAMEPAD
}.

(** [SPhysicalState::operator==]. *)
Definition SPhysicalState_eqb (this other : SPhysicalState) : bool :=
  if negb (errorCode this =? errorCode other) then false
  else if (errorCode this =? 0)
          && negb (dwPacketNumber this =? dwPacketNumber other) then false
  else true.

(** ** ElementMapper.h *)

(** [class IElementMapper]: the virtual methods of an element mapper.  The
    controller state passed by reference is threaded through explicitly. *)
Record IElementMapper : Type := mkElementMapper {
  ContributeFromAnalogValue : SState -> Z -> SState;
  ContributeFromButtonValue : SState -> bool -> SState;
  ContributeFromTriggerValue : SState -> Z -> SState;
  GetTargetElementCount : Z;
  GetTargetElementAt : Z -> option SElementIdentifier;
  ContributeNeutral : SState -> SState
}.

(** ** The element map of a mapper ([Mapper::UElementMap]) *)

(** The named members of [Mapper::SElementMap], one per element of the
    physical controller. *)
Inductive EPhysicalElement : Type :=
| stickLeftX | stickLeftY | stickRightX | stickRightY
| dpadUp | dpadDown | dpadLeft | dpadRight
| triggerLT | triggerRT
| buttonA | buttonB | buttonX | buttonY
| buttonLB | buttonRB | buttonBack | buttonStart | buttonLS | buttonRS.

(** [elements.named.e] is [elements e]; an unassigned element is [None]
    ([nullptr]). *)
Definition UElementMap : Type := EPhysicalElement -> option IElementMapper.

Definition AllPhysicalElements : list EPhysicalElement :=
  [stickLeftX; stickLeftY; stickRightX; stickRightY;
   dpadUp; dpadDown; dpadLeft; dpadRight;
   triggerLT; triggerRT;
   buttonA; buttonB; buttonX; buttonY;
   buttonLB; buttonRB; buttonBack; buttonStart; buttonLS; buttonRS].

(** Modelled from the spec: [Mapper.h] is not among the sources, so the order
    of the members inside the union is taken to be the order in which
    [MapStatePhysicalToVirtual] visits them.  [elements.all] is the same
    table seen as an array. *)
Definition UElementMap_all (elements : UElementMap) : list (option IElementMapper) :=
  elements <$> AllPhysicalElements.

(** The table with no element mapper at all. *)
Definition UElementMap_empty : UElementMap := fun _ => None.

(** ** Force feedback actuators ([ForceFeedback::SActuatorElement]) *)

(** The actuator mode together with the member of the union it selects.
    [ActuatorMode_Count] is the sentinel, which reaches the [default] labels. *)
Inductive EActuatorMode : Type :=
| SingleAxis (axis : EAxis) (direction : EAxisDirection)
| MagnitudeProjection (axisFirst axisSecond : EAxis)
| ActuatorMode_Count.

Record SActuatorElement : Type := mkActuator {
  isPresent : bool;
  mode : EActuatorMode
}.

(** [Mapper::UForceFeedbackActuatorMap], by its named members. *)
Record UForceFeedbackActuatorMap : Type := mkActuatorMap {
  leftMotor : SActuatorElement;
  rightMotor : SActuatorElement;
  leftImpulseTrigger : SActuatorElement;
  rightImpulseTrigger : SActuatorElement
}.

(** [forceFeedbackActuators.all]. *)
Definition UForceFeedbackActuatorMap_all (m : UForceFeedbackActuatorMap)
    : list SActuatorElement :=
  [leftMotor m; rightMotor m; leftImpulseTrigger m; rightImpulseTrigger m].

Definition SActuatorElement_absent : SActuatorElement :=
  {| isPresent := false; mode := ActuatorMode_Count |}.

Definition UForceFeedbackActuatorMap_empty : UForceFeedbackActuatorMap :=
  mkActuatorMap SActuatorElement_absent SActuatorElement_absent
                SActuatorElement_absent SActuatorElement_absent.

(** ** Sets of enumerators ([BitSetEnum]) *)

(** Modelled from the spec: [ApiBitSet.h] is not among the sources.  A
    [BitSetEnum<EAxis>] is a bit mask with one bit per enumerator; iterating
    over it visits the members in ascending order of their ordinal. *)
Definition BitSetEnum : Type := Z.

Definition BitSetEnum_insert (s : BitSetEnum) (i : Z) : BitSetEnum :=
  Z.lor s (Z.shiftl 1 i).

Definition BitSetEnum_contains (s : BitSetEnum) (i : Z) : bool := Z.testbit s i.

Definition BitSetEnum_elements (count : Z) (s : BitSetEnum) : list Z :=
  filter (fun i => Is_true (BitSetEnum_contains s i)) (seqZ 0 count).

(** ** Constants of [class Mapper] *)

(** [Mapper.h] is not among the sources: what every virtual controller is
    required to have is a parameter of the development. *)
Class MapperConstants : Type := mkMapperConstants {
  kRequiredAxes : BitSetEnum;
  kRequiredForceFeedbackAxes : BitSetEnum;
  kMinNumButtons : Z;
  kIsPovRequired : bool
}.

(** ** DeriveCapabilitiesFromElementMap (Mapper.cpp) *)

(** The variables the two loops update. *)
Record DeriveVars : Type := mkDeriveVars {
  axesPresent : BitSetEnum;
  axesForceFeedback : BitSetEnum;
  highestButtonSeen : Z;
  povPresent : bool
}.

(** Body of the inner loop, for the result of [GetTargetElementAt(j)]. *)
Definition ScanTargetElement (vars : DeriveVars)
    (maybeTargetElement : option SElementIdentifier) : DeriveVars :=
  match maybeTargetElement with
  | None => vars
  | Some (Element_Axis a) =>
      if a <? EAxis_Count
      then mkDeriveVars (BitSetEnum_insert (axesPresent vars) a)
             (axesForceFeedback vars) (highestButtonSeen vars) (povPresent vars)
      else vars
  | Some (Element_Button b) =>
      if b <? EButton_Count
      then if b >? highestButtonSeen vars
           then mkDeriveVars (axesPresent vars) (axesForceFeedback vars) b
                  (povPresent vars)
           else vars
      else vars
  | Some Element_Pov =>
      mkDeriveVars (axesPresent vars) (axesForceFeedback vars)
        (highestButtonSeen vars) true
  | Some Element_WholeController => vars
  end.

(** Body of the loop over [elements.all]. *)
Definition ScanElementMapper (vars : DeriveVars)
    (element : option IElementMapper) : DeriveVars :=
  match element with
  | None => vars
  | Some m =>
      foldl (fun acc j => ScanTargetElement acc (GetTargetElementAt m j))
            vars (seqZ 0 (GetTargetElementCount m))
  end.

(** Body of the loop over [forceFeedbackActuators.all]. *)
Definition ScanActuator (vars : DeriveVars) (actuator : SActuatorElement)
    : DeriveVars :=
  if isPresent actuator then
    match mode actuator with
    | SingleAxis a _ =>
        mkDeriveVars (BitSetEnum_insert (axesPresent vars) (EAxis_ordinal a))
          (BitSetEnum_insert (axesForceFeedback vars) (EAxis_ordinal a))
          (highestButtonSeen vars) (povPresent vars)
    | MagnitudeProjection a1 a2 =>
        mkDeriveVars
          (BitSetEnum_insert (BitSetEnum_insert (axesPresent vars) (EAxis_ordinal a1))
             (EAxis_ordinal a2))
          (BitSetEnum_insert
             (BitSetEnum_insert (axesForceFeedback vars) (EAxis_ordinal a1))
             (EAxis_ordinal a2))
          (highestButtonSeen vars) (povPresent vars)
    | ActuatorMode_Count => vars
    end
  else vars.

(** The loop [for (auto axisPresent : axesPresent) capabilities.AppendAxis(...)]. *)
Fixpoint AppendAxes (axesForceFeedback : BitSetEnum) (present : list Z)
    (capabilities : SCapabilities) : option SCapabilities :=
  match present with
  | [] => Some capabilities
  | axisPresent :: rest =>
      match AppendAxis capabilities
              {| type := wrap_unsigned 3 axisPresent;
                 supportsForceFeedback :=
                   BitSetEnum_contains axesForceFeedback axisPresent |} with
      | Some capabilities' => AppendAxes axesForceFeedback rest capabilities'
      | None => None
      end
  end.

Definition DeriveScan `{MapperConstants} (elements : UElementMap)
    (forceFeedbackActuators : UForceFeedbackActuatorMap) : DeriveVars :=
  let vars :=
    {| axesPresent := kRequiredAxes;
       axesForceFeedback := kRequiredForceFeedbackAxes;
       highestButtonSeen := kMinNumButtons - 1;
       povPresent := kIsPovRequired |} in
  let vars := foldl ScanElementMapper vars (UElementMap_all elements) in
  foldl ScanActuator vars (UForceFeedbackActuatorMap_all forceFeedbackActuators).

Definition DeriveCapabilitiesFromElementMap `{MapperConstants}
    (elements : UElementMap) (forceFeedbackActuators : UForceFeedbackActuatorMap)
    : option SCapabilities :=
  let vars := DeriveScan elements forceFeedbackActuators in
  match AppendAxes (axesForceFeedback vars)
          (BitSetEnum_elements EAxis_Count (axesPresent vars))
          SCapabilities_zero with
  | Some capabilities =>
      Some {| axisCapabilities := axisCapabilities capabilities;
              numAxes := numAxes capabilities;
              numButtons := wrap_unsigned 5 (highestButtonSeen vars + 1);
              hasPov := povPresent vars |}
  | None => None
  end.

(** ** Filtering of analog stick values (Mapper.cpp) *)

(** The parameter is an [int16_t]: the function is called with the [SHORT]
    stick fields of the gamepad, whose values lie in [-32768, 32767]; a value
    computed in [int] is converted to the parameter's type at the call
    ([wrap_signed 16]). *)
Definition FilterAnalogStickValue (analogValue : Z) : Z :=
  if analogValue >? kAnalogValueMax then kAnalogValueMax
  else if analogValue <? kAnalogValueMin then kAnalogValueMin
  else analogValue.

(** The negation is computed in [int] and converted back to [int16_t]. *)
Definition FilterAndInvertAnalogStickValue (analogValue : Z) : Z :=
  wrap_signed 16 (- FilterAnalogStickValue analogValue).

(** ** Mapper::MapStatePhysicalToVirtual *)

(** What a physical element reads, by the method that receives it. *)
Inductive TPhysicalReading : Type :=
| AnalogValue (analogValue : Z)
| ButtonValue (buttonPressed : bool)
| TriggerValue (triggerValue : Z).

(** [0 != (physicalState.wButtons & mask)]. *)
Definition ButtonPressed (physicalState : XINPUT_GAMEPAD) (mask : Z) : bool :=
  negb (Z.land (wButtons physicalState) mask =? 0).

(** The calls of [MapStatePhysicalToVirtual] in program order: the element
    whose mapper is called (if it is not [nullptr]) and the reading it is
    handed. *)
Definition PhysicalReadings (physicalState : XINPUT_GAMEPAD)
    : list (EPhysicalElement * TPhysicalReading) :=
  [ (stickLeftX, AnalogValue (FilterAnalogStickValue (sThumbLX physicalState)));
    (stickLeftY, AnalogValue (FilterAndInvertAnalogStickValue (sThumbLY physicalState)));
    (stickRightX, AnalogValue (FilterAnalogStickValue (sThumbRX physicalState)));
    (stickRightY, AnalogValue (FilterAndInvertAnalogStickValue (sThumbRY physicalState)));
    (dpadUp, ButtonValue (ButtonPressed physicalState XINPUT_GAMEPAD_DPAD_UP));
    (dpadDown, ButtonValue (ButtonPressed physicalState XINPUT_GAMEPAD_DPAD_DOWN));
    (dpadLeft, ButtonValue (ButtonPressed physicalState XINPUT_GAMEPAD_DPAD_LEFT));
    (dpadRight, ButtonValue (ButtonPressed physicalState XINPUT_GAMEPAD_DPAD_RIGHT));
    (triggerLT, TriggerValue (bLeftTrigger physicalState));
    (triggerRT, TriggerValue (bRightTrigger physicalState));
    (buttonA, ButtonValue (ButtonPressed physicalState XINPUT_GAMEPAD_A));
    (buttonB, ButtonValue (ButtonPressed physicalState XINPUT_GAMEPAD_B));
    (buttonX, ButtonValue (ButtonPressed physicalState XINPUT_GAMEPAD_X));
    (buttonY, ButtonValue (ButtonPressed physicalState XINPUT_GAMEPAD_Y));
    (buttonLB, ButtonValue (ButtonPressed physicalState XINPUT_GAMEPAD_LEFT_SHOULDER));
    (buttonRB, ButtonValue (ButtonPressed physicalState XINPUT_GAMEPAD_RIGHT_SHOULDER));
    (buttonBack, ButtonValue (ButtonPressed physicalState XINPUT_GAMEPAD_BACK));
    (buttonStart, ButtonValue (ButtonPressed physicalState XINPUT_GAMEPAD_START));
    (buttonLS, ButtonValue (ButtonPressed physicalState XINPUT_GAMEPAD_LEFT_THUMB));
    (buttonRS, ButtonValue (ButtonPressed physicalState XINPUT_GAMEPAD_RIGHT_THUMB)) ].

(** One line of the method: [if (nullptr != elements.named.e)
    elements.named.e->ContributeFrom...(controllerState, reading)]. *)
Definition ContributeFrom (elements : UElementMap) (controllerState : SState)
    (call : EPhysicalElement * TPhysicalReading) : SState :=
  match elements call.1 with
  | None => controllerState
  | Some m =>
      match call.2 with
      | AnalogValue v => ContributeFromAnalogValue m controllerState v
      | ButtonValue b => ContributeFromButtonValue m controllerState b
      | TriggerValue t => ContributeFromTriggerValue m controllerState t
      end
  end.

(** Body of the final loop over [controllerState.axis]. *)
Definition SaturateAxisValue (axisValue : Z) : Z :=
  if axisValue >? kAnalogValueMax then kAnalogValueMax
  else if axisValue <? kAnalogValueMin then kAnalogValueMin
  else axisValue.

Definition MapStatePhysicalToVirtual (elements : UElementMap)
    (physicalState : XINPUT_GAMEPAD) : SState :=
  let controllerState :=
    foldl (ContributeFrom elements) SState_zero (PhysicalReadings physicalState) in
  {| axis := vmap SaturateAxisValue (axis controllerState);
     button := button controllerState;
     povDirection := povDirection controllerState |}.

(** ** The mapper registry ([class MapperRegistry], Mapper.cpp) *)

(** Address of a live [Mapper] object.  A [const Mapper*] is an
    [option MapperPtr], [None] standing for [nullptr]. *)
Abbreviation MapperPtr := positive.

(** [std::wstring_view::empty]. *)
Definition wstring_empty (s : string) : bool :=
  match s with
  | EmptyString => true
  | String _ _ => false
  end.

Record MapperRegistry : Type := mkRegistry {
  knownMappers : gmap string MapperPtr;
  defaultMapper : string
}.

(** The singleton before any mapper has been constructed. *)
Definition EmptyRegistry : MapperRegistry :=
  {| knownMappers := ∅; defaultMapper := "" |}.

Definition RegisterMapper (name : string) (object : MapperPtr)
    (r : MapperRegistry) : MapperRegistry :=
  if wstring_empty name then r
  else
    {| knownMappers := <[name := object]> (knownMappers r);
       defaultMapper :=
         if wstring_empty (defaultMapper r) then name else defaultMapper r |}.

Definition UnregisterMapper (name : string) (object : MapperPtr)
    (r : MapperRegistry) : MapperRegistry :=
  if wstring_empty name then r
  else
    match knownMappers r !! name with
    | None => r
    | Some registered =>
        if negb (Pos.eqb object registered) then r
        else
          {| knownMappers := delete name (knownMappers r);
             defaultMapper :=
               if String.eqb (defaultMapper r) name then ""
               else defaultMapper r |}
    end.

Definition GetMapper (mapperName : string) (r : MapperRegistry)
    : option MapperPtr :=
  let mapperName :=
    if wstring_empty mapperName then defaultMapper r else mapperName in
  knownMappers r !! mapperName.

(** Registry part of [Mapper::Mapper(name, ...)] for the object at [this]. *)
Definition Mapper_construct (name : string) (this : MapperPtr)
    (r : MapperRegistry) : MapperRegistry :=
  if negb (wstring_empty name) then RegisterMapper name this r else r.

(** Registry part of [Mapper::~Mapper] for the object at [this]. *)
Definition Mapper_destroy (name : string) (this : MapperPtr)
    (r : MapperRegistry) : MapperRegistry :=
  if negb (wstring_empty name) then UnregisterMapper name this r else r.

(** [Mapper::GetByName]. *)
Definition GetByName (mapperName : string) (r : MapperRegistry)
    : option MapperPtr :=
  GetMapper mapperName r.

(** Modelled from the spec: [Mapper::GetDefault] is declared in [Mapper.h],
    which is not among the sources.  The default mapper is the one that a
    lookup by name returns when given an empty name. *)
Definition GetDefault (r : MapperRegistry) : option MapperPtr :=
  GetByName "" r.

(** A run of constructions of mappers, oldest first. *)
Definition ConstructAll (ms : list (string * MapperPtr))
    (r : MapperRegistry) : MapperRegistry :=
  foldl (fun acc m => Mapper_construct m.1 m.2 acc) r ms.

(** The registries the program can be in: those obtained from the empty
    one by constructing and destroying mappers. *)
Inductive Reachable : MapperRegistry -> Prop :=
| Reachable_empty : Reachable EmptyRegistry
| Reachable_construct name this r :
    Reachable r -> Reachable (Mapper_construct name this r)
| Reachable_destroy name this r :
    Reachable r -> Reachable (Mapper_destroy name this r).

(** No mapper is ever recorded under the empty name. *)
Definition NoEmptyKey (r : MapperRegistry) : Prop := knownMappers r !! "" = None.

(** ** Mapper::GetConfigured and Mapper::GetNull *)

(** The mapper section of the configuration file, as [GetConfigured] reads
    it: the controller-independent type setting and the type setting of each
    controller, each present ([NameExists]) with its first string value or
    absent. *)
Record MapperConfigData : Type := mkMapperConfig {
  settingMapperType : option string;
  settingMapperTypeForController : Z -> option string
}.

(** [Globals::GetConfigurationData()], restricted to what is read: [None]
    when the mapper section does not exist. *)
Definition ConfigurationData : Type := option MapperConfigData.

(** Everything [GetConfigured] depends on besides its argument. *)
Record MapperEnvironment : Type := mkMapperEnv {
  env_registry : MapperRegistry;
  env_configData : ConfigurationData;
  (** address of the function-local static [kNullMapper] *)
  env_kNullMapper : MapperPtr
}.

(** [Mapper::GetNull]. *)
Definition GetNull (env : MapperEnvironment) : option MapperPtr :=
  Some (env_kNullMapper env).

(** The body run under [std::call_once]: the contents of the static array
    [configuredMapper]. *)
Definition InitConfiguredMappers (env : MapperEnvironment)
    : list (option MapperPtr) :=
  match env_configData env with
  | Some mapperConfigData =>
      let fallbackMapper : option MapperPtr :=
        match settingMapperType mapperConfigData with
        | Some fallbackMapperName => GetByName fallbackMapperName (env_registry env)
        | None => None
        end in
      let fallbackMapper :=
        match fallbackMapper with
        | Some m => Some m
        | None =>
            match GetDefault (env_registry env) with
            | Some m => Some m
            | None => GetNull env
            end
        end in
      (fun i =>
         match settingMapperTypeForController mapperConfigData i with
         | Some configuredMapperName =>
             match GetByName configuredMapperName (env_registry env) with
             | Some m => Some m
             | None => fallbackMapper
             end
         | None => fallbackMapper
         end) <$> seqZ 0 kPhysicalControllerCount
  | None =>
      let defaultMapper :=
        match GetDefault (env_registry env) with
        | Some m => Some m
        | None => GetNull env
        end in
      (fun _ => defaultMapper) <$> seqZ 0 kPhysicalControllerCount
  end.

(** [Mapper::GetConfigured].  [cache] is the static array once it has been
    filled ([None] before the first call); the environment is the one of the
    call.  Returns the pointer and the static array after the call. *)
Definition GetConfigured (env : MapperEnvironment)
    (cache : option (list (option MapperPtr))) (controllerIdentifier : Z)
    : option MapperPtr * option (list (option MapperPtr)) :=
  let configuredMapper :=
    match cache with
    | Some configuredMapper => configuredMapper
    | None => InitConfiguredMappers env
    end in
  if controllerIdentifier >=? kPhysicalControllerCount
  then (GetNull env, Some configuredMapper)
  else (default None (configuredMapper !! Z.to_nat controllerIdentifier),
        Some configuredMapper).

(** ** Force feedback values *)

(** [ForceFeedbackTypes.h] is not among the sources: the type of effect
    values, its constants and the arithmetic on it are parameters of the
    development.  [TEffectValue] is the floating-point type of magnitudes,
    gains and modifiers; [TWide] is the type in which [std::pow] and
    [std::sqrt] compute.  The operations are those the program applies:
    [==], [<] (inside [std::min]), [std::signbit], [std::abs], [-], [*], [/],
    the conversion from an integer, [std::pow(x, 2)], [+] and [std::sqrt] on
    the wide type, the conversion back and [std::lround].  [ev_isfinite]
    ([std::isfinite]) does not occur in the program; properties are stated
    with it. *)
Class EffectArithmetic : Type := mkEffectArithmetic {
  TEffectValue : Type;
  TWide : Type;
  kEffectForceMagnitudeZero : TEffectValue;
  kEffectForceMagnitudeMaximum : TEffectValue;
  kEffectModifierMaximum : TEffectValue;
  ev_of_int : Z -> TEffectValue;
  ev_eqb : TEffectValue -> TEffectValue -> bool;
  ev_ltb : TEffectValue -> TEffectValue -> bool;
  ev_signbit : TEffectValue -> bool;
  ev_isfinite : TEffectValue -> bool;
  ev_abs : TEffectValue -> TEffectValue;
  ev_sub : TEffectValue -> TEffectValue -> TEffectValue;
  ev_mul : TEffectValue -> TEffectValue -> TEffectValue;
  ev_div : TEffectValue -> TEffectValue -> TEffectValue;
  ev_pow2 : TEffectValue -> TWide;
  wide_add : TWide -> TWide -> TWide;
  wide_sqrt : TWide -> TWide;
  ev_of_wide : TWide -> TEffectValue;
  ev_lround : TEffectValue -> Z
}.

(** [std::min(a, b)], which is [(b < a) ? b : a]. *)
Definition ev_min `{EffectArithmetic} (a b : TEffectValue) : TEffectValue :=
  if ev_ltb b a then b else a.

(** Modelled from the spec: [TPhysicalActuatorValue] is declared in
    [ForceFeedbackTypes.h], which is not among the sources.  The physical
    actuator's output range is unsigned; it is taken to be the 16-bit word of
    the XInput motor speeds. *)
Definition TPhysicalActuatorValue_bits : Z := 16.
Definition TPhysicalActuatorValue_max : Z := 2 ^ TPhysicalActuatorValue_bits - 1.
Definition TPhysicalActuatorValue_min : Z := 0.

(** [ForceFeedback::SPhysicalActuatorComponents]. *)
Record SPhysicalActuatorComponents : Type := mkPhysicalComponents {
  out_leftMotor : Z;
  out_rightMotor : Z;
  out_leftImpulseTrigger : Z;
  out_rightImpulseTrigger : Z
}.

Definition SPhysicalActuatorComponents_all (c : SPhysicalActuatorComponents)
    : list Z :=
  [out_leftMotor c; out_rightMotor c; out_leftImpulseTrigger c;
   out_rightImpulseTrigger c].

Section ForceFeedback.
Context `{EffectArithmetic}.

(** [ForceFeedback::TOrderedMagnitudeComponents]: one magnitude component per
    axis, indexed by the axis. *)
Definition TOrderedMagnitudeComponents : Type := vec TEffectValue 6.

(** First part of [ForceFeedbackActuatorValue], up to the [switch]:
    [virtualActuatorStrengthRaw], or [None] where the function has returned 0. *)
Definition VirtualActuatorStrengthRaw
    (virtualEffectComponents : TOrderedMagnitudeComponents)
    (actuatorElement : SActuatorElement) : option TEffectValue :=
  if negb (isPresent actuatorElement) then None
  else
    match mode actuatorElement with
    | SingleAxis a direction =>
        let component := virtualEffectComponents !!! EAxis_index a in
        if ev_eqb kEffectForceMagnitudeZero component then None
        else
          let kActuatorDirectionIsNegative := ev_signbit component in
          match direction, kActuatorDirectionIsNegative with
          | EAxisDirection_Positive, true => None
          | EAxisDirection_Negative, false => None
          | _, _ => Some component
          end
    | MagnitudeProjection axisFirst axisSecond =>
        Some (ev_of_wide
                (wide_sqrt
                   (wide_add
                      (ev_pow2 (virtualEffectComponents !!! EAxis_index axisFirst))
                      (ev_pow2 (virtualEffectComponents !!! EAxis_index axisSecond)))))
    | ActuatorMode_Count => None
    end.

Definition kPhysicalActuatorRange : TEffectValue :=
  ev_of_int (TPhysicalActuatorValue_max - TPhysicalActuatorValue_min).

Definition kVirtualMagnitudeRange : TEffectValue :=
  ev_sub kEffectForceMagnitudeMaximum kEffectForceMagnitudeZero.

Definition kScalingFactor : TEffectValue :=
  ev_div kPhysicalActuatorRange kVirtualMagnitudeRange.

(** [kVirtualActuatorStrengthMax] for a gain. *)
Definition VirtualActuatorStrengthMax (gain : TEffectValue) : TEffectValue :=
  let kGainMultiplier := ev_div gain kEffectModifierMaximum in
  ev_mul (ev_sub kEffectForceMagnitudeMaximum kEffectForceMagnitudeZero)
         kGainMultiplier.

(** Second part of [ForceFeedbackActuatorValue], after the [switch]: gain
    scaling, rescaling to the physical range, rounding and conversion to
    [TPhysicalActuatorValue].  ([std::lround] returns a [long]; its value is
    converted to the unsigned type.) *)
Definition PhysicalActuatorStrength (virtualActuatorStrengthRaw gain : TEffectValue)
    : Z :=
  let kGainMultiplier := ev_div gain kEffectModifierMaximum in
  let kVirtualActuatorStrengthMax := VirtualActuatorStrengthMax gain in
  let kVirtualActuatorStrength :=
    ev_min kVirtualActuatorStrengthMax
      (ev_mul kGainMultiplier
         (ev_abs (ev_sub virtualActuatorStrengthRaw kEffectForceMagnitudeZero))) in
  let kPhysicalActuatorStrength :=
    ev_lround (ev_mul kVirtualActuatorStrength kScalingFactor) in
  wrap_unsigned TPhysicalActuatorValue_bits kPhysicalActuatorStrength.

Definition ForceFeedbackActuatorValue
    (virtualEffectComponents : TOrderedMagnitudeComponents)
    (actuatorElement : SActuatorElement) (gain : TEffectValue) : Z :=
  match VirtualActuatorStrengthRaw virtualEffectComponents actuatorElement with
  | None => 0
  | Some virtualActuatorStrengthRaw =>
      PhysicalActuatorStrength virtualActuatorStrengthRaw gain
  end.

(** [Mapper::MapForceFeedbackVirtualToPhysical] for a mapper with the given
    actuator table. *)
Definition MapForceFeedbackVirtualToPhysical
    (forceFeedbackActuators : UForceFeedbackActuatorMap)
    (virtualEffectComponents : TOrderedMagnitudeComponents)
    (gain : TEffectValue) : SPhysicalActuatorComponents :=
  {| out_leftMotor :=
       ForceFeedbackActuatorValue virtualEffectComponents
         (leftMotor forceFeedbackActuators) gain;
     out_rightMotor :=
       ForceFeedbackActuatorValue virtualEffectComponents
         (rightMotor forceFeedbackActuators) gain;
     out_leftImpulseTrigger :=
       ForceFeedbackActuatorValue virtualEffectComponents
         (leftImpulseTrigger forceFeedbackActuators) gain;
     out_rightImpulseTrigger :=
       ForceFeedbackActuatorValue virtualEffectComponents
         (rightImpulseTrigger forceFeedbackActuators) gain |}.

(** The level a gain allows at most: the physical level of
    [kVirtualActuatorStrengthMax]. *)
Definition GainScaledMaximum (gain : TEffectValue) : Z :=
  wrap_unsigned TPhysicalActuatorValue_bits
    (ev_lround (ev_mul (VirtualActuatorStrengthMax gain) kScalingFactor)).

(** [x <= y] on effect values. *)
Definition ev_le (x y : TEffectValue) : Prop :=
  ev_ltb x y = true \/ ev_eqb x y = true.

End ForceFeedback.

(** The magnitude component vector with [v] on axis [a] and zero elsewhere. *)
Definition SingleComponent `{EffectArithmetic} (a : EAxis) (v : TEffectValue)
    : TOrderedMagnitudeComponents :=
  vinsert (EAxis_index a) v (vreplicate 6 kEffectForceMagnitudeZero).

(** *** What the properties ask of the arithmetic *)

(** Facts of ordered arithmetic with monotone rounding, as they hold of
    finite floating-point values, and facts about the constants.  They are
    proved of the single-precision arithmetic in [Binary32Arithmetic_laws]. *)
Class EffectArithmeticLaws `{EffectArithmetic} : Prop := mkEffectArithmeticLaws {
  ev_le_refl x y : ev_le x y -> ev_le x x /\ ev_le y y;
  ev_le_trans x y z : ev_le x y -> ev_le y z -> ev_le x z;
  ev_le_lt_trans x y z : ev_le x y -> ev_ltb y z = true -> ev_ltb x z = true;
  ev_lt_le_trans x y z : ev_ltb x y = true -> ev_le y z -> ev_ltb x z = true;
  ev_le_not_lt x y : ev_le x y -> ev_ltb y x = false;
  ev_lt_positive x :
    ev_ltb kEffectForceMagnitudeZero x = true ->
    ev_eqb kEffectForceMagnitudeZero x = false /\ ev_signbit x = false;
  ev_sub_zero x : ev_sub x kEffectForceMagnitudeZero = x;
  ev_abs_nonneg x : ev_signbit x = false -> ev_abs x = x;
  ev_mul_comm x y : ev_mul x y = ev_mul y x;
  ev_mul_nonneg c x :
    ev_isfinite c = true -> ev_le kEffectForceMagnitudeZero c ->
    ev_isfinite x = true -> ev_le kEffectForceMagnitudeZero x ->
    ev_le kEffectForceMagnitudeZero (ev_mul c x);
  ev_mul_le c x y :
    ev_isfinite c = true -> ev_le kEffectForceMagnitudeZero c ->
    ev_le kEffectForceMagnitudeZero x -> ev_le x y -> ev_isfinite y = true ->
    ev_le (ev_mul c x) (ev_mul c y);
  ev_div_le g :
    ev_le kEffectForceMagnitudeZero g -> ev_le g kEffectModifierMaximum ->
    ev_le kEffectForceMagnitudeZero (ev_div g kEffectModifierMaximum)
    /\ ev_le (ev_div g kEffectModifierMaximum)
             (ev_div kEffectModifierMaximum kEffectModifierMaximum);
  ev_isfinite_le x y :
    ev_le kEffectForceMagnitudeZero x -> ev_le x y -> ev_isfinite y = true ->
    ev_isfinite x = true;
  ev_lround_le x y :
    ev_le kEffectForceMagnitudeZero x -> ev_le x y -> ev_isfinite y = true ->
    ev_lround x <= ev_lround y;
  ev_lround_zero : ev_lround kEffectForceMagnitudeZero = 0;
  ev_maximum_nonneg :
    ev_le kEffectForceMagnitudeZero kEffectForceMagnitudeMaximum;
  ev_maximum_finite : ev_isfinite kEffectForceMagnitudeMaximum = true;
  ev_unit_gain_finite :
    ev_isfinite (ev_div kEffectModifierMaximum kEffectModifierMaximum) = true;
  ev_full_strength_finite :
    ev_isfinite
      (ev_mul kEffectForceMagnitudeMaximum
         (ev_div kEffectModifierMaximum kEffectModifierMaximum)) = true;
  ev_scaling_nonneg : ev_le kEffectForceMagnitudeZero kScalingFactor;
  ev_scaling_finite : ev_isfinite kScalingFactor = true;
  ev_full_scale_finite :
    ev_isfinite
      (ev_mul kScalingFactor
         (ev_mul kEffectForceMagnitudeMaximum
            (ev_div kEffectModifierMaximum kEffectModifierMaximum))) = true;
  ev_full_scale_fits :
    ev_lround
      (ev_mul kScalingFactor
         (ev_mul kEffectForceMagnitudeMaximum
            (ev_div kEffectModifierMaximum kEffectModifierMaximum)))
    <= TPhysicalActuatorValue_max
}.

(** ** IEEE 754 single precision *)

(** Rounding of the rational [p / q] ([0 <= p], [0 < q]) to the nearest
    integer, halfway cases to the even one. *)
Definition RoundNearestEven (p q : Z) : Z :=
  let f := p / q in
  match 2 * (p mod q) ?= q with
  | Lt => f
  | Eq => if Z.even f then f else f + 1
  | Gt => f + 1
  end.

(** Rounding of [p / q] to the nearest integer with at most 24 significant
    bits, halfway cases to the one with an even significand. *)
Definition Round24 (p q : Z) : Z :=
  let k := Z.max 0 (Z.log2 (p / q) - 23) in
  RoundNearestEven p (q * 2 ^ k) * 2 ^ k.

(** A single-precision value is a NaN, an infinity, or a finite value
    [(-1)^s * n * 2^-149]: every finite [float], subnormal or normal, is a
    multiple of [2^-149].  Each of them has a sign bit, the NaN included; the
    payload of a NaN is not represented, as nothing in the program reads
    it. *)
Inductive float32raw : Type :=
| F32_nan (s : bool)
| F32_inf (s : bool)
| F32_fin (s : bool) (n : Z).

(** The NaN that an invalid operation produces.  IEEE 754 does not fix the
    sign of a NaN result; on the x86 processors the program is built for, the
    sign bit of this one is set. *)
Definition F32_default_nan : float32raw := F32_nan true.

(** The value 1 and the value [2^128], the first power of two that is not a
    finite [float], in units of [2^-149]. *)
Definition F32_one : Z := 2 ^ 149.
Definition F32_limit : Z := 2 ^ 277.

(** The multiples of [2^-149] that are finite [float] magnitudes: those below
    [2^128] with at most 24 significant bits. *)
Definition valid_magnitude (n : Z) : bool :=
  (0 <=? n) && (n <? F32_limit)
  && ((n <? 2 ^ 24) || (n mod 2 ^ (Z.log2 n - 23) =? 0)).

Definition F32_valid (x : float32raw) : bool :=
  match x with
  | F32_fin _ n => valid_magnitude n
  | _ => true
  end.

(** The [float] nearest to [(-1)^s * p / q] units; it is an infinity when the
    rounded magnitude reaches [2^128]. *)
Definition F32_round (s : bool) (p q : Z) : float32raw :=
  let n := Round24 p q in
  if n <? F32_limit then F32_fin s n else F32_inf s.

(** The position of a value in the order of the extended reals, in units of
    [2^-149]; a NaN has none. *)
Definition F32_key (x : float32raw) : option Z :=
  match x with
  | F32_nan _ => None
  | F32_inf s => Some (cond_Zopp s F32_limit)
  | F32_fin s n => Some (cond_Zopp s n)
  end.

Definition F32_ltb (x y : float32raw) : bool :=
  match F32_key x, F32_key y with
  | Some a, Some b => a <? b
  | _, _ => false
  end.

Definition F32_eqb (x y : float32raw) : bool :=
  match F32_key x, F32_key y with
  | Some a, Some b => a =? b
  | _, _ => false
  end.

(** [std::signbit]: the sign bit as it is stored, also for a NaN. *)
Definition F32_signbit (x : float32raw) : bool :=
  match x with
  | F32_nan s | F32_inf s | F32_fin s _ => s
  end.

Definition F32_isfinite (x : float32raw) : bool :=
  match x with
  | F32_fin _ _ => true
  | _ => false
  end.

(** [std::abs] clears the sign bit, also of a NaN. *)
Definition F32_abs (x : float32raw) : float32raw :=
  match x with
  | F32_nan _ => F32_nan false
  | F32_inf _ => F32_inf false
  | F32_fin _ n => F32_fin false n
  end.

(** A NaN operand is handed on with its sign.  When both operands are NaNs
    the result is one of them; which one is not fixed for a product, whose
    operands may be exchanged, and the sign taken here is set only when both
    are set.  The program reads the sign of the magnitude components it is
    given, never that of a computed NaN. *)
Definition F32_mul (x y : float32raw) : float32raw :=
  match x, y with
  | F32_nan s1, F32_nan s2 => F32_nan (s1 && s2)
  | F32_nan s, _ | _, F32_nan s => F32_nan s
  | F32_inf s1, F32_inf s2 => F32_inf (xorb s1 s2)
  | F32_inf s1, F32_fin s2 n | F32_fin s1 n, F32_inf s2 =>
      if n =? 0 then F32_default_nan else F32_inf (xorb s1 s2)
  | F32_fin s1 n1, F32_fin s2 n2 => F32_round (xorb s1 s2) (n1 * n2) F32_one
  end.

(** A NaN operand is handed on with its sign, the first one when both are. *)
Definition F32_div (x y : float32raw) : float32raw :=
  match x, y with
  | F32_nan s, _ | _, F32_nan s => F32_nan s
  | F32_inf _, F32_inf _ => F32_default_nan
  | F32_inf s1, F32_fin s2 _ => F32_inf (xorb s1 s2)
  | F32_fin s1 _, F32_inf s2 => F32_fin (xorb s1 s2) 0
  | F32_fin s1 n1, F32_fin s2 n2 =>
      if n2 =? 0
      then if n1 =? 0 then F32_default_nan else F32_inf (xorb s1 s2)
      else F32_round (xorb s1 s2) (n1 * F32_one) n2
  end.

(** An exact zero difference is [-0] only for [(-0) - (+0)].  A NaN operand
    is handed on with its sign, the first one when both are. *)
Definition F32_sub (x y : float32raw) : float32raw :=
  match x, y with
  | F32_nan s, _ | _, F32_nan s => F32_nan s
  | F32_inf s1, F32_inf s2 => if eqb s1 s2 then F32_default_nan else F32_inf s1
  | F32_inf s1, F32_fin _ _ => F32_inf s1
  | F32_fin _ _, F32_inf s2 => F32_inf (negb s2)
  | F32_fin s1 n1, F32_fin s2 n2 =>
      let d := cond_Zopp s1 n1 - cond_Zopp s2 n2 in
      if d =? 0 then F32_fin (s1 && negb s2) 0
      else F32_round (d <? 0) (Z.abs d) 1
  end.

(** Conversion of an integer, in units of 1. *)
Definition F32_of_int (z : Z) : float32raw :=
  F32_round (z <? 0) (Z.abs z * F32_one) 1.

(** [std::lround]: the nearest integer, halfway cases away from zero.  The
    result for an infinity or a NaN is unspecified and taken to be 0. *)
Definition F32_lround (x : float32raw) : Z :=
  match x with
  | F32_fin s n => cond_Zopp s ((n + F32_one / 2) / F32_one)
  | _ => 0
  end.

(** The [double] of the same value, in the representation of the standard
    library, which has a single NaN. *)
Definition F32_to_double (x : float32raw) : spec_float :=
  match x with
  | F32_nan _ => S754_nan
  | F32_inf s => S754_infinity s
  | F32_fin s n => binary_normalize 53 1024 (cond_Zopp s n) (-149) s
  end.

(** Conversion of a [double] to [float]. *)
Definition F32_of_double (w : spec_float) : float32raw :=
  match w with
  | S754_nan => F32_default_nan
  | S754_infinity s => F32_inf s
  | S754_zero s => F32_fin s 0
  | S754_finite s m e =>
      if 0 <=? e + 149
      then F32_round s (Z.pos m * 2 ^ (e + 149)) 1
      else F32_round s (Z.pos m) (2 ^ (- (e + 149)))
  end.

(** The same [float] in the representation of the standard library, for
    comparison with its operations. *)
Definition F32_to_spec_float (x : float32raw) : spec_float :=
  match x with
  | F32_nan _ => S754_nan
  | F32_inf s => S754_infinity s
  | F32_fin s n => binary_normalize 24 128 (cond_Zopp s n) (-149) s
  end.


(** Values on which the model is compared with the standard library's
    specification of IEEE 754 arithmetic. *)
Definition F32_samples : list float32raw :=
  [ F32_fin false 0; F32_fin true 0; F32_of_int 1; F32_of_int 3;
    F32_of_int (-7); F32_of_int 5001; F32_of_int 10000; F32_of_int 20000;
    F32_of_int 16777217; F32_div (F32_of_int 1) (F32_of_int 3);
    F32_div (F32_of_int 65535) (F32_of_int 10000);
    F32_fin false 1; F32_fin true 12345; F32_fin false (2 ^ 23 - 1);
    F32_fin false (2 ^ 277 - 2 ^ 253); F32_fin true (2 ^ 276);
    F32_inf false; F32_inf true; F32_nan false; F32_nan true ].


(** ** The single-precision arithmetic *)

(** [float]: the single-precision values. *)
Definition float32 : Type := { x : float32raw | F32_valid x = true }.

(** The result of an operation as a [float].  The operations below only
    produce single-precision values ([F32_mul_valid] and the like), so the
    second branch is never taken ([F32_pack_valid]). *)
Definition F32_pack (x : float32raw) : float32 :=
  match decide (F32_valid x = true) with
  | left H => x ↾ H
  | right _ => F32_default_nan ↾ eq_refl
  end.

Definition float32_of_int (z : Z) : float32 := F32_pack (F32_of_int z).

(** Modelled from the spec: [ForceFeedbackTypes.h] is not among the sources.
    [float] for [TEffectValue] and [double] for the wide type, in which
    [std::pow] and [std::sqrt] compute, with the nominal maximum 10000 of
    DirectInput for magnitudes and modifiers. *)
Definition Binary32Arithmetic : EffectArithmetic :=
  {| TEffectValue := float32;
     TWide := spec_float;
     kEffectForceMagnitudeZero := float32_of_int 0;
     kEffectForceMagnitudeMaximum := float32_of_int 10000;
     kEffectModifierMaximum := float32_of_int 10000;
     ev_of_int := float32_of_int;
     ev_eqb := fun x y => F32_eqb (`x) (`y);
     ev_ltb := fun x y => F32_ltb (`x) (`y);
     ev_signbit := fun x => F32_signbit (`x);
     ev_isfinite := fun x => F32_isfinite (`x);
     ev_abs := fun x => F32_pack (F32_abs (`x));
     ev_sub := fun x y => F32_pack (F32_sub (`x) (`y));
     ev_mul := fun x y => F32_pack (F32_mul (`x) (`y));
     ev_div := fun x y => F32_pack (F32_div (`x) (`y));
     ev_pow2 := fun x => let w := F32_to_double (`x) in SFmul 53 1024 w w;
     wide_add := SFadd 53 1024;
     wide_sqrt := SFsqrt 53 1024;
     ev_of_wide := fun w => F32_pack (F32_of_double w);
     ev_lround := fun x => F32_lround (`x) |}.

(** ** MapperBuilder (MapperBuilder.h) *)

(** Index of a controller element in [UElementMap::all]. *)
Definition EPhysicalElement_index (e : EPhysicalElement) : nat :=
  match e with
  | stickLeftX => 0 | stickLeftY => 1 | stickRightX => 2 | stickRightY => 3
  | dpadUp => 4 | dpadDown => 5 | dpadLeft => 6 | dpadRight => 7
  | triggerLT => 8 | triggerRT => 9
  | buttonA => 10 | buttonB => 11 | buttonX => 12 | buttonY => 13
  | buttonLB => 14 | buttonRB => 15 | buttonBack => 16 | buttonStart => 17
  | buttonLS => 18 | buttonRS => 19
  end%nat.

(** [MapperBuilder::SBlueprint].  [changesFromTemplate] maps an element index
    to the element mapper that replaces the one of the template, [None] being
    a [nullptr] entry, which removes it. *)
Record SBlueprint : Type := mkBlueprint {
  templateName : string;
  changesFromTemplate : gmap nat (option IElementMapper);
  buildAttempted : bool
}.

(** The builder with what its operations read and write outside of it: the
    mapper registry and the element maps of the [Mapper] objects that exist,
    by address. *)
Record BuilderState : Type := mkBuilderState {
  blueprints : gmap string SBlueprint;
  registry : MapperRegistry;
  mapperObjects : gmap positive UElementMap
}.

Definition IsMapperNameKnown (name : string) (st : BuilderState) : bool :=
  bool_decide (is_Some (knownMappers (registry st) !! name)).

(** Modelled from the spec: [MapperBuilder.cpp] is not among the sources.
    [createBlueprint(name)] fails if the name already denotes a blueprint or
    an already-built mapper. *)
Definition CreateBlueprint (mapperName : string) (st : BuilderState)
    : bool * BuilderState :=
  if bool_decide (is_Some (blueprints st !! mapperName))
     || IsMapperNameKnown mapperName st
  then (false, st)
  else (true,
        {| blueprints := <[mapperName := mkBlueprint "" ∅ false]> (blueprints st);
           registry := registry st;
           mapperObjects := mapperObjects st |}).

(** Modelled from the spec: [MapperBuilder.cpp] is not among the sources.
    [setTemplate(name, templateName)] fails if the blueprint is frozen or
    missing; the template name is not checked against the existing names. *)
Definition SetBlueprintTemplate (mapperName newTemplateName : string)
    (st : BuilderState) : bool * BuilderState :=
  match blueprints st !! mapperName with
  | None => (false, st)
  | Some blueprint =>
      if buildAttempted blueprint then (false, st)
      else (true,
            {| blueprints :=
                 <[mapperName := mkBlueprint newTemplateName
                                   (changesFromTemplate blueprint) false]>
                   (blueprints st);
               registry := registry st;
               mapperObjects := mapperObjects st |})
  end.

(** The overrides of a blueprint applied on top of a base table: an override
    replaces the element mapper, an absent override removes it. *)
Definition ApplyChanges (changes : gmap nat (option IElementMapper))
    (base : UElementMap) : UElementMap :=
  fun e =>
    match changes !! EPhysicalElement_index e with
    | Some override => override
    | None => base e
    end.

(** [new Mapper(mapperName, elements)]: the object is placed at an unused
    address and its constructor registers it. *)
Definition NewMapper (mapperName : string) (elements : UElementMap)
    (st : BuilderState) : MapperPtr * BuilderState :=
  let this := fresh (dom (mapperObjects st)) in
  (this,
   {| blueprints := blueprints st;
      registry := Mapper_construct mapperName this (registry st);
      mapperObjects := <[this := elements]> (mapperObjects st) |}).

Definition MarkBuildAttempted (mapperName : string) (blueprint : SBlueprint)
    (st : BuilderState) : BuilderState :=
  {| blueprints :=
       <[mapperName := mkBlueprint (templateName blueprint)
                         (changesFromTemplate blueprint) true]> (blueprints st);
     registry := registry st;
     mapperObjects := mapperObjects st |}.

(** Modelled from the spec: [MapperBuilder.cpp] is not among the sources.
    [build(name)] fails if there is no such blueprint, if a mapper of the name
    already exists, or if a build of the blueprint was attempted before (which
    is how a cycle of templates shows).  Otherwise the blueprint is marked as
    attempted and its template is resolved: no template gives the all-absent
    table, a built mapper gives its table, another blueprint is built first,
    recursively, and anything else is a failure.  The overrides are applied to
    the table and a new mapper of the blueprint's name is constructed from it.
    [fuel] bounds the depth of the recursion; the result is [None] only when
    it runs out. *)
Fixpoint BuildFrom (fuel : nat) (mapperName : string) (st : BuilderState)
    : option (option MapperPtr * BuilderState) :=
  match fuel with
  | O => None
  | S fuel =>
      match blueprints st !! mapperName with
      | None => Some (None, st)
      | Some blueprint =>
          if IsMapperNameKnown mapperName st then Some (None, st)
          else if buildAttempted blueprint then Some (None, st)
          else
            let st := MarkBuildAttempted mapperName blueprint st in
            let finish (base : UElementMap) (st : BuilderState) :=
              let '(this, st) :=
                NewMapper mapperName
                  (ApplyChanges (changesFromTemplate blueprint) base) st in
              Some (Some this, st) in
            let fromMapper (st : BuilderState) :=
              match knownMappers (registry st) !! templateName blueprint with
              | Some templateMapper =>
                  match mapperObjects st !! templateMapper with
                  | Some base => finish base st
                  | None => Some (None, st)
                  end
              | None => Some (None, st)
              end in
            if wstring_empty (templateName blueprint)
            then finish UElementMap_empty st
            else if IsMapperNameKnown (templateName blueprint) st
            then fromMapper st
            else
              match blueprints st !! templateName blueprint with
              | Some _ =>
                  match BuildFrom fuel (templateName blueprint) st with
                  | None => None
                  | Some (None, st) => Some (None, st)
                  | Some (Some _, st) => fromMapper st
                  end
              | None => Some (None, st)
              end
      end
  end.

(** [MapperBuilder::Build(mapperName)]: no chain of templates is longer than
    the number of blueprints. *)
Definition Build (mapperName : string) (st : BuilderState)
    : option (option MapperPtr * BuilderState) :=
  BuildFrom (S (size (blueprints st))) mapperName st.

(** The blueprints on which no build has been attempted yet. *)
Definition Unattempted (bps : gmap string SBlueprint) : gmap string SBlueprint :=
  filter (fun kv => buildAttempted kv.2 = false) bps.

(** ** Choice of a coordinate system (VirtualDirectInputEffect.cpp) *)

(** [DIEFF_CARTESIAN], [DIEFF_POLAR] and [DIEFF_SPHERICAL] (dinput.h). *)
Definition DIEFF_CARTESIAN : Z := 0x10.
Definition DIEFF_POLAR : Z := 0x20.
Definition DIEFF_SPHERICAL : Z := 0x40.

(** Modelled from the spec: [ForceFeedback::ECoordinateSystem] is declared in
    a header that is not among the sources; its enumerators are the three the
    [switch] of [PickCoordinateSystem] names. *)
Inductive ECoordinateSystem : Type :=
| ECoordinateSystem_Cartesian
| ECoordinateSystem_Polar
| ECoordinateSystem_Spherical.

(** [PickCoordinateSystem], for a direction vector of which
    [GetNumAxes()] is [numAxes] and [GetOriginalCoordinateSystem()] is
    [originalCoordinateSystem]. *)
Definition PickCoordinateSystem (numAxes : Z)
    (originalCoordinateSystem : ECoordinateSystem) (dwFlags : Z)
    : option ECoordinateSystem :=
  let rejected :=
    if 1 =? numAxes
    then 0 =? Z.land dwFlags DIEFF_CARTESIAN
    else if negb (2 =? numAxes)
    then DIEFF_POLAR
         =? Z.land dwFlags (Z.lor (Z.lor DIEFF_CARTESIAN DIEFF_POLAR) DIEFF_SPHERICAL)
    else false in
  if rejected then None
  else
    let original :=
      match originalCoordinateSystem with
      | ECoordinateSystem_Cartesian =>
          if negb (0 =? Z.land dwFlags DIEFF_CARTESIAN)
          then Some ECoordinateSystem_Cartesian else None
      | ECoordinateSystem_Polar =>
          if negb (0 =? Z.land dwFlags DIEFF_POLAR)
          then Some ECoordinateSystem_Polar else None
      | ECoordinateSystem_Spherical =>
          if negb (0 =? Z.land dwFlags DIEFF_SPHERICAL)
          then Some ECoordinateSystem_Spherical else None
      end in
    match original with
    | Some coordinateSystem => Some coordinateSystem
    | None =>
        if negb (0 =? Z.land dwFlags DIEFF_SPHERICAL)
        then Some ECoordinateSystem_Spherical
        else if negb (0 =? Z.land dwFlags DIEFF_POLAR)
        then Some ECoordinateSystem_Polar
        else if negb (0 =? Z.land dwFlags DIEFF_CARTESIAN)
        then Some ECoordinateSystem_Cartesian
        else None
    end.

(** ** Descriptions used to state the properties *)

(** The mapper a configuration setting names: [nullptr] when the setting is
    absent or when no mapper is registered under the name it gives. *)
Definition ResolveSetting (r : MapperRegistry) (setting : option string)
    : option MapperPtr :=
  match setting with
  | Some mapperName => GetByName mapperName r
  | None => None
  end.

(** The type setting of controller [i], if the configuration has one. *)
Definition ControllerSetting (env : MapperEnvironment) (i : Z) : option string :=
  match env_configData env with
  | Some mapperConfigData => settingMapperTypeForController mapperConfigData i
  | None => None
  end.

(** The controller-independent type setting, if the configuration has one. *)
Definition ControllerIndependentSetting (env : MapperEnvironment) : option string :=
  match env_configData env with
  | Some mapperConfigData => settingMapperType mapperConfigData
  | None => None
  end.

(** The first pointer of a list of candidates that is not [nullptr]. *)
Fixpoint FirstNonNull (candidates : list (option MapperPtr)) : option MapperPtr :=
  match candidates with
  | [] => None
  | Some m :: _ => Some m
  | None :: rest => FirstNonNull rest
  end.

(** Saturation into the closed range of the virtual controller. *)
Definition Saturate (v : Z) : Z := Z.max (-32767) (Z.min 32767 v).

(** What the spec says a stick element mapper is handed: the saturated
    reading for the horizontal sticks, its negation for the vertical ones. *)
Definition Spec_StickReading (physicalState : XINPUT_GAMEPAD)
    (e : EPhysicalElement) : option Z :=
  match e with
  | stickLeftX => Some (Saturate (sThumbLX physicalState))
  | stickLeftY => Some (- Saturate (sThumbLY physicalState))
  | stickRightX => Some (Saturate (sThumbRX physicalState))
  | stickRightY => Some (- Saturate (sThumbRY physicalState))
  | _ => None
  end.

(** An element mapper for examples: it adds the analog reading it is handed
    to axis [a] and contributes nothing else. *)
Definition ProbeMapper (a : EAxis) : IElementMapper :=
  {| ContributeFromAnalogValue := fun st v =>
       {| axis := vinsert (EAxis_index a) (axis st !!! EAxis_index a + v) (axis st);
          button := button st; povDirection := povDirection st |};
     ContributeFromButtonValue := fun st _ => st;
     ContributeFromTriggerValue := fun st _ => st;
     GetTargetElementCount := 1;
     GetTargetElementAt := fun j => if j =? 0 then Some (Element_Axis (EAxis_ordinal a)) else None;
     ContributeNeutral := fun st => st |}.

(** The table with mapper [m] on the stick element [e] and nothing else; for
    an element that is not a stick the table is empty. *)
Definition UElementMap_single (e : EPhysicalElement) (m : IElementMapper)
    : UElementMap :=
  fun e' =>
    match e, e' with
    | stickLeftX, stickLeftX | stickLeftY, stickLeftY
    | stickRightX, stickRightX | stickRightY, stickRightY => Some m
    | _, _ => None
    end.

(** The results of [GetTargetElementAt(0)] ... [GetTargetElementAt(count - 1)]
    in the order in which the inner loop of the derivation obtains them. *)
Definition TargetElements (element : option IElementMapper)
    : list (option SElementIdentifier) :=
  match element with
  | None => []
  | Some m => GetTargetElementAt m <$> seqZ 0 (GetTargetElementCount m)
  end.

(** Some element mapper of the table has [t] among its target elements. *)
Definition Targets (elements : UElementMap) (t : SElementIdentifier) : Prop :=
  exists e m j,
    elements e = Some m
    /\ 0 <= j < GetTargetElementCount m
    /\ GetTargetElementAt m j = Some t.

(** The actuator is present and bound to axis [a]. *)
Definition ActuatorBinds (actuator : SActuatorElement) (a : EAxis) : Prop :=
  isPresent actuator = true
  /\ match mode actuator with
     | SingleAxis a1 _ => a1 = a
     | MagnitudeProjection a1 a2 => a1 = a \/ a2 = a
     | ActuatorMode_Count => False
     end.

(** Some actuator of the table is bound to axis [a]. *)
Definition Binds (forceFeedbackActuators : UForceFeedbackActuatorMap)
    (a : EAxis) : Prop :=
  exists actuator,
    actuator ∈ UForceFeedbackActuatorMap_all forceFeedbackActuators
    /\ ActuatorBinds actuator a.

(** Two tables assign mappers to the same elements, and the mappers of an
    element report the same target elements. *)
Definition SameTargets (elements1 elements2 : UElementMap) : Prop :=
  forall e,
    match elements1 e, elements2 e with
    | None, None => True
    | Some m1, Some m2 =>
        GetTargetElementCount m1 = GetTargetElementCount m2
        /\ (forall j, 0 <= j < GetTargetElementCount m1 ->
              GetTargetElementAt m1 j = GetTargetElementAt m2 j)
    | _, _ => False
    end.

(** What the spec says of the output for one actuator: zero when the
    actuator is unassigned, when the component of a single-axis actuator is
    exactly zero, or when its sign does not match the polarity the actuator is
    restricted to; otherwise the scaled raw component, or the scaled
    Euclidean norm of the two components of a magnitude projection. *)
Definition Spec_ActuatorOutput `{EffectArithmetic}
    (virtualEffectComponents : TOrderedMagnitudeComponents) (gain : TEffectValue)
    (actuatorElement : SActuatorElement) (output : Z) : Prop :=
  (isPresent actuatorElement = false -> output = 0)
  /\ (forall a direction,
        isPresent actuatorElement = true ->
        mode actuatorElement = SingleAxis a direction ->
        let component := virtualEffectComponents !!! EAxis_index a in
        (ev_eqb kEffectForceMagnitudeZero component = true -> output = 0)
        /\ (direction = EAxisDirection_Positive ->
            ev_signbit component = true -> output = 0)
        /\ (direction = EAxisDirection_Negative ->
            ev_signbit component = false -> output = 0)
        /\ (ev_eqb kEffectForceMagnitudeZero component = false ->
            direction = EAxisDirection_Both
            \/ (direction = EAxisDirection_Positive
                /\ ev_signbit component = false)
            \/ (direction = EAxisDirection_Negative
                /\ ev_signbit component = true) ->
            output = PhysicalActuatorStrength component gain))
  /\ (forall axisFirst axisSecond,
        isPresent actuatorElement = true ->
        mode actuatorElement = MagnitudeProjection axisFirst axisSecond ->
        output
        = PhysicalActuatorStrength
            (ev_of_wide
               (wide_sqrt
                  (wide_add
                     (ev_pow2 (virtualEffectComponents !!! EAxis_index axisFirst))
                     (ev_pow2 (virtualEffectComponents !!! EAxis_index axisSecond)))))
            gain).

(** The capabilities objects the methods are defined on: the array has its
    six entries and [numAxes] does not exceed them. *)
Definition SCapabilities_wf (capabilities : SCapabilities) : Prop :=
  length (axisCapabilities capabilities) = 6%nat
  /\ 0 <= numAxes capabilities <= 6.

(** The axis type stored at index [i] of the valid entries. *)
Definition AxisTypeAt (capabilities : SCapabilities) (i : Z) : option Z :=
  if (0 <=? i) && (i <? numAxes capabilities)
  then type <$> axisCapabilities capabilities !! Z.to_nat i
  else None.

(** The reading that [MapStatePhysicalToVirtual] hands to the mapper of
    element [e]. *)
Definition ReadingOf (physicalState : XINPUT_GAMEPAD) (e : EPhysicalElement)
    : option TPhysicalReading :=
  (PhysicalReadings physicalState).*2 !! EPhysicalElement_index e.

(** The bits of [wButtons] that XInput assigns to a button. *)
Definition XINPUT_GAMEPAD_AllButtons : Z := 0xF3FF.

(** The flag that allows a coordinate system. *)
Definition CoordinateSystemFlag (coordinateSystem : ECoordinateSystem) : Z :=
  match coordinateSystem with
  | ECoordinateSystem_Cartesian => DIEFF_CARTESIAN
  | ECoordinateSystem_Polar => DIEFF_POLAR
  | ECoordinateSystem_Spherical => DIEFF_SPHERICAL
  end.

(** The flags allow the coordinate system. *)
Definition CoordinateSystemAllowed (dwFlags : Z)
    (coordinateSystem : ECoordinateSystem) : Prop :=
  Z.land dwFlags (CoordinateSystemFlag coordinateSystem) <> 0.

(** The controller state once every element mapper has contributed, before
    the final loop of [MapStatePhysicalToVirtual]. *)
Definition ContributedState (elements : UElementMap)
    (physicalState : XINPUT_GAMEPAD) : SState :=
  foldl (ContributeFrom elements) SState_zero (PhysicalReadings physicalState).

(** The table with mapper [m] on both horizontal sticks and nothing else. *)
Definition UElementMap_horizontalSticks (m : IElementMapper) : UElementMap :=
  fun e =>
    match e with
    | stickLeftX | stickRightX => Some m
    | _ => None
    end.

(* ===================================================================== *)
(** * Part II: properties *)
(* ===================================================================== *)

(** ** The registry *)

Lemma wstring_empty_true (s : string) : wstring_empty s = true <-> s = "".
Proof. destruct s; simpl; split; congruence. Qed.

Lemma wstring_empty_false (s : string) : wstring_empty s = false <-> s <> "".
Proof. destruct s; simpl; split; congruence. Qed.

Lemma RegisterMapper_NoEmptyKey name object r :
  NoEmptyKey r -> NoEmptyKey (RegisterMapper name object r).
Proof.
  unfold NoEmptyKey, RegisterMapper. intros Hr.
  destruct (wstring_empty name) eqn:He; [exact Hr|]. simpl.
  apply wstring_empty_false in He.
  rewrite lookup_insert_ne; auto.
Qed.

Lemma UnregisterMapper_NoEmptyKey name object r :
  NoEmptyKey r -> NoEmptyKey (UnregisterMapper name object r).
Proof.
  unfold NoEmptyKey, UnregisterMapper. intros Hr.
  destruct (wstring_empty name) eqn:He; [exact Hr|].
  destruct (knownMappers r !! name) as [registered|]; [|exact Hr].
  destruct (negb (Pos.eqb object registered)); [exact Hr|]. simpl.
  apply wstring_empty_false in He.
  rewrite lookup_delete_ne; auto.
Qed.

Lemma Reachable_NoEmptyKey r : Reachable r -> NoEmptyKey r.
Proof.
  induction 1 as [|name this r _ IH|name this r _ IH].
  - reflexivity.
  - unfold Mapper_construct. destruct (negb (wstring_empty name)); [|exact IH].
    by apply RegisterMapper_NoEmptyKey.
  - unfold Mapper_destroy. destruct (negb (wstring_empty name)); [|exact IH].
    by apply UnregisterMapper_NoEmptyKey.
Qed.

(** Once a default is designated, constructions never change it. *)
Lemma ConstructAll_defaultMapper ms r :
  wstring_empty (defaultMapper r) = false ->
  defaultMapper (ConstructAll ms r) = defaultMapper r.
Proof.
  revert r. induction ms as [|[n p] ms IH]; intros r Hd; [reflexivity|].
  unfold ConstructAll in *. simpl.
  assert (Hstep : defaultMapper (Mapper_construct n p r) = defaultMapper r).
  { unfold Mapper_construct, RegisterMapper.
    destruct (wstring_empty n); simpl; [reflexivity|]. by rewrite Hd. }
  rewrite IH; rewrite Hstep; auto.
Qed.

(** Constructions under other names leave the entry of a name alone. *)
Lemma ConstructAll_lookup_other ms r name :
  Forall (fun m => m.1 <> name) ms ->
  knownMappers (ConstructAll ms r) !! name = knownMappers r !! name.
Proof.
  revert r. induction ms as [|[n p] ms IH]; intros r Hms; [reflexivity|].
  apply Forall_cons in Hms as [Hn Hms]. simpl in Hn.
  unfold ConstructAll in *. simpl. rewrite IH by exact Hms.
  unfold Mapper_construct, RegisterMapper.
  destruct (wstring_empty n); simpl; [reflexivity|].
  by rewrite lookup_insert_ne.
Qed.

Lemma Mapper_construct_GetByName name this r :
  wstring_empty name = false ->
  GetByName name (Mapper_construct name this r) = Some this.
Proof.
  intros He. unfold GetByName, GetMapper, Mapper_construct, RegisterMapper.
  rewrite He. simpl. apply lookup_insert_eq.
Qed.

(** C8, as stated, fails: a second mapper constructed under the name of the
    first one replaces it in the registry, and the lookup of the empty name
    then returns the second mapper, not the first one registered. *)
Lemma first_registered_default_counterexample :
  ~ (forall (first : string * MapperPtr) (rest : list (string * MapperPtr)),
       Forall (fun m => wstring_empty m.1 = false) (first :: rest) ->
       GetMapper "" (ConstructAll (first :: rest) EmptyRegistry) = Some first.2).
Proof.
  intros H.
  specialize (H ("A", 1%positive) [("A", 2%positive)]).
  assert (Hnamed : Forall (fun m : string * MapperPtr => wstring_empty m.1 = false)
                     [("A", 1%positive); ("A", 2%positive)]).
  { repeat constructor. }
  specialize (H Hnamed). vm_compute in H. discriminate H.
Qed.

(** C8 (amended): from the empty registry, after constructing a named mapper
    and then any further mappers none of which reuses its name, the lookup of
    the empty name returns that first mapper; and the construction of a named
    mapper registers it under its name. *)
Theorem first_registered_default (name : string) (this : MapperPtr)
    (rest : list (string * MapperPtr)) :
  wstring_empty name = false ->
  Forall (fun m => m.1 <> name) rest ->
  GetMapper "" (ConstructAll ((name, this) :: rest) EmptyRegistry) = Some this
  /\ (forall r n p, wstring_empty n = false ->
        GetByName n (Mapper_construct n p r) = Some p).
Proof.
  intros Hname Hrest. split.
  - unfold GetMapper. simpl wstring_empty. cbv iota.
    change (ConstructAll ((name, this) :: rest) EmptyRegistry)
      with (ConstructAll rest (Mapper_construct name this EmptyRegistry)).
    assert (Hfirst : Mapper_construct name this EmptyRegistry
                     = {| knownMappers := <[name := this]> ∅; defaultMapper := name |}).
    { unfold Mapper_construct, RegisterMapper. by rewrite Hname. }
    rewrite Hfirst.
    rewrite ConstructAll_defaultMapper by exact Hname. simpl.
    rewrite ConstructAll_lookup_other by exact Hrest. simpl.
    apply lookup_insert_eq.
  - intros r n p Hn. by apply Mapper_construct_GetByName.
Qed.

Lemma first_registered_default_witness :
  GetMapper "" (ConstructAll [("A", 1%positive); ("B", 2%positive); ("C", 3%positive)]
                  EmptyRegistry) = Some 1%positive.
Proof.
  refine (proj1 (first_registered_default "A" 1%positive
                   [("B", 2%positive); ("C", 3%positive)] eq_refl _)).
  repeat constructor; simpl; discriminate.
Defined.

(** C10: when the mapper that is the registry default is destroyed, the
    default designation is cleared and not handed to another mapper: the
    lookup of the empty name returns [nullptr], while every other mapper stays
    registered. *)
Theorem destroy_default_clears_designation (r : MapperRegistry) (name : string)
    (this : MapperPtr) :
  Reachable r ->
  wstring_empty name = false ->
  defaultMapper r = name ->
  knownMappers r !! name = Some this ->
  let r' := Mapper_destroy name this r in
  GetMapper "" r' = None
  /\ defaultMapper r' = ""
  /\ (forall other, other <> name ->
        knownMappers r' !! other = knownMappers r !! other).
Proof.
  intros Hreach Hname Hdefault Hknown r'.
  assert (Hr' : r' = {| knownMappers := delete name (knownMappers r);
                        defaultMapper := "" |}).
  { unfold r', Mapper_destroy, UnregisterMapper.
    rewrite Hname, Hknown. simpl. rewrite Pos.eqb_refl. simpl.
    rewrite Hdefault, String.eqb_refl. reflexivity. }
  rewrite Hr'. unfold GetMapper. simpl. repeat split.
  - apply wstring_empty_false in Hname.
    rewrite lookup_delete_ne by auto.
    by apply Reachable_NoEmptyKey.
  - intros other Hother. by rewrite lookup_delete_ne.
Qed.

Lemma destroy_default_clears_designation_witness :
  let r := ConstructAll [("A", 1%positive); ("B", 2%positive)] EmptyRegistry in
  GetMapper "" r = Some 1%positive
  /\ GetMapper "" (Mapper_destroy "A" 1%positive r) = None
  /\ GetMapper "B" (Mapper_destroy "A" 1%positive r) = Some 2%positive.
Proof.
  intros r.
  assert (Hreach : Reachable r).
  { exact (Reachable_construct "B" 2%positive _
             (Reachable_construct "A" 1%positive _ Reachable_empty)). }
  pose proof (destroy_default_clears_designation r "A" 1%positive Hreach
                eq_refl eq_refl eq_refl) as [Hnone _].
  split; [reflexivity|]. split; [exact Hnone|reflexivity].
Defined.

(** ** Mapper::GetConfigured *)

Lemma InitConfiguredMappers_lookup (env : MapperEnvironment) (i : Z) :
  0 <= i < kPhysicalControllerCount ->
  InitConfiguredMappers env !! Z.to_nat i
  = Some (FirstNonNull
            [ResolveSetting (env_registry env) (ControllerSetting env i);
             ResolveSetting (env_registry env) (ControllerIndependentSetting env);
             GetDefault (env_registry env);
             GetNull env]).
Proof.
  intros Hi. unfold InitConfiguredMappers, ControllerSetting,
    ControllerIndependentSetting, ResolveSetting.
  destruct (env_configData env) as [cfg|].
  - rewrite list_lookup_fmap, lookup_seqZ_lt by (unfold kPhysicalControllerCount in *; lia).
    rewrite Z2Nat.id by lia. replace (0 + i) with i by lia. simpl.
    destruct (settingMapperTypeForController cfg i) as [n|]; simpl.
    + destruct (GetByName n (env_registry env)); [reflexivity|].
      destruct (settingMapperType cfg) as [t|]; simpl.
      * destruct (GetByName t (env_registry env)); [reflexivity|].
        destruct (GetDefault (env_registry env)); reflexivity.
      * destruct (GetDefault (env_registry env)); reflexivity.
    + destruct (settingMapperType cfg) as [t|]; simpl.
      * destruct (GetByName t (env_registry env)); [reflexivity|].
        destruct (GetDefault (env_registry env)); reflexivity.
      * destruct (GetDefault (env_registry env)); reflexivity.
  - rewrite list_lookup_fmap, lookup_seqZ_lt by (unfold kPhysicalControllerCount in *; lia).
    simpl. destruct (GetDefault (env_registry env)); reflexivity.
Qed.

Lemma FirstNonNull_GetNull (env : MapperEnvironment) (cs : list (option MapperPtr)) :
  FirstNonNull (cs ++ [GetNull env]) <> None.
Proof. induction cs as [|[m|] cs IH]; simpl; congruence. Qed.

Lemma InitConfiguredMappers_nonnull (env : MapperEnvironment) (i : nat) :
  (i < 4)%nat -> exists m, InitConfiguredMappers env !! i = Some (Some m).
Proof.
  intros Hi.
  pose proof (InitConfiguredMappers_lookup env (Z.of_nat i)) as H.
  rewrite Nat2Z.id in H. unfold kPhysicalControllerCount in H.
  rewrite H by lia.
  pose proof (FirstNonNull_GetNull env
    [ResolveSetting (env_registry env) (ControllerSetting env (Z.of_nat i));
     ResolveSetting (env_registry env) (ControllerIndependentSetting env);
     GetDefault (env_registry env)]) as Hnn.
  simpl app in Hnn.
  destruct (FirstNonNull _) as [m|]; [by exists m|congruence].
Qed.

(** C9, as stated, fails: when the configuration has a controller-independent
    type setting that names a registered mapper, a controller without a
    setting of its own gets that mapper, not the registry default. *)
Lemma GetConfigured_fallback_counterexample :
  ~ (forall (env : MapperEnvironment) (i : Z),
       0 <= i < kPhysicalControllerCount ->
       ResolveSetting (env_registry env) (ControllerSetting env i) = None ->
       (GetConfigured env None i).1
       = FirstNonNull [GetDefault (env_registry env); GetNull env]).
Proof.
  intros H.
  specialize (H {| env_registry :=
                     ConstructAll [("A", 1%positive); ("B", 2%positive)] EmptyRegistry;
                   env_configData :=
                     Some {| settingMapperType := Some "B";
                             settingMapperTypeForController := fun _ => None |};
                   env_kNullMapper := 9%positive |} 0).
  assert (H0 : 0 <= 0 < kPhysicalControllerCount) by (unfold kPhysicalControllerCount; lia).
  specialize (H H0 eq_refl). vm_compute in H. discriminate H.
Qed.

(** C9 (amended): for a controller slot, [GetConfigured] returns the mapper
    named by the slot's own setting when it resolves; otherwise the mapper
    named by the controller-independent setting when that resolves; otherwise
    the registry default; otherwise the null mapper.  Whatever the slot and
    whether or not the static array was filled by an earlier call, the result
    is never [nullptr]. *)
Theorem GetConfigured_fallback_chain (env : MapperEnvironment) (i : Z) :
  (0 <= i < kPhysicalControllerCount ->
   (GetConfigured env None i).1
   = FirstNonNull
       [ResolveSetting (env_registry env) (ControllerSetting env i);
        ResolveSetting (env_registry env) (ControllerIndependentSetting env);
        GetDefault (env_registry env);
        GetNull env])
  /\ (GetConfigured env None i).1 <> None
  /\ (forall env0, (GetConfigured env (Some (InitConfiguredMappers env0)) i).1 <> None).
Proof.
  assert (Hany : forall env0,
            (if i >=? kPhysicalControllerCount then GetNull env
             else default None (InitConfiguredMappers env0 !! Z.to_nat i)) <> None).
  { intros env0. destruct (i >=? kPhysicalControllerCount) eqn:Hge; [discriminate|].
    unfold kPhysicalControllerCount in Hge.
    destruct (InitConfiguredMappers_nonnull env0 (Z.to_nat i)) as [m Hm]; [lia|].
    rewrite Hm. discriminate. }
  repeat split.
  - intros Hi. unfold GetConfigured.
    destruct (i >=? kPhysicalControllerCount) eqn:Hge; [lia|]. simpl.
    by rewrite InitConfiguredMappers_lookup.
  - specialize (Hany env). unfold GetConfigured.
    destruct (i >=? kPhysicalControllerCount); exact Hany.
  - intros env0. specialize (Hany env0). unfold GetConfigured.
    destruct (i >=? kPhysicalControllerCount); exact Hany.
Qed.

Lemma GetConfigured_fallback_chain_witness :
  let env := {| env_registry :=
                  ConstructAll [("A", 1%positive); ("B", 2%positive)] EmptyRegistry;
                env_configData :=
                  Some {| settingMapperType := Some "B";
                          settingMapperTypeForController :=
                            fun i => if i =? 1 then Some "A" else None |};
                env_kNullMapper := 9%positive |} in
  (GetConfigured env None 0).1 = Some 2%positive
  /\ (GetConfigured env None 1).1 = Some 1%positive.
Proof.
  intros env. split.
  - refine (eq_trans (proj1 (GetConfigured_fallback_chain env 0) _) _);
      [unfold kPhysicalControllerCount; lia | reflexivity].
  - refine (eq_trans (proj1 (GetConfigured_fallback_chain env 1) _) _);
      [unfold kPhysicalControllerCount; lia | reflexivity].
Defined.

(** ** Mapper::MapStatePhysicalToVirtual *)

Lemma SaturateAxisValue_range (v : Z) : -32767 <= SaturateAxisValue v <= 32767.
Proof.
  unfold SaturateAxisValue, kAnalogValueMin, kAnalogValueMax.
  repeat match goal with
         | |- context [?a >? ?b] => destruct (Z.gtb_spec a b)
         | |- context [?a <? ?b] => destruct (Z.ltb_spec a b)
         end; lia.
Qed.

(** Two sticks at full deflection mapped onto the same axis: the sum computed
    in the working range is 65534, the state returned holds 32767; and the
    extreme reading -32768 of both sticks comes out as -32767. *)
Example MapStatePhysicalToVirtual_saturates :
  let elements : UElementMap := fun e =>
    match e with
    | stickLeftX | stickRightX => Some (ProbeMapper EAxis_X)
    | _ => None
    end in
  axis (MapStatePhysicalToVirtual elements (mkGamepad 0 0 0 32767 0 32767 0))
    !!! EAxis_index EAxis_X = 32767
  /\ axis (MapStatePhysicalToVirtual elements (mkGamepad 0 0 0 (-32768) 0 (-32768) 0))
    !!! EAxis_index EAxis_X = -32767.
Proof. split; reflexivity. Qed.

Lemma FilterAnalogStickValue_Saturate (v : Z) : FilterAnalogStickValue v = Saturate v.
Proof.
  unfold FilterAnalogStickValue, Saturate, kAnalogValueMin, kAnalogValueMax.
  repeat match goal with
         | |- context [?a >? ?b] => destruct (Z.gtb_spec a b)
         | |- context [?a <? ?b] => destruct (Z.ltb_spec a b)
         end; lia.
Qed.

Lemma Saturate_range (v : Z) : -32767 <= Saturate v <= 32767.
Proof. unfold Saturate. lia. Qed.

Lemma FilterAndInvertAnalogStickValue_Saturate (v : Z) :
  FilterAndInvertAnalogStickValue v = - Saturate v.
Proof.
  unfold FilterAndInvertAnalogStickValue, wrap_signed.
  rewrite FilterAnalogStickValue_Saturate.
  pose proof (Saturate_range v) as Hr.
  change (2 ^ (16 - 1)) with 32768. change (2 ^ 16) with 65536.
  rewrite Z.mod_small by lia. lia.
Qed.

Lemma ContributeFrom_absent (elements : UElementMap) (controllerState : SState)
    (call : EPhysicalElement * TPhysicalReading) :
  elements call.1 = None -> ContributeFrom elements controllerState call = controllerState.
Proof. intros Habsent. unfold ContributeFrom. by rewrite Habsent. Qed.

Lemma SaturateAxisValue_Saturate (v : Z) : SaturateAxisValue v = Saturate v.
Proof.
  unfold SaturateAxisValue, Saturate, kAnalogValueMin, kAnalogValueMax.
  repeat match goal with
         | |- context [?a >? ?b] => destruct (Z.gtb_spec a b)
         | |- context [?a <? ?b] => destruct (Z.ltb_spec a b)
         end; lia.
Qed.

(** C1: whatever the element mappers do and whatever the physical reading is,
    each of the six axis values of the state returned by
    [MapStatePhysicalToVirtual] is the value the element mappers have
    contributed to that axis, saturated: it lies in [-32767, 32767], it is
    32767 when the contributed value is above the range and -32767 when it is
    below, and it is the contributed value itself when that is in the range;
    buttons and POV are returned as contributed.  In particular, when both
    horizontal sticks add their reading to the same axis, the axis holds the
    saturated sum of the two saturated readings, and the other axes hold 0. *)
Theorem MapStatePhysicalToVirtual_axis_saturation (elements : UElementMap)
    (physicalState : XINPUT_GAMEPAD) :
  let contributed := ContributedState elements physicalState in
  let result := MapStatePhysicalToVirtual elements physicalState in
  (forall i : fin 6,
     -32767 <= axis result !!! i <= 32767
     /\ axis result !!! i = Saturate (axis contributed !!! i)
     /\ (32767 < axis contributed !!! i -> axis result !!! i = 32767)
     /\ (axis contributed !!! i < -32767 -> axis result !!! i = -32767)
     /\ (-32767 <= axis contributed !!! i <= 32767 ->
         axis result !!! i = axis contributed !!! i))
  /\ button result = button contributed
  /\ povDirection result = povDirection contributed
  /\ (forall a : EAxis,
        axis (MapStatePhysicalToVirtual
                (UElementMap_horizontalSticks (ProbeMapper a)) physicalState)
        = vinsert (EAxis_index a)
            (Saturate (Saturate (sThumbLX physicalState)
                       + Saturate (sThumbRX physicalState)))
            (vreplicate 6 0)).
Proof.
  intros contributed result.
  assert (Hresult : result
                    = {| axis := vmap SaturateAxisValue (axis contributed);
                         button := button contributed;
                         povDirection := povDirection contributed |})
    by (unfold result, contributed, MapStatePhysicalToVirtual, ContributedState;
        reflexivity).
  clearbody result contributed. subst result. cbn [axis button povDirection].
  split; [|split; [reflexivity|split; [reflexivity|]]].
  - intros i. rewrite vlookup_map, SaturateAxisValue_Saturate.
    unfold Saturate. lia.
  - intros a. unfold MapStatePhysicalToVirtual, PhysicalReadings.
    rewrite !FilterAnalogStickValue_Saturate.
    set (x := Saturate (sThumbLX physicalState)).
    set (y := Saturate (sThumbRX physicalState)).
    repeat match goal with
           | |- context [foldl ?f ?st (?call :: ?calls)] =>
               change (foldl f st (call :: calls)) with (foldl f (f st call) calls);
               first [ rewrite (ContributeFrom_absent _ st call) by reflexivity
                     | change (f st call)
                         with (ContributeFromAnalogValue (ProbeMapper a) st
                                 match call.2 with
                                 | AnalogValue v => v
                                 | _ => 0
                                 end) ]
           end.
    cbn [foldl snd].
    destruct a; cbn -[Z.add SaturateAxisValue Saturate];
      rewrite ?SaturateAxisValue_Saturate;
      change (Saturate 0) with 0; rewrite ?Z.add_0_l; reflexivity.
Qed.

(** C4: the reading [MapStatePhysicalToVirtual] hands to the element mapper of
    a stick is the physical reading saturated into [-32767, 32767], negated
    for the two vertical sticks (so that -32768 is handed over as +32767) and
    not negated for the two horizontal ones; it is the only reading that
    mapper is handed. *)
Theorem stick_readings_filtered (physicalState : XINPUT_GAMEPAD)
    (e : EPhysicalElement) (v : Z) :
  Spec_StickReading physicalState e = Some v ->
  -32767 <= v <= 32767
  /\ (forall r, (e, r) ∈ PhysicalReadings physicalState <-> r = AnalogValue v)
  /\ (forall m, MapStatePhysicalToVirtual (UElementMap_single e m) physicalState
                = let st := ContributeFromAnalogValue m SState_zero v in
                  {| axis := vmap SaturateAxisValue (axis st);
                     button := button st; povDirection := povDirection st |}).
Proof.
  intros Hspec.
  assert (Hv : -32767 <= v <= 32767).
  { destruct e; cbn [Spec_StickReading] in Hspec; try discriminate; injection Hspec as <-;
      match goal with |- context [Saturate ?x] => pose proof (Saturate_range x) end; lia. }
  split; [exact Hv|]. split.
  - intros r. unfold PhysicalReadings.
    rewrite !FilterAnalogStickValue_Saturate, !FilterAndInvertAnalogStickValue_Saturate.
    split.
    + intros Hin. repeat (apply elem_of_cons in Hin as [Heq|Hin];
        [injection Heq as He Hr; subst e; cbn [Spec_StickReading] in Hspec;
           first [discriminate | injection Hspec as <-; exact Hr]|]).
      by apply elem_of_nil in Hin.
    + intros ->.
      destruct e; cbn [Spec_StickReading] in Hspec; try discriminate; injection Hspec as <-;
        repeat first [apply list_elem_of_here | apply list_elem_of_further].
  - intros m. unfold MapStatePhysicalToVirtual, PhysicalReadings.
    rewrite !FilterAnalogStickValue_Saturate, !FilterAndInvertAnalogStickValue_Saturate.
    destruct e; cbn [Spec_StickReading] in Hspec; try discriminate; injection Hspec as <-; reflexivity.
Qed.

Lemma stick_readings_filtered_witness :
  (stickLeftY, AnalogValue 32767)
    ∈ PhysicalReadings (mkGamepad 0 0 0 (-32768) (-32768) 0 0)
  /\ (stickLeftX, AnalogValue (-32767))
    ∈ PhysicalReadings (mkGamepad 0 0 0 (-32768) (-32768) 0 0).
Proof.
  split.
  - exact (proj2 (proj1 (proj2 (stick_readings_filtered
             (mkGamepad 0 0 0 (-32768) (-32768) 0 0) stickLeftY 32767 eq_refl))
             (AnalogValue 32767)) eq_refl).
  - exact (proj2 (proj1 (proj2 (stick_readings_filtered
             (mkGamepad 0 0 0 (-32768) (-32768) 0 0) stickLeftX (-32767) eq_refl))
             (AnalogValue (-32767))) eq_refl).
Defined.

(** ** Sets of enumerators *)

Lemma testbit_1 (k : Z) : Z.testbit 1 k = (k =? 0).
Proof. destruct k as [|p|p]; [reflexivity| |reflexivity]. by destruct p. Qed.

Lemma BitSetEnum_contains_insert (s : BitSetEnum) (i j : Z) :
  0 <= j ->
  BitSetEnum_contains (BitSetEnum_insert s i) j
  = BitSetEnum_contains s j || (i =? j).
Proof.
  intros Hj. unfold BitSetEnum_contains, BitSetEnum_insert.
  rewrite Z.lor_spec, Z.shiftl_spec by exact Hj. rewrite testbit_1.
  f_equal. destruct (Z.eqb_spec (j - i) 0), (Z.eqb_spec i j); auto; lia.
Qed.

Lemma BitSetEnum_elements_spec (count : Z) (s : BitSetEnum) (i : Z) :
  i ∈ BitSetEnum_elements count s
  <-> BitSetEnum_contains s i = true /\ 0 <= i < count.
Proof.
  unfold BitSetEnum_elements. rewrite list_elem_of_filter, elem_of_seqZ.
  rewrite Is_true_true. intuition lia.
Qed.

Lemma StronglySorted_filter_lt (P : Z -> Prop) `{!forall x, Decision (P x)}
    (l : list Z) :
  StronglySorted Z.lt l -> StronglySorted Z.lt (filter P l).
Proof.
  induction 1 as [|x l Hl IH Hx]; [constructor|].
  rewrite filter_cons. destruct (decide (P x)); [|exact IH].
  constructor; [exact IH|].
  apply Forall_forall. intros y Hy. apply list_elem_of_filter in Hy as [_ Hy].
  by eapply Forall_forall in Hx.
Qed.

Lemma StronglySorted_seqZ (m n : Z) : StronglySorted Z.lt (seqZ m n).
Proof.
  destruct (Z.le_gt_cases n 0) as [Hn|Hn].
  - replace (seqZ m n) with (@nil Z); [constructor|].
    symmetry. apply length_zero_iff_nil. rewrite length_seqZ. lia.
  - rewrite <- (Z2Nat.id n) by lia. generalize (Z.to_nat n) as k. clear.
    intros k. revert m. induction k as [|k IH]; intros m; [constructor|].
    rewrite seqZ_cons by lia. constructor.
    + replace (Z.pred (Z.of_nat (S k))) with (Z.of_nat k) by lia. apply IH.
    + apply Forall_forall. intros y Hy. apply elem_of_seqZ in Hy. lia.
Qed.

Lemma BitSetEnum_elements_sorted (count : Z) (s : BitSetEnum) :
  StronglySorted Z.lt (BitSetEnum_elements count s).
Proof. apply StronglySorted_filter_lt, StronglySorted_seqZ. Qed.

Lemma BitSetEnum_elements_length (s : BitSetEnum) :
  (length (BitSetEnum_elements EAxis_Count s) <= 6)%nat.
Proof.
  unfold BitSetEnum_elements.
  etransitivity; [apply length_filter|]. by rewrite length_seqZ.
Qed.

(** ** DeriveCapabilitiesFromElementMap *)

Lemma foldl_ScanElementMapper (all : list (option IElementMapper))
    (vars : DeriveVars) :
  foldl ScanElementMapper vars all
  = foldl ScanTargetElement vars (all ≫= TargetElements).
Proof.
  revert vars. induction all as [|element all IH]; intros vars; [reflexivity|].
  cbn [foldl]. rewrite bind_cons, foldl_app, IH. f_equal.
  destruct element as [m|]; [|reflexivity].
  cbn [ScanElementMapper TargetElements]. by rewrite foldl_fmap.
Qed.

(** One pass through the body of the inner loop. *)
Ltac scan_cases :=
  repeat match goal with
         | |- context [?a >? ?b] => destruct (Z.gtb_spec a b)
         | |- context [?a <? ?b] => destruct (Z.ltb_spec a b)
         end; cbn.

Lemma ScanTargetElement_axesPresent (vars : DeriveVars)
    (t : option SElementIdentifier) (a : Z) :
  0 <= a ->
  BitSetEnum_contains (axesPresent (ScanTargetElement vars t)) a = true
  <-> BitSetEnum_contains (axesPresent vars) a = true
      \/ (a < EAxis_Count /\ t = Some (Element_Axis a)).
Proof.
  intros Ha. destruct t as [[a'|b'| |]|]; cbn [ScanTargetElement]; scan_cases;
    try (split; [tauto|intros [?|[_ ?]]; [done|congruence]]).
  rewrite BitSetEnum_contains_insert by done. rewrite orb_true_iff, Z.eqb_eq.
  - split; [intros [?|<-]; tauto|intros [?|[_ [= ->]]]; tauto].
  - split; [tauto|intros [?|[? [= ->]]]; [done|lia]].
Qed.

Lemma ScanTargetElement_axesForceFeedback (vars : DeriveVars)
    (t : option SElementIdentifier) :
  axesForceFeedback (ScanTargetElement vars t) = axesForceFeedback vars.
Proof. destruct t as [[a'|b'| |]|]; cbn [ScanTargetElement]; scan_cases; done. Qed.

Lemma ScanTargetElement_highestButtonSeen (vars : DeriveVars)
    (t : option SElementIdentifier) :
  let h := highestButtonSeen (ScanTargetElement vars t) in
  highestButtonSeen vars <= h
  /\ (forall b, b < EButton_Count -> t = Some (Element_Button b) -> b <= h)
  /\ (h = highestButtonSeen vars
      \/ (h < EButton_Count /\ t = Some (Element_Button h))).
Proof.
  destruct t as [[a'|b'| |]|]; cbn [ScanTargetElement]; scan_cases;
    (split; [lia|split; [intros b Hb [= <-]; lia|]]);
    first [left; reflexivity | right; split; [lia|reflexivity]].
Qed.

Lemma ScanTargetElement_povPresent (vars : DeriveVars)
    (t : option SElementIdentifier) :
  povPresent (ScanTargetElement vars t) = true
  <-> povPresent vars = true \/ t = Some Element_Pov.
Proof.
  destruct t as [[a'|b'| |]|]; cbn [ScanTargetElement]; scan_cases;
    split; try tauto; try (intros [?|?]; [done|congruence]).
Qed.

Lemma elem_of_snoc {A : Type} (l : list A) (t x : A) :
  x ∈ l ++ [t] <-> x ∈ l \/ t = x.
Proof. rewrite elem_of_app, list_elem_of_singleton. intuition congruence. Qed.

(** What the loop over the target elements has computed. *)
Lemma foldl_ScanTargetElement (l : list (option SElementIdentifier))
    (vars : DeriveVars) :
  let res := foldl ScanTargetElement vars l in
  (forall a, 0 <= a ->
     BitSetEnum_contains (axesPresent res) a = true
     <-> BitSetEnum_contains (axesPresent vars) a = true
         \/ (a < EAxis_Count /\ Some (Element_Axis a) ∈ l))
  /\ axesForceFeedback res = axesForceFeedback vars
  /\ highestButtonSeen vars <= highestButtonSeen res
  /\ (forall b, b < EButton_Count -> Some (Element_Button b) ∈ l ->
        b <= highestButtonSeen res)
  /\ (highestButtonSeen res = highestButtonSeen vars
      \/ (highestButtonSeen res < EButton_Count
          /\ Some (Element_Button (highestButtonSeen res)) ∈ l))
  /\ (povPresent res = true <-> povPresent vars = true \/ Some Element_Pov ∈ l).
Proof.
  induction l as [|t l IH] using rev_ind.
  - cbn. setoid_rewrite elem_of_nil. intuition lia.
  - rewrite foldl_app. cbn [foldl].
    set (mid := foldl ScanTargetElement vars l) in *.
    cbv zeta in IH. destruct IH as (IHa & IHf & IHle & IHb & IHh & IHp).
    cbv zeta. setoid_rewrite elem_of_snoc.
    pose proof (ScanTargetElement_highestButtonSeen mid t) as (Hle & Hb & Hh).
    split; [|split; [|split; [|split; [|split]]]].
    + intros a Ha. rewrite ScanTargetElement_axesPresent, IHa by done. tauto.
    + by rewrite ScanTargetElement_axesForceFeedback.
    + lia.
    + intros b Hlt [Hin|Heq]; [specialize (IHb b Hlt Hin); lia|by apply Hb].
    + destruct Hh as [Hh|[Hlt Hh]]; [|right; auto].
      rewrite Hh. destruct IHh as [?|[? ?]]; [by left|right; auto].
    + rewrite ScanTargetElement_povPresent, IHp. tauto.
Qed.

Lemma AllPhysicalElements_complete (e : EPhysicalElement) : e ∈ AllPhysicalElements.
Proof.
  unfold AllPhysicalElements.
  destruct e; repeat first [apply list_elem_of_here | apply list_elem_of_further].
Qed.

Lemma elem_of_TargetElements (elements : UElementMap) (t : SElementIdentifier) :
  Some t ∈ UElementMap_all elements ≫= TargetElements <-> Targets elements t.
Proof.
  unfold Targets, UElementMap_all. rewrite list_elem_of_bind. split.
  - intros (element & Ht & Hel).
    apply list_elem_of_fmap in Hel as (e & -> & _).
    destruct (elements e) as [m|] eqn:Hm; [|by apply elem_of_nil in Ht].
    cbn [TargetElements] in Ht.
    apply list_elem_of_fmap in Ht as (j & Hj & Hin).
    apply elem_of_seqZ in Hin. exists e, m, j. split; [done|]. split; [lia|done].
  - intros (e & m & j & Hm & Hj & Ht). exists (Some m). split.
    + cbn [TargetElements]. apply list_elem_of_fmap. exists j. split; [done|].
      apply elem_of_seqZ. lia.
    + rewrite <- Hm. apply list_elem_of_fmap_2, AllPhysicalElements_complete.
Qed.

Lemma ScanActuator_sets (vars : DeriveVars) (actuator : SActuatorElement) (j : Z) :
  0 <= j ->
  (BitSetEnum_contains (axesPresent (ScanActuator vars actuator)) j = true
   <-> BitSetEnum_contains (axesPresent vars) j = true
       \/ exists a, ActuatorBinds actuator a /\ EAxis_ordinal a = j)
  /\ (BitSetEnum_contains (axesForceFeedback (ScanActuator vars actuator)) j = true
      <-> BitSetEnum_contains (axesForceFeedback vars) j = true
          \/ exists a, ActuatorBinds actuator a /\ EAxis_ordinal a = j).
Proof.
  intros Hj. unfold ScanActuator, ActuatorBinds.
  destruct actuator as [present md]. cbn [isPresent mode].
  destruct present; [destruct md as [a1 d|a1 a2|]|]; cbn;
    rewrite ?BitSetEnum_contains_insert by done;
    rewrite ?orb_true_iff, ?Z.eqb_eq.
  - split; (split; [intros [?|<-]; [tauto|right; by exists a1]
                   |intros [?|(a & [_ ->] & <-)]; tauto]).
  - split; (split; [intros [[?|<-]|<-];
                      [tauto|right; exists a1; tauto|right; exists a2; tauto]
                   |intros [?|(a & [_ [->| ->]] & <-)]; tauto]).
  - split; (split; [tauto|intros [?|(a & [_ []] & _)]; done]).
  - split; (split; [tauto|intros [?|(a & [? _] & _)]; done]).
Qed.

Lemma ScanActuator_others (vars : DeriveVars) (actuator : SActuatorElement) :
  highestButtonSeen (ScanActuator vars actuator) = highestButtonSeen vars
  /\ povPresent (ScanActuator vars actuator) = povPresent vars.
Proof.
  unfold ScanActuator. destruct (isPresent actuator); [|done].
  by destruct (mode actuator).
Qed.

(** What the loop over the actuators has computed. *)
Lemma foldl_ScanActuator (l : list SActuatorElement) (vars : DeriveVars) :
  let res := foldl ScanActuator vars l in
  (forall j, 0 <= j ->
     (BitSetEnum_contains (axesPresent res) j = true
      <-> BitSetEnum_contains (axesPresent vars) j = true
          \/ exists actuator a,
               actuator ∈ l /\ ActuatorBinds actuator a /\ EAxis_ordinal a = j)
     /\ (BitSetEnum_contains (axesForceFeedback res) j = true
         <-> BitSetEnum_contains (axesForceFeedback vars) j = true
             \/ exists actuator a,
                  actuator ∈ l /\ ActuatorBinds actuator a /\ EAxis_ordinal a = j))
  /\ highestButtonSeen res = highestButtonSeen vars
  /\ povPresent res = povPresent vars.
Proof.
  induction l as [|actuator l IH] using rev_ind.
  - cbn. setoid_rewrite elem_of_nil. split; [|done].
    intros j _. split; (split; [tauto|intros [?|(? & ? & [] & _)]; done]).
  - rewrite foldl_app. cbn [foldl].
    set (mid := foldl ScanActuator vars l) in *.
    cbv zeta in IH. destruct IH as (IHs & IHh & IHp). cbv zeta.
    destruct (ScanActuator_others mid actuator) as [Hh Hp].
    split; [|split; congruence].
    intros j Hj. destruct (IHs j Hj) as [IH1 IH2].
    destruct (ScanActuator_sets mid actuator j Hj) as [H1 H2].
    rewrite H1, H2, IH1, IH2. setoid_rewrite elem_of_snoc.
    split; (split;
      [intros [[?|(x & a & ? & ? & ?)]|(a & ? & ?)];
         [tauto|right; exists x, a; tauto|right; exists actuator, a; tauto]
      |intros [?|(x & a & [?|<-] & ? & ?)];
         [tauto|left; right; exists x, a; tauto|right; exists a; tauto]]).
Qed.

Lemma AppendAxis_ok (capabilities : SCapabilities) (new : SAxisCapabilities) :
  length (axisCapabilities capabilities) = 6%nat ->
  0 <= numAxes capabilities < 6 ->
  exists capabilities',
    AppendAxis capabilities new = Some capabilities'
    /\ length (axisCapabilities capabilities') = 6%nat
    /\ numAxes capabilities' = numAxes capabilities + 1
    /\ PresentAxes capabilities' = PresentAxes capabilities ++ [new]
    /\ numButtons capabilities' = numButtons capabilities
    /\ hasPov capabilities' = hasPov capabilities.
Proof.
  intros Hlen Hn. unfold AppendAxis. rewrite Hlen.
  destruct (Z.ltb_spec (numAxes capabilities) (Z.of_nat 6)) as [_|Hge]; [|lia].
  eexists. split; [reflexivity|]. cbn.
  assert (Hwrap : wrap_unsigned 3 (numAxes capabilities + 1) = numAxes capabilities + 1).
  { unfold wrap_unsigned. change (2 ^ 3) with 8. apply Z.mod_small. lia. }
  rewrite Hwrap, length_insert.
  repeat split; try done.
  unfold PresentAxes. cbn.
  replace (Z.to_nat (numAxes capabilities + 1)) with (S (Z.to_nat (numAxes capabilities))) by lia.
  rewrite (take_S_r _ _ new) by (apply list_lookup_insert_eq; lia).
  by rewrite take_insert_ge.
Qed.

Lemma AppendAxes_ok (ff : BitSetEnum) (present : list Z)
    (capabilities : SCapabilities) :
  length (axisCapabilities capabilities) = 6%nat ->
  0 <= numAxes capabilities ->
  numAxes capabilities + Z.of_nat (length present) <= 6 ->
  exists capabilities',
    AppendAxes ff present capabilities = Some capabilities'
    /\ numAxes capabilities' = numAxes capabilities + Z.of_nat (length present)
    /\ PresentAxes capabilities'
       = PresentAxes capabilities
         ++ ((fun a => mkAxisCaps (wrap_unsigned 3 a) (BitSetEnum_contains ff a))
               <$> present).
Proof.
  revert capabilities.
  induction present as [|a present IH]; intros capabilities Hlen H0 Hfit.
  - exists capabilities. cbn. rewrite app_nil_r. split; [done|]. split; [lia|done].
  - cbn [length] in Hfit. cbn [AppendAxes].
    destruct (AppendAxis_ok capabilities
                (mkAxisCaps (wrap_unsigned 3 a) (BitSetEnum_contains ff a)) Hlen)
      as (c1 & -> & Hlen1 & Hn1 & Hp1 & _); [lia|].
    destruct (IH c1 Hlen1) as (c2 & -> & Hn2 & Hp2); [lia|lia|].
    exists c2. split; [done|]. split; [cbn [length]; lia|].
    rewrite Hp2, Hp1, <- app_assoc. done.
Qed.

Section Derivation.
Context `{MapperConstants}.

(** The capabilities are always derived, and are read off the variables
    the two loops have computed. *)
Lemma DeriveCapabilitiesFromElementMap_ok (elements : UElementMap)
    (forceFeedbackActuators : UForceFeedbackActuatorMap) :
  let vars := DeriveScan elements forceFeedbackActuators in
  exists capabilities,
    DeriveCapabilitiesFromElementMap elements forceFeedbackActuators
    = Some capabilities
    /\ PresentAxes capabilities
       = (fun a => mkAxisCaps a (BitSetEnum_contains (axesForceFeedback vars) a))
           <$> BitSetEnum_elements EAxis_Count (axesPresent vars)
    /\ numAxes capabilities
       = Z.of_nat (length (BitSetEnum_elements EAxis_Count (axesPresent vars)))
    /\ numButtons capabilities = wrap_unsigned 5 (highestButtonSeen vars + 1)
    /\ hasPov capabilities = povPresent vars.
Proof.
  intros vars. unfold DeriveCapabilitiesFromElementMap. fold vars.
  pose proof (BitSetEnum_elements_length (axesPresent vars)) as Hlen.
  destruct (AppendAxes_ok (axesForceFeedback vars)
              (BitSetEnum_elements EAxis_Count (axesPresent vars))
              SCapabilities_zero) as (c & -> & Hn & Hp);
    [done|done|change (numAxes SCapabilities_zero) with 0; lia|].
  eexists. split; [reflexivity|]. cbn [numAxes numButtons hasPov].
  split; [|split; [change (numAxes SCapabilities_zero) with 0 in Hn; lia|done]].
  change (PresentAxes c
          = (fun a => mkAxisCaps a (BitSetEnum_contains (axesForceFeedback vars) a))
              <$> BitSetEnum_elements EAxis_Count (axesPresent vars)).
  rewrite Hp. cbn [PresentAxes SCapabilities_zero numAxes take app].
  apply list_fmap_ext. intros i a Ha.
  apply list_elem_of_lookup_2, BitSetEnum_elements_spec in Ha as [_ Ha].
  unfold EAxis_Count in Ha. f_equal.
  unfold wrap_unsigned. change (2 ^ 3) with 8. apply Z.mod_small. lia.
Qed.

(** What the two loops have computed, in terms of the tables. *)
Lemma DeriveScan_spec (elements : UElementMap)
    (forceFeedbackActuators : UForceFeedbackActuatorMap) :
  let vars := DeriveScan elements forceFeedbackActuators in
  (forall a : EAxis,
     BitSetEnum_contains (axesPresent vars) (EAxis_ordinal a) = true
     <-> BitSetEnum_contains kRequiredAxes (EAxis_ordinal a) = true
         \/ Targets elements (Element_Axis (EAxis_ordinal a))
         \/ Binds forceFeedbackActuators a)
  /\ (forall a : EAxis,
        BitSetEnum_contains (axesForceFeedback vars) (EAxis_ordinal a) = true
        <-> BitSetEnum_contains kRequiredForceFeedbackAxes (EAxis_ordinal a) = true
            \/ Binds forceFeedbackActuators a)
  /\ kMinNumButtons - 1 <= highestButtonSeen vars
  /\ (forall b, b < EButton_Count -> Targets elements (Element_Button b) ->
        b <= highestButtonSeen vars)
  /\ (highestButtonSeen vars = kMinNumButtons - 1
      \/ (highestButtonSeen vars < EButton_Count
          /\ Targets elements (Element_Button (highestButtonSeen vars))))
  /\ (povPresent vars = true
      <-> kIsPovRequired = true \/ Targets elements Element_Pov).
Proof.
  intros vars. unfold vars, DeriveScan. rewrite foldl_ScanElementMapper.
  set (init := mkDeriveVars _ _ _ _).
  pose proof (foldl_ScanTargetElement
                (UElementMap_all elements ≫= TargetElements) init)
    as (Ea & Ef & Ele & Eb & Eh & Ep).
  set (mid := foldl ScanTargetElement init _) in *.
  pose proof (foldl_ScanActuator
                (UForceFeedbackActuatorMap_all forceFeedbackActuators) mid)
    as (As & Ah & Ap).
  set (res := foldl ScanActuator mid _) in *.
  setoid_rewrite elem_of_TargetElements in Ea.
  setoid_rewrite elem_of_TargetElements in Eb.
  rewrite elem_of_TargetElements in Eh, Ep.
  assert (Hord : forall a, 0 <= EAxis_ordinal a < EAxis_Count)
    by (intros []; cbn; unfold EAxis_Count; lia).
  assert (Hinj : forall a a', EAxis_ordinal a' = EAxis_ordinal a -> a' = a)
    by (intros [] []; cbn; congruence).
  assert (Hbinds : forall a,
            (exists actuator a',
               actuator ∈ UForceFeedbackActuatorMap_all forceFeedbackActuators
               /\ ActuatorBinds actuator a' /\ EAxis_ordinal a' = EAxis_ordinal a)
            <-> Binds forceFeedbackActuators a).
  { intros a. unfold Binds. split.
    - intros (x & a' & ? & ? & Heq). apply Hinj in Heq as ->. by exists x.
    - intros (x & ? & ?). by exists x, a. }
  rewrite Ah, Ap. repeat split; try done.
  - intros Hres. apply (As _ (proj1 (Hord a))) in Hres as [Hmid|Hb].
    + apply Ea in Hmid as [?|[_ ?]]; [tauto|tauto|apply Hord].
    + right. right. by apply Hbinds.
  - intros Hrhs. apply (As _ (proj1 (Hord a))).
    destruct Hrhs as [?|[?|?]].
    + left. apply Ea; [apply Hord|]. by left.
    + left. apply Ea; [apply Hord|]. right. split; [apply Hord|done].
    + right. by apply Hbinds.
  - intros Hres. apply (As _ (proj1 (Hord a))) in Hres as [Hmid|Hb].
    + left. by rewrite Ef in Hmid.
    + right. by apply Hbinds.
  - intros Hrhs. apply (As _ (proj1 (Hord a))).
    destruct Hrhs as [?|?]; [left; by rewrite Ef|right; by apply Hbinds].
  - apply Ep.
  - apply Ep.
Qed.

End Derivation.

Lemma TargetElements_SameTargets (elements1 elements2 : UElementMap) :
  SameTargets elements1 elements2 ->
  forall e, TargetElements (elements1 e) = TargetElements (elements2 e).
Proof.
  intros Hsame e. specialize (Hsame e).
  destruct (elements1 e) as [m1|], (elements2 e) as [m2|]; try done.
  destruct Hsame as [Hcount Hat]. cbn [TargetElements]. rewrite <- Hcount.
  apply list_fmap_ext. intros i j Hj.
  apply list_elem_of_lookup_2, elem_of_seqZ in Hj. apply Hat. lia.
Qed.

Lemma DeriveScan_SameTargets `{MapperConstants} (elements1 elements2 : UElementMap)
    (forceFeedbackActuators : UForceFeedbackActuatorMap) :
  SameTargets elements1 elements2 ->
  DeriveScan elements1 forceFeedbackActuators
  = DeriveScan elements2 forceFeedbackActuators.
Proof.
  intros Hsame. unfold DeriveScan. rewrite !foldl_ScanElementMapper.
  do 2 f_equal. unfold UElementMap_all.
  induction AllPhysicalElements as [|e l IH]; [reflexivity|].
  rewrite !fmap_cons, !bind_cons, IH.
  by rewrite (TargetElements_SameTargets _ _ Hsame e).
Qed.

Lemma DeriveScan_absent `{MapperConstants} (elements : UElementMap)
    (forceFeedbackActuators : UForceFeedbackActuatorMap) :
  (forall e, elements e = None) ->
  (forall actuator,
     actuator ∈ UForceFeedbackActuatorMap_all forceFeedbackActuators ->
     isPresent actuator = false) ->
  DeriveScan elements forceFeedbackActuators
  = {| axesPresent := kRequiredAxes;
       axesForceFeedback := kRequiredForceFeedbackAxes;
       highestButtonSeen := kMinNumButtons - 1;
       povPresent := kIsPovRequired |}.
Proof.
  intros Hnone Habsent. unfold DeriveScan, UElementMap_all.
  set (init := mkDeriveVars _ _ _ _).
  assert (Hel : forall l, foldl ScanElementMapper init (elements <$> l) = init).
  { induction l as [|e l IH]; [reflexivity|].
    rewrite fmap_cons. cbn [foldl]. rewrite Hnone. exact IH. }
  rewrite Hel.
  induction (UForceFeedbackActuatorMap_all forceFeedbackActuators)
    as [|actuator l IH] using rev_ind; [reflexivity|].
  rewrite foldl_app. cbn [foldl].
  rewrite IH by (intros x Hx; apply Habsent, elem_of_app; by left).
  unfold ScanActuator. rewrite Habsent; [done|].
  apply elem_of_app. right. by apply list_elem_of_singleton.
Qed.

Lemma wrap_unsigned_small (w v : Z) : 0 <= v < 2 ^ w -> wrap_unsigned w v = v.
Proof. intros Hv. unfold wrap_unsigned. by apply Z.mod_small. Qed.

(** C2: the derivation of capabilities always returns capabilities; it
    returns the same capabilities for tables that assign mappers with the
    same target elements to the same controller elements; and for the tables
    without any element mapper or present actuator it returns exactly what
    every controller is required to have. *)
Theorem DeriveCapabilities_total_deterministic `{MapperConstants} :
  0 <= kMinNumButtons < 32 ->
  (forall elements forceFeedbackActuators,
     exists capabilities,
       DeriveCapabilitiesFromElementMap elements forceFeedbackActuators
       = Some capabilities)
  /\ (forall elements1 elements2 forceFeedbackActuators,
        SameTargets elements1 elements2 ->
        DeriveCapabilitiesFromElementMap elements1 forceFeedbackActuators
        = DeriveCapabilitiesFromElementMap elements2 forceFeedbackActuators)
  /\ (forall elements forceFeedbackActuators,
        (forall e, elements e = None) ->
        (forall actuator,
           actuator ∈ UForceFeedbackActuatorMap_all forceFeedbackActuators ->
           isPresent actuator = false) ->
        exists capabilities,
          DeriveCapabilitiesFromElementMap elements forceFeedbackActuators
          = Some capabilities
          /\ PresentAxes capabilities
             = (fun a => mkAxisCaps a
                           (BitSetEnum_contains kRequiredForceFeedbackAxes a))
                 <$> BitSetEnum_elements EAxis_Count kRequiredAxes
          /\ numButtons capabilities = kMinNumButtons
          /\ hasPov capabilities = kIsPovRequired).
Proof.
  intros Hmin. split; [|split].
  - intros elements ffa.
    destruct (DeriveCapabilitiesFromElementMap_ok elements ffa) as (c & Hc & _).
    by exists c.
  - intros elements1 elements2 ffa Hsame.
    unfold DeriveCapabilitiesFromElementMap.
    by rewrite (DeriveScan_SameTargets _ _ ffa Hsame).
  - intros elements ffa Hnone Habsent.
    destruct (DeriveCapabilitiesFromElementMap_ok elements ffa)
      as (c & Hc & Haxes & _ & Hbuttons & Hpov).
    rewrite (DeriveScan_absent _ _ Hnone Habsent) in Haxes, Hbuttons, Hpov.
    cbn in Haxes, Hbuttons, Hpov.
    exists c. repeat split; try done.
    rewrite Hbuttons. replace (kMinNumButtons - 1 + 1) with kMinNumButtons by lia.
    apply wrap_unsigned_small. change (2 ^ 5) with 32. lia.
Qed.

(** C3, as stated, fails when force feedback is required of some axis: the
    axis is listed as supporting force feedback although no actuator is bound
    to it. *)
Lemma force_feedback_flag_counterexample :
  ~ (forall (constants : MapperConstants) elements forceFeedbackActuators
            capabilities entry,
       DeriveCapabilitiesFromElementMap elements forceFeedbackActuators
       = Some capabilities ->
       entry ∈ PresentAxes capabilities ->
       (supportsForceFeedback entry = true
        <-> exists a, type entry = EAxis_ordinal a
                      /\ Binds forceFeedbackActuators a)).
Proof.
  intros Hclaim.
  specialize (Hclaim (mkMapperConstants 3 3 2 false) UElementMap_empty
                UForceFeedbackActuatorMap_empty).
  specialize (Hclaim _ (mkAxisCaps 0 true) eq_refl).
  destruct Hclaim as [Hbound _]; [apply list_elem_of_here|].
  destruct (Hbound eq_refl) as (a & _ & actuator & Hin & Hpresent & _).
  unfold UForceFeedbackActuatorMap_all, UForceFeedbackActuatorMap_empty in Hin.
  cbn in Hin.
  repeat (apply elem_of_cons in Hin as [->|Hin]; [discriminate Hpresent|]).
  by apply elem_of_nil in Hin.
Qed.

(** C3 (amended): the derived capabilities list the present axes (those
    required, targeted by an element mapper or bound to an actuator) once each
    in ascending order of the axis enumeration; an axis is flagged for force
    feedback iff force feedback is required of it or an actuator is bound to
    it; the button count is one more than the highest button targeted, and at
    least the required minimum; the POV flag is set iff a POV is required or
    some element mapper targets a POV direction. *)
Theorem DeriveCapabilities_characterised `{MapperConstants}
    (elements : UElementMap) (forceFeedbackActuators : UForceFeedbackActuatorMap) :
  0 <= kMinNumButtons < 32 ->
  exists capabilities,
    DeriveCapabilitiesFromElementMap elements forceFeedbackActuators
    = Some capabilities
    /\ numAxes capabilities = Z.of_nat (length (PresentAxes capabilities))
    /\ StronglySorted Z.lt (type <$> PresentAxes capabilities)
    /\ (forall a : EAxis,
          EAxis_ordinal a ∈ type <$> PresentAxes capabilities
          <-> BitSetEnum_contains kRequiredAxes (EAxis_ordinal a) = true
              \/ Targets elements (Element_Axis (EAxis_ordinal a))
              \/ Binds forceFeedbackActuators a)
    /\ (forall entry, entry ∈ PresentAxes capabilities ->
          exists a : EAxis,
            type entry = EAxis_ordinal a
            /\ (supportsForceFeedback entry = true
                <-> BitSetEnum_contains kRequiredForceFeedbackAxes
                      (EAxis_ordinal a) = true
                    \/ Binds forceFeedbackActuators a))
    /\ kMinNumButtons <= numButtons capabilities
    /\ (forall b, 0 <= b < EButton_Count ->
          Targets elements (Element_Button b) -> b + 1 <= numButtons capabilities)
    /\ (numButtons capabilities = kMinNumButtons
        \/ exists b, 0 <= b < EButton_Count
                     /\ Targets elements (Element_Button b)
                     /\ numButtons capabilities = b + 1)
    /\ (hasPov capabilities = true
        <-> kIsPovRequired = true \/ Targets elements Element_Pov).
Proof.
  intros Hmin.
  destruct (DeriveCapabilitiesFromElementMap_ok elements forceFeedbackActuators)
    as (c & Hc & Haxes & Hnum & Hbuttons & Hpov).
  destruct (DeriveScan_spec elements forceFeedbackActuators)
    as (Sa & Sf & Sle & Sb & Sh & Sp).
  set (vars := DeriveScan elements forceFeedbackActuators) in *.
  assert (Htypes : type <$> PresentAxes c
                   = BitSetEnum_elements EAxis_Count (axesPresent vars)).
  { rewrite Haxes, <- list_fmap_compose. apply list_fmap_id. }
  assert (Hh : -1 <= highestButtonSeen vars < 31).
  { unfold EButton_Count in *. destruct Sh as [Heq|[? _]]; lia. }
  assert (Hwrap : numButtons c = highestButtonSeen vars + 1).
  { rewrite Hbuttons. apply wrap_unsigned_small. change (2 ^ 5) with 32. lia. }
  assert (Hofordinal : forall i, 0 <= i < EAxis_Count ->
                                 exists a, EAxis_ordinal a = i).
  { intros i Hi. unfold EAxis_Count in Hi.
    assert (i = 0 \/ i = 1 \/ i = 2 \/ i = 3 \/ i = 4 \/ i = 5)
      as [->|[->|[->|[->|[->| ->]]]]] by lia;
      [by exists EAxis_X|by exists EAxis_Y|by exists EAxis_Z
      |by exists EAxis_RotX|by exists EAxis_RotY|by exists EAxis_RotZ]. }
  exists c. split; [exact Hc|].
  split; [by rewrite Hnum, <- Htypes, length_fmap|].
  split; [rewrite Htypes; apply BitSetEnum_elements_sorted|].
  split; [|split; [|split; [|split; [|split]]]].
  - intros a. rewrite Htypes, BitSetEnum_elements_spec, <- Sa.
    split; [tauto|]. intros Hin. split; [exact Hin|].
    destruct a; cbn; unfold EAxis_Count; lia.
  - intros entry Hentry. rewrite Haxes in Hentry.
    apply list_elem_of_fmap in Hentry as (i & -> & Hi).
    apply BitSetEnum_elements_spec in Hi as [_ Hi].
    destruct (Hofordinal i Hi) as [a <-]. exists a. cbn. split; [done|apply Sf].
  - lia.
  - intros b Hb Ht. specialize (Sb b (proj2 Hb) Ht). lia.
  - destruct Sh as [Heq|[Hlt Ht]]; [left; lia|].
    destruct (Z.eq_dec (highestButtonSeen vars) (kMinNumButtons - 1));
      [left; lia|].
    right. exists (highestButtonSeen vars). split; [lia|]. split; [done|lia].
  - rewrite Hpov. apply Sp.
Qed.

Lemma DeriveCapabilities_total_deterministic_witness :
  exists capabilities,
    @DeriveCapabilitiesFromElementMap (mkMapperConstants 3 0 2 false)
      UElementMap_empty UForceFeedbackActuatorMap_empty = Some capabilities
    /\ PresentAxes capabilities = [mkAxisCaps 0 false; mkAxisCaps 1 false]
    /\ numButtons capabilities = 2
    /\ hasPov capabilities = false.
Proof.
  destruct (proj2 (proj2 (@DeriveCapabilities_total_deterministic
                            (mkMapperConstants 3 0 2 false) ltac:(cbn; lia)))
              UElementMap_empty UForceFeedbackActuatorMap_empty
              (fun _ => eq_refl))
    as (c & Hc & Haxes & Hb & Hp).
  - intros actuator Hin. cbn in Hin.
    repeat (apply elem_of_cons in Hin as [->|Hin]; [reflexivity|]).
    by apply elem_of_nil in Hin.
  - exists c. split; [exact Hc|]. split; [exact Haxes|]. split; [exact Hb|exact Hp].
Defined.

Lemma DeriveCapabilities_characterised_witness :
  exists capabilities,
    @DeriveCapabilitiesFromElementMap (mkMapperConstants 3 0 2 false)
      (UElementMap_single stickRightX (ProbeMapper EAxis_RotX))
      (mkActuatorMap (mkActuator true (MagnitudeProjection EAxis_X EAxis_Y))
         SActuatorElement_absent SActuatorElement_absent SActuatorElement_absent)
    = Some capabilities
    /\ StronglySorted Z.lt (type <$> PresentAxes capabilities).
Proof.
  destruct (@DeriveCapabilities_characterised (mkMapperConstants 3 0 2 false)
              (UElementMap_single stickRightX (ProbeMapper EAxis_RotX))
              (mkActuatorMap (mkActuator true (MagnitudeProjection EAxis_X EAxis_Y))
                 SActuatorElement_absent SActuatorElement_absent
                 SActuatorElement_absent)
              ltac:(cbn; lia))
    as (c & Hc & _ & Hsorted & _).
  exists c. split; [exact Hc|exact Hsorted].
Defined.

(** ** MapperBuilder::Build *)

Lemma IsMapperNameKnown_false (name : string) (st : BuilderState) :
  knownMappers (registry st) !! name = None -> IsMapperNameKnown name st = false.
Proof.
  intros Hnone. unfold IsMapperNameKnown. apply bool_decide_eq_false.
  rewrite Hnone. by intros [? ?].
Qed.

Lemma Unattempted_mark (name : string) (blueprint : SBlueprint)
    (bps : gmap string SBlueprint) :
  bps !! name = Some blueprint ->
  buildAttempted blueprint = false ->
  S (size (Unattempted
             (<[name := mkBlueprint (templateName blueprint)
                          (changesFromTemplate blueprint) true]> bps)))
  = size (Unattempted bps).
Proof.
  intros Hlookup Hfresh. unfold Unattempted.
  rewrite map_filter_insert_False by (cbn; congruence).
  rewrite map_filter_delete, map_size_delete_Some.
  - assert (Hne : size (filter (fun kv : string * SBlueprint =>
                                  buildAttempted kv.2 = false) bps) <> 0%nat).
    { apply (map_size_ne_0_lookup_2 _ name). exists blueprint.
      by apply map_lookup_filter_Some. }
    lia.
  - exists blueprint. by apply map_lookup_filter_Some.
Qed.

(** A build always returns: the recursion never runs out of fuel when there
    is more fuel than blueprints whose build was not attempted. *)
Lemma BuildFrom_total (fuel : nat) (mapperName : string) (st : BuilderState) :
  (size (Unattempted (blueprints st)) < fuel)%nat ->
  is_Some (BuildFrom fuel mapperName st).
Proof.
  revert mapperName st.
  induction fuel as [|fuel IH]; intros mapperName st Hfuel; [lia|].
  cbn [BuildFrom].
  destruct (blueprints st !! mapperName) as [blueprint|] eqn:Hbp; [|by eexists].
  destruct (IsMapperNameKnown mapperName st); [by eexists|].
  destruct (buildAttempted blueprint) eqn:Hattempted; [by eexists|].
  set (st1 := MarkBuildAttempted mapperName blueprint st).
  assert (Hfinish : forall base st2,
            is_Some (let '(this, st3) :=
                       NewMapper mapperName
                         (ApplyChanges (changesFromTemplate blueprint) base) st2 in
                     Some (Some this, st3))).
  { intros base st2. by eexists. }
  assert (HfromMapper : forall st2,
            is_Some
              match knownMappers (registry st2) !! templateName blueprint with
              | Some templateMapper =>
                  match mapperObjects st2 !! templateMapper with
                  | Some base =>
                      let '(this, st3) :=
                        NewMapper mapperName
                          (ApplyChanges (changesFromTemplate blueprint) base) st2 in
                      Some (Some this, st3)
                  | None => Some (None, st2)
                  end
              | None => Some (None, st2)
              end).
  { intros st2. destruct (knownMappers (registry st2) !! templateName blueprint);
      [|by eexists]. destruct (mapperObjects st2 !! _); [apply Hfinish|by eexists]. }
  destruct (wstring_empty (templateName blueprint)); [apply Hfinish|].
  destruct (IsMapperNameKnown (templateName blueprint) st1); [apply HfromMapper|].
  destruct (blueprints st1 !! templateName blueprint); [|by eexists].
  destruct (IH (templateName blueprint) st1) as [[[this|] st2] ->].
  - pose proof (Unattempted_mark mapperName blueprint (blueprints st) Hbp Hattempted).
    unfold st1, MarkBuildAttempted. cbn [blueprints]. lia.
  - apply HfromMapper.
  - by eexists.
Qed.

Lemma Build_total (mapperName : string) (st : BuilderState) :
  is_Some (Build mapperName st).
Proof.
  apply BuildFrom_total.
  pose proof (map_subseteq_size (Unattempted (blueprints st)) (blueprints st)
                (map_filter_subseteq _ _)).
  lia.
Qed.

Lemma size_two_keys {A : Type} (m : gmap string A) (i j : string) (x y : A) :
  i <> j -> m !! i = Some x -> m !! j = Some y -> (2 <= size m)%nat.
Proof.
  intros Hne Hi Hj.
  rewrite <- (insert_delete_id m i x) by exact Hi.
  rewrite map_size_insert_None by apply lookup_delete_eq.
  assert (size (delete i m) <> 0%nat); [|lia].
  apply (map_size_ne_0_lookup_2 _ j). exists y. by rewrite lookup_delete_ne.
Qed.

(** C7: when blueprint A names B as its template and blueprint B names A as
    its template, the build of A fails, and the registry and the mapper
    objects are what they were before: neither A nor B is registered. *)
Theorem Build_cycle_fails (st : BuilderState) (nameA nameB : string)
    (blueprintA blueprintB : SBlueprint) :
  blueprints st !! nameA = Some blueprintA ->
  blueprints st !! nameB = Some blueprintB ->
  templateName blueprintA = nameB ->
  templateName blueprintB = nameA ->
  wstring_empty nameA = false ->
  wstring_empty nameB = false ->
  GetByName nameA (registry st) = None ->
  GetByName nameB (registry st) = None ->
  exists st',
    Build nameA st = Some (None, st')
    /\ registry st' = registry st
    /\ mapperObjects st' = mapperObjects st
    /\ GetByName nameA (registry st') = None
    /\ GetByName nameB (registry st') = None.
Proof.
  intros HA HB HtA HtB HnA HnB HrA HrB.
  assert (HkA : knownMappers (registry st) !! nameA = None).
  { unfold GetByName, GetMapper in HrA. by rewrite HnA in HrA. }
  assert (HkB : knownMappers (registry st) !! nameB = None).
  { unfold GetByName, GetMapper in HrB. by rewrite HnB in HrB. }
  assert (Hdone : forall st', registry st' = registry st ->
            mapperObjects st' = mapperObjects st ->
            registry st' = registry st
            /\ mapperObjects st' = mapperObjects st
            /\ GetByName nameA (registry st') = None
            /\ GetByName nameB (registry st') = None).
  { intros st' Hr Ho. rewrite Hr. done. }
  unfold Build. cbn [BuildFrom]. rewrite HA.
  rewrite (IsMapperNameKnown_false nameA st HkA).
  destruct (buildAttempted blueprintA) eqn:HattA; [exists st; split; [done|by apply Hdone]|].
  cbv zeta. set (st1 := MarkBuildAttempted nameA blueprintA st).
  rewrite HtA, HnB.
  rewrite (IsMapperNameKnown_false nameB st1) by exact HkB.
  destruct (decide (nameA = nameB)) as [Heq|Hne].
  - (* the blueprint is its own template *)
    rewrite <- Heq in *. clear Heq.
    assert (H1 : blueprints st1 !! nameA
                 = Some (mkBlueprint (templateName blueprintA)
                           (changesFromTemplate blueprintA) true)).
    { unfold st1, MarkBuildAttempted. cbn. apply lookup_insert_eq. }
    rewrite H1.
    assert (Hsize : size (blueprints st) <> 0%nat)
      by (apply (map_size_ne_0_lookup_2 _ nameA); by exists blueprintA).
    destruct (size (blueprints st)) as [|k]; [done|].
    cbn [BuildFrom]. rewrite H1.
    rewrite (IsMapperNameKnown_false nameA st1) by exact HkA. cbn.
    exists st1. split; [done|by apply Hdone].
  - assert (H1B : blueprints st1 !! nameB = Some blueprintB).
    { unfold st1, MarkBuildAttempted. cbn. by rewrite lookup_insert_ne. }
    rewrite H1B.
    pose proof (size_two_keys (blueprints st) nameA nameB _ _ Hne HA HB) as Hsize.
    destruct (size (blueprints st)) as [|[|k]]; [lia|lia|].
    cbn [BuildFrom]. rewrite H1B.
    rewrite (IsMapperNameKnown_false nameB st1) by exact HkB.
    destruct (buildAttempted blueprintB) eqn:HattB;
      [exists st1; split; [done|by apply Hdone]|].
    cbv zeta. set (st2 := MarkBuildAttempted nameB blueprintB st1).
    rewrite HtB, HnA.
    rewrite (IsMapperNameKnown_false nameA st2) by exact HkA.
    assert (H2A : blueprints st2 !! nameA
                  = Some (mkBlueprint (templateName blueprintA)
                            (changesFromTemplate blueprintA) true)).
    { unfold st2, st1, MarkBuildAttempted. cbn.
      rewrite lookup_insert_ne by done. apply lookup_insert_eq. }
    rewrite H2A. cbn.
    exists st2. split; [done|by apply Hdone].
Qed.

Lemma Build_cycle_fails_witness :
  let st0 := mkBuilderState ∅ (ConstructAll [("Base", 1%positive)] EmptyRegistry)
               {[ 1%positive := UElementMap_empty ]} in
  let st1 := (CreateBlueprint "A" st0).2 in
  let st2 := (CreateBlueprint "B" st1).2 in
  let st3 := (SetBlueprintTemplate "A" "B" st2).2 in
  let st4 := (SetBlueprintTemplate "B" "A" st3).2 in
  exists st',
    Build "A" st4 = Some (None, st')
    /\ GetByName "A" (registry st') = None
    /\ GetByName "B" (registry st') = None
    /\ GetByName "Base" (registry st') = Some 1%positive.
Proof.
  intros st0 st1 st2 st3 st4.
  destruct (Build_cycle_fails st4 "A" "B"
              (mkBlueprint "B" ∅ false) (mkBlueprint "A" ∅ false)
              eq_refl eq_refl eq_refl eq_refl eq_refl eq_refl eq_refl eq_refl)
    as (st' & Hbuild & Hreg & _ & HnA & HnB).
  exists st'. split; [exact Hbuild|]. split; [exact HnA|]. split; [exact HnB|].
  rewrite Hreg. reflexivity.
Defined.

(** ** Mapper::MapForceFeedbackVirtualToPhysical *)

Section ForceFeedbackProperties.
Context `{EffectArithmetic}.

Lemma ForceFeedbackActuatorValue_spec
    (virtualEffectComponents : TOrderedMagnitudeComponents) (gain : TEffectValue)
    (actuatorElement : SActuatorElement) :
  Spec_ActuatorOutput virtualEffectComponents gain actuatorElement
    (ForceFeedbackActuatorValue virtualEffectComponents actuatorElement gain).
Proof.
  unfold Spec_ActuatorOutput, ForceFeedbackActuatorValue, VirtualActuatorStrengthRaw.
  destruct actuatorElement as [present md]. cbn [isPresent mode].
  split; [intros ->; reflexivity|]. split.
  - intros a direction -> ->. cbn [negb]. cbv zeta.
    destruct (ev_eqb kEffectForceMagnitudeZero
                (virtualEffectComponents !!! EAxis_index a)) eqn:Hzero.
    + repeat split; try done.
    + destruct (ev_signbit (virtualEffectComponents !!! EAxis_index a)) eqn:Hsign;
        destruct direction; repeat split; try done;
        intros _ [?|[[? ?]|[? ?]]]; congruence.
  - intros axisFirst axisSecond -> ->. reflexivity.
Qed.

(** C5: each of the four outputs of [MapForceFeedbackVirtualToPhysical] is
    zero when its actuator is unassigned, when the component of its single
    axis is exactly zero, and when the sign of that component does not match
    the polarity the actuator is restricted to; otherwise it is the raw
    component (single-axis mode) or the Euclidean norm of the two bound
    components (magnitude projection) put through the gain scaling. *)
Theorem MapForceFeedbackVirtualToPhysical_outputs
    (forceFeedbackActuators : UForceFeedbackActuatorMap)
    (virtualEffectComponents : TOrderedMagnitudeComponents) (gain : TEffectValue) :
  Forall2 (Spec_ActuatorOutput virtualEffectComponents gain)
    (UForceFeedbackActuatorMap_all forceFeedbackActuators)
    (SPhysicalActuatorComponents_all
       (MapForceFeedbackVirtualToPhysical forceFeedbackActuators
          virtualEffectComponents gain)).
Proof.
  unfold UForceFeedbackActuatorMap_all, SPhysicalActuatorComponents_all,
    MapForceFeedbackVirtualToPhysical. cbn.
  repeat (constructor; [apply ForceFeedbackActuatorValue_spec|]). constructor.
Qed.

End ForceFeedbackProperties.

Section PositiveSingleAxis.
Context `{EffectArithmeticLaws}.

Local Abbreviation zero := kEffectForceMagnitudeZero.

Lemma ev_le_zero_zero : ev_le zero zero.
Proof. exact (proj1 (ev_le_refl _ _ ev_maximum_nonneg)). Qed.





(** The strength at full gain, and its physical level before rounding. *)
Local Abbreviation fullStrength :=
  (ev_mul kEffectForceMagnitudeMaximum
     (ev_div kEffectModifierMaximum kEffectModifierMaximum)).

(** The multiplier and the strength bound of a gain between zero and the
    maximum modifier. *)
Lemma gain_facts (gain : TEffectValue) :
  ev_le zero gain -> ev_le gain kEffectModifierMaximum ->
  let gm := ev_div gain kEffectModifierMaximum in
  let Mg := VirtualActuatorStrengthMax gain in
  ev_le zero gm /\ ev_isfinite gm = true
  /\ Mg = ev_mul kEffectForceMagnitudeMaximum gm
  /\ ev_le zero Mg /\ ev_le Mg fullStrength /\ ev_isfinite Mg = true.
Proof.
  intros Hg0 Hg1 gm Mg.
  destruct (ev_div_le gain Hg0 Hg1) as [Hgm0 Hgm1]. fold gm in Hgm0, Hgm1.
  assert (Hfin : ev_isfinite gm = true)
    by exact (ev_isfinite_le _ _ Hgm0 Hgm1 ev_unit_gain_finite).
  assert (HMg : Mg = ev_mul kEffectForceMagnitudeMaximum gm).
  { unfold Mg, VirtualActuatorStrengthMax. by rewrite ev_sub_zero. }
  assert (HMg0 : ev_le zero Mg).
  { rewrite HMg.
    exact (ev_mul_nonneg _ _ ev_maximum_finite ev_maximum_nonneg Hfin Hgm0). }
  assert (HMg1 : ev_le Mg fullStrength).
  { rewrite HMg.
    exact (ev_mul_le _ _ _ ev_maximum_finite ev_maximum_nonneg Hgm0 Hgm1
             ev_unit_gain_finite). }
  repeat split; try done.
  exact (ev_isfinite_le _ _ HMg0 HMg1 ev_full_strength_finite).
Qed.

(** The level computed from a strength between zero and the bound of the
    gain: it fits the physical range, and grows with the strength. *)
Lemma level_facts (gain s : TEffectValue) :
  ev_le zero gain -> ev_le gain kEffectModifierMaximum ->
  ev_le zero s -> ev_le s (VirtualActuatorStrengthMax gain) ->
  let level := ev_lround (ev_mul s kScalingFactor) in
  0 <= level <= TPhysicalActuatorValue_max
  /\ ev_isfinite s = true
  /\ (forall s', ev_le s s' -> ev_le s' (VirtualActuatorStrengthMax gain) ->
        level <= ev_lround (ev_mul s' kScalingFactor)).
Proof.
  intros Hg0 Hg1 Hs0 Hs1 level.
  destruct (gain_facts gain Hg0 Hg1) as (_ & _ & _ & HM0 & HM1 & HMfin).
  assert (Hbound : forall x, ev_le zero x -> ev_le x (VirtualActuatorStrengthMax gain) ->
            ev_isfinite x = true
            /\ ev_le zero (ev_mul kScalingFactor x)
            /\ ev_le (ev_mul kScalingFactor x) (ev_mul kScalingFactor fullStrength)
            /\ ev_isfinite (ev_mul kScalingFactor x) = true).
  { intros x Hx0 Hx1.
    assert (Hxfin : ev_isfinite x = true) by exact (ev_isfinite_le _ _ Hx0 Hx1 HMfin).
    assert (Hp0 : ev_le zero (ev_mul kScalingFactor x))
      by exact (ev_mul_nonneg _ _ ev_scaling_finite ev_scaling_nonneg Hxfin Hx0).
    assert (Hp1 : ev_le (ev_mul kScalingFactor x) (ev_mul kScalingFactor fullStrength)).
    { apply (ev_mul_le _ _ _ ev_scaling_finite ev_scaling_nonneg Hx0);
        [exact (ev_le_trans _ _ _ Hx1 HM1)|exact ev_full_strength_finite]. }
    repeat split; try done.
    exact (ev_isfinite_le _ _ Hp0 Hp1 ev_full_scale_finite). }
  destruct (Hbound s Hs0 Hs1) as (Hsfin & Hp0 & Hp1 & Hpfin).
  unfold level. rewrite (ev_mul_comm s). repeat split.
  - rewrite <- ev_lround_zero.
    exact (ev_lround_le _ _ ev_le_zero_zero Hp0 Hpfin).
  - etransitivity; [|exact ev_full_scale_fits].
    exact (ev_lround_le _ _ Hp0 Hp1 ev_full_scale_finite).
  - exact Hsfin.
  - intros s' Hss' Hs'1. rewrite (ev_mul_comm s').
    destruct (Hbound s' (ev_le_trans _ _ _ Hs0 Hss') Hs'1) as (Hs'fin & _ & _ & Hp'fin).
    apply (ev_lround_le _ _ Hp0); [|exact Hp'fin].
    exact (ev_mul_le _ _ _ ev_scaling_finite ev_scaling_nonneg Hs0 Hss' Hs'fin).
Qed.


Lemma GainScaledMaximum_level (gain : TEffectValue) :
  ev_le zero gain -> ev_le gain kEffectModifierMaximum ->
  GainScaledMaximum gain
  = ev_lround (ev_mul (VirtualActuatorStrengthMax gain) kScalingFactor).
Proof.
  intros Hg0 Hg1. unfold GainScaledMaximum. apply wrap_unsigned_small.
  destruct (gain_facts gain Hg0 Hg1) as (_ & _ & _ & HM0 & _ & _).
  pose proof (level_facts gain _ Hg0 Hg1 HM0 (proj2 (ev_le_refl _ _ HM0)))
    as [Hrange _].
  unfold TPhysicalActuatorValue_max in Hrange.
  assert (0 < 2 ^ TPhysicalActuatorValue_bits) by (by cbn). lia.
Qed.


End PositiveSingleAxis.

(** ** Rounding to single precision *)

Lemma RoundNearestEven_bounds (p q : Z) :
  0 < q -> p / q <= RoundNearestEven p q <= p / q + 1.
Proof.
  intros Hq. unfold RoundNearestEven.
  destruct (2 * (p mod q) ?= q); [destruct (Z.even (p / q))| |]; lia.
Qed.

Lemma div_le_cross (p1 q1 p2 q2 : Z) :
  0 < q1 -> 0 < q2 -> p1 * q2 <= p2 * q1 -> p1 / q1 <= p2 / q2.
Proof.
  intros Hq1 Hq2 Hle.
  apply Z.div_le_lower_bound; [lia|].
  pose proof (Z.mul_div_le p1 q1 Hq1) as H1.
  (* q1 * (p1/q1) <= p1 *)
  assert (q1 * (q2 * (p1 / q1)) <= q1 * p2) by nia.
  nia.
Qed.

Lemma RoundNearestEven_mono (p1 q1 p2 q2 : Z) :
  0 < q1 -> 0 < q2 -> p1 * q2 <= p2 * q1 ->
  RoundNearestEven p1 q1 <= RoundNearestEven p2 q2.
Proof.
  intros Hq1 Hq2 Hle.
  pose proof (div_le_cross p1 q1 p2 q2 Hq1 Hq2 Hle) as Hf.
  pose proof (RoundNearestEven_bounds p1 q1 Hq1) as B1.
  pose proof (RoundNearestEven_bounds p2 q2 Hq2) as B2.
  destruct (Z.eq_dec (p1 / q1) (p2 / q2)) as [Heq|Hne]; [|lia].
  pose proof (Z.div_mod p1 q1 ltac:(lia)) as D1.
  pose proof (Z.div_mod p2 q2 ltac:(lia)) as D2.
  pose proof (Z.mod_pos_bound p1 q1 Hq1) as M1.
  pose proof (Z.mod_pos_bound p2 q2 Hq2) as M2.
  set (f := p2 / q2) in *. rewrite Heq in D1.
  set (r1 := p1 mod q1) in *. set (r2 := p2 mod q2) in *.
  assert (Hr : r1 * q2 <= r2 * q1) by nia.
  unfold RoundNearestEven. fold r1 r2 f. rewrite Heq. fold f.
  destruct (Z.compare_spec (2 * r1) q1) as [E1|L1|G1];
    destruct (Z.compare_spec (2 * r2) q2) as [E2|L2|G2];
    try destruct (Z.even f); try lia; exfalso; nia.
Qed.

Lemma RoundNearestEven_int (n : Z) : RoundNearestEven n 1 = n.
Proof.
  unfold RoundNearestEven. rewrite Z.mod_1_r, Z.div_1_r. reflexivity.
Qed.

Lemma div_lt_cross (p q n : Z) : 0 < q -> p / q < n -> p < n * q.
Proof.
  intros Hq Hlt.
  pose proof (Z.div_mod p q ltac:(lia)). pose proof (Z.mod_pos_bound p q Hq). nia.
Qed.

Lemma log2_shift_bounds (F : Z) :
  0 <= F ->
  let k := Z.max 0 (Z.log2 F - 23) in
  0 <= k /\ F < 2 ^ (24 + k) /\ (0 < k -> 2 ^ (23 + k) <= F).
Proof.
  intros HF k. split; [lia|]. split.
  - destruct (Z.eq_dec F 0) as [->|Hne].
    + apply Z.pow_pos_nonneg; lia.
    + pose proof (Z.log2_spec F ltac:(lia)) as [_ Hhi].
      eapply Z.lt_le_trans; [exact Hhi|].
      apply Z.pow_le_mono_r; lia.
  - intros Hk. assert (0 < F).
    { destruct (Z.eq_dec F 0) as [->|]; [cbn in k; lia|lia]. }
    pose proof (Z.log2_spec F ltac:(lia)) as [Hlo _].
    replace (23 + k) with (Z.log2 F) by lia. exact Hlo.
Qed.

Lemma Round24_mono (p1 q1 p2 q2 : Z) :
  0 <= p1 -> 0 < q1 -> 0 < q2 -> p1 * q2 <= p2 * q1 ->
  Round24 p1 q1 <= Round24 p2 q2.
Proof.
  intros Hp1 Hq1 Hq2 Hle.
  pose proof (div_le_cross p1 q1 p2 q2 Hq1 Hq2 Hle) as HF.
  assert (HF1 : 0 <= p1 / q1) by (apply Z.div_pos; lia).
  pose proof (log2_shift_bounds (p1 / q1) HF1) as (Hk1 & Hhi1 & _).
  pose proof (log2_shift_bounds (p2 / q2) ltac:(lia)) as (Hk2 & _ & Hlo2).
  pose proof (Z.log2_le_mono _ _ HF) as Hlog.
  unfold Round24.
  set (k1 := Z.max 0 (Z.log2 (p1 / q1) - 23)) in *.
  set (k2 := Z.max 0 (Z.log2 (p2 / q2) - 23)) in *.
  assert (Hk : k1 <= k2) by lia.
  assert (P1 : 0 < 2 ^ k1) by (apply Z.pow_pos_nonneg; lia).
  assert (P2 : 0 < 2 ^ k2) by (apply Z.pow_pos_nonneg; lia).
  destruct (Z.eq_dec k1 k2) as [Heq|Hne].
  - rewrite <- Heq. apply Z.mul_le_mono_nonneg_r; [lia|].
    apply RoundNearestEven_mono; nia.
  - assert (Hlt : k1 + 1 <= k2) by lia.
    specialize (Hlo2 ltac:(lia)).
    assert (H1 : RoundNearestEven p1 (q1 * 2 ^ k1) <= 2 ^ 24).
    { rewrite <- (RoundNearestEven_int (2 ^ 24)).
      apply RoundNearestEven_mono; [nia|lia|].
      pose proof (div_lt_cross _ _ _ Hq1 Hhi1) as Hp.
      rewrite Z.pow_add_r in Hp by lia. nia. }
    assert (H2 : 2 ^ 23 <= RoundNearestEven p2 (q2 * 2 ^ k2)).
    { rewrite <- (RoundNearestEven_int (2 ^ 23)) at 1.
      apply RoundNearestEven_mono; [lia|nia|].
      assert (Hp : 2 ^ (23 + k2) * q2 <= p2).
      { pose proof (Z.mul_div_le p2 q2 Hq2). nia. }
      rewrite Z.pow_add_r in Hp by lia. nia. }
    assert (H3 : 2 ^ 24 * 2 ^ k1 <= 2 ^ 23 * 2 ^ k2).
    { rewrite <- !Z.pow_add_r by lia. apply Z.pow_le_mono_r; lia. }
    nia.
Qed.

Lemma Round24_nonneg (p q : Z) : 0 <= p -> 0 < q -> 0 <= Round24 p q.
Proof.
  intros Hp Hq. unfold Round24.
  set (k := Z.max 0 _).
  assert (0 < 2 ^ k) by (apply Z.pow_pos_nonneg; lia).
  pose proof (RoundNearestEven_bounds p (q * 2 ^ k) ltac:(nia)).
  assert (0 <= p / (q * 2 ^ k)) by (apply Z.div_pos; nia).
  nia.
Qed.

Lemma valid_magnitude_spec (n : Z) :
  valid_magnitude n = true
  <-> 0 <= n < F32_limit /\ (n < 2 ^ 24 \/ n mod 2 ^ (Z.log2 n - 23) = 0).
Proof.
  unfold valid_magnitude.
  rewrite !andb_true_iff, orb_true_iff, Z.leb_le, !Z.ltb_lt, Z.eqb_eq. tauto.
Qed.

Lemma Round24_shape (p q : Z) :
  0 <= p -> 0 < q ->
  let k := Z.max 0 (Z.log2 (p / q) - 23) in
  let m := RoundNearestEven p (q * 2 ^ k) in
  Round24 p q = m * 2 ^ k /\ 0 <= k /\ 0 <= m <= 2 ^ 24 /\ (0 < k -> 2 ^ 23 <= m).
Proof.
  intros Hp Hq k m.
  assert (HF : 0 <= p / q) by (apply Z.div_pos; lia).
  pose proof (log2_shift_bounds (p / q) HF) as (Hk & Hhi & Hlo). fold k in Hk, Hhi, Hlo.
  assert (Pk : 0 < 2 ^ k) by (apply Z.pow_pos_nonneg; lia).
  split; [reflexivity|]. split; [exact Hk|]. split; [split|].
  - pose proof (RoundNearestEven_bounds p (q * 2 ^ k) ltac:(nia)).
    assert (0 <= p / (q * 2 ^ k)) by (apply Z.div_pos; nia). unfold m. lia.
  - unfold m. rewrite <- (RoundNearestEven_int (2 ^ 24)).
    apply RoundNearestEven_mono; [nia|lia|].
    pose proof (div_lt_cross _ _ _ Hq Hhi) as Hlt.
    rewrite Z.pow_add_r in Hlt by lia. nia.
  - intros Hk0. specialize (Hlo Hk0). unfold m.
    rewrite <- (RoundNearestEven_int (2 ^ 23)) at 1.
    apply RoundNearestEven_mono; [lia|nia|].
    assert (Hge : 2 ^ (23 + k) * q <= p).
    { pose proof (Z.mul_div_le p q Hq). nia. }
    rewrite Z.pow_add_r in Hge by lia. nia.
Qed.

Lemma Round24_valid (p q : Z) :
  0 <= p -> 0 < q -> Round24 p q < F32_limit ->
  valid_magnitude (Round24 p q) = true.
Proof.
  intros Hp Hq Hlim. apply valid_magnitude_spec.
  destruct (Round24_shape p q Hp Hq) as (Hn & Hk & [Hm0 Hm1] & Hm2).
  set (k := Z.max 0 (Z.log2 (p / q) - 23)) in *.
  set (m := RoundNearestEven p (q * 2 ^ k)) in *.
  assert (Pk : 0 < 2 ^ k) by (apply Z.pow_pos_nonneg; lia).
  rewrite Hn in *. split; [nia|].
  destruct (Z.eq_dec k 0) as [Hk0|Hk0].
  - rewrite Hk0, Z.pow_0_r, Z.mul_1_r.
    destruct (Z.eq_dec m (2 ^ 24)) as [->|]; [right; reflexivity|left; lia].
  - specialize (Hm2 ltac:(lia)). right.
    destruct (Z.eq_dec m (2 ^ 24)) as [Hm|Hm].
    + rewrite Hm, <- Z.pow_add_r by lia.
      rewrite Z.log2_pow2 by lia.
      replace (24 + k) with (23 + (24 + k - 23)) at 1 by lia.
      rewrite Z.pow_add_r by lia. apply Z.mod_mul.
      apply Z.pow_nonzero; lia.
    + rewrite Z.log2_mul_pow2 by lia.
      rewrite (Z.log2_unique m 23) by lia.
      replace (k + 23 - 23) with k by lia. apply Z.mod_mul. lia.
Qed.

Lemma Round24_id (n : Z) : valid_magnitude n = true -> Round24 n 1 = n.
Proof.
  intros Hv. apply valid_magnitude_spec in Hv as [[Hn0 _] Hshape].
  unfold Round24. rewrite Z.div_1_r, Z.mul_1_l.
  set (k := Z.max 0 (Z.log2 n - 23)).
  assert (Pk : 0 < 2 ^ k) by (apply Z.pow_pos_nonneg; lia).
  assert (Hmod : n mod 2 ^ k = 0).
  { destruct Hshape as [Hsmall|Hmod].
    - assert (Z.log2 n <= 23).
      { destruct (Z.eq_dec n 0) as [->|]; [cbn; lia|].
        apply Z.lt_succ_r, Z.log2_lt_pow2; lia. }
      replace k with 0 by lia. apply Z.mod_1_r.
    - destruct (Z.le_gt_cases (Z.log2 n - 23) 0) as [Hle|Hgt].
      + replace k with 0 by lia. apply Z.mod_1_r.
      + replace k with (Z.log2 n - 23) by lia. exact Hmod. }
  unfold RoundNearestEven. rewrite Hmod, Z.mul_0_r.
  destruct (Z.compare_spec 0 (2 ^ k)); try lia.
  pose proof (Z.div_mod n (2 ^ k) ltac:(lia)) as Hdiv.
  rewrite Hmod in Hdiv. rewrite Z.mul_comm. lia.
Qed.

(** ** Closure of the single-precision values under the operations *)

Lemma valid_magnitude_nonneg (n : Z) : valid_magnitude n = true -> 0 <= n.
Proof. intros Hv. apply valid_magnitude_spec in Hv. lia. Qed.

Lemma F32_round_valid (s : bool) (p q : Z) :
  0 <= p -> 0 < q -> F32_valid (F32_round s p q) = true.
Proof.
  intros Hp Hq. unfold F32_round.
  destruct (Z.ltb_spec (Round24 p q) F32_limit) as [Hlt|Hge]; [|reflexivity].
  by apply Round24_valid.
Qed.

Lemma F32_zero_valid (s : bool) : F32_valid (F32_fin s 0) = true.
Proof. reflexivity. Qed.

Lemma F32_abs_valid (x : float32raw) :
  F32_valid x = true -> F32_valid (F32_abs x) = true.
Proof. by destruct x. Qed.

Lemma F32_mul_valid (x y : float32raw) :
  F32_valid x = true -> F32_valid y = true -> F32_valid (F32_mul x y) = true.
Proof.
  destruct x as [s1|s1|s1 n1], y as [s2|s2|s2 n2]; cbn [F32_mul]; intros Hx Hy;
    try reflexivity; try (by destruct (_ =? 0)).
  apply valid_magnitude_nonneg in Hx, Hy.
  apply F32_round_valid; [nia|reflexivity].
Qed.

Lemma F32_div_valid (x y : float32raw) :
  F32_valid x = true -> F32_valid y = true -> F32_valid (F32_div x y) = true.
Proof.
  destruct x as [s1|s1|s1 n1], y as [s2|s2|s2 n2]; cbn [F32_div]; intros Hx Hy;
    try reflexivity.
  apply valid_magnitude_nonneg in Hx, Hy.
  destruct (Z.eqb_spec n2 0); [by destruct (n1 =? 0)|].
  apply F32_round_valid; [|lia].
  assert (0 < F32_one) by reflexivity. nia.
Qed.

Lemma F32_sub_valid (x y : float32raw) :
  F32_valid x = true -> F32_valid y = true -> F32_valid (F32_sub x y) = true.
Proof.
  destruct x as [s1|s1|s1 n1], y as [s2|s2|s2 n2]; cbn [F32_sub]; intros Hx Hy;
    try reflexivity; try (by destruct (eqb _ _)).
  cbv zeta. destruct (_ =? 0); [reflexivity|].
  apply F32_round_valid; lia.
Qed.

Lemma F32_of_int_valid (z : Z) : F32_valid (F32_of_int z) = true.
Proof.
  apply F32_round_valid; [|lia]. assert (0 < F32_one) by reflexivity. nia.
Qed.

Lemma F32_of_double_valid (w : spec_float) : F32_valid (F32_of_double w) = true.
Proof.
  destruct w as [s|s| |s m e]; try reflexivity. cbn [F32_of_double].
  destruct (Z.leb_spec 0 (e + 149)).
  - apply F32_round_valid; [|lia].
    assert (0 < 2 ^ (e + 149)) by (apply Z.pow_pos_nonneg; lia). nia.
  - apply F32_round_valid; [lia|]. apply Z.pow_pos_nonneg; lia.
Qed.


Lemma F32_pack_valid (x : float32raw) :
  F32_valid x = true -> ` (F32_pack x) = x.
Proof. intros Hv. unfold F32_pack. by destruct (decide _). Qed.

(** ** The single-precision arithmetic satisfies the laws *)

Lemma Round24_zero (q : Z) : 0 < q -> Round24 0 q = 0.
Proof.
  intros Hq. unfold Round24. rewrite Z.div_0_l by lia.
  change (Z.max 0 (Z.log2 0 - 23)) with 0. rewrite Z.pow_0_r, Z.mul_1_r, Z.mul_1_r.
  unfold RoundNearestEven. rewrite Z.div_0_l, Z.mod_0_l by lia.
  rewrite Z.mul_0_r. destruct (Z.compare_spec 0 q); [lia|reflexivity|lia].
Qed.

(** The position of a rounded non-negative value. *)
Lemma F32_key_round (s : bool) (p q : Z) :
  0 <= p -> 0 < q -> s = false \/ p = 0 ->
  F32_key (F32_round s p q) = Some (Z.min (Round24 p q) F32_limit).
Proof.
  intros Hp Hq Hs. unfold F32_round.
  destruct (Z.ltb_spec (Round24 p q) F32_limit) as [Hlt|Hge]; cbn [F32_key].
  - f_equal. destruct Hs as [->| ->]; cbn [cond_Zopp]; [lia|].
    rewrite Round24_zero by exact Hq. by destruct s.
  - destruct Hs as [->| ->]; cbn [cond_Zopp]; [f_equal; lia|].
    rewrite Round24_zero in Hge by exact Hq. by vm_compute in Hge.
Qed.

(** A finite value that is not below zero. *)
Lemma F32_nonneg_finite (x : float32raw) (a : Z) :
  F32_valid x = true -> F32_key x = Some a -> 0 <= a -> a < F32_limit ->
  exists s n, x = F32_fin s n /\ a = n /\ 0 <= n /\ (s = false \/ n = 0).
Proof.
  intros Hv Hk Ha Hlim. destruct x as [s|s|s n]; cbn in Hk; [done| |].
  - injection Hk as <-. destruct s; cbn in Ha, Hlim; [|lia].
    by vm_compute in Ha.
  - injection Hk as <-. apply valid_magnitude_nonneg in Hv.
    exists s, n. destruct s; cbn [cond_Zopp] in *.
    + assert (n = 0) by lia. subst. repeat split; auto.
    + repeat split; auto.
Qed.

Section Binary32Laws.

Local Abbreviation B := Binary32Arithmetic.

Lemma B32_ltb (x y : float32) :
  @ev_ltb B x y = true
  <-> exists a b, F32_key (`x) = Some a /\ F32_key (`y) = Some b /\ a < b.
Proof.
  change (@ev_ltb B x y) with (F32_ltb (`x) (`y)). unfold F32_ltb.
  destruct (F32_key (`x)) as [a|], (F32_key (`y)) as [b|];
    try (split; [done|by intros (? & ? & ? & ? & ?)]).
  rewrite Z.ltb_lt. split; [by exists a, b|].
  by intros (? & ? & [= <-] & [= <-] & ?).
Qed.

Lemma B32_eqb (x y : float32) :
  @ev_eqb B x y = true
  <-> exists a, F32_key (`x) = Some a /\ F32_key (`y) = Some a.
Proof.
  change (@ev_eqb B x y) with (F32_eqb (`x) (`y)). unfold F32_eqb.
  destruct (F32_key (`x)) as [a|], (F32_key (`y)) as [b|];
    try (split; [done|by intros (? & ? & ?)]).
  rewrite Z.eqb_eq. split; [intros ->; by exists b|].
  by intros (? & [= <-] & [= <-]).
Qed.

Lemma B32_le (x y : float32) :
  @ev_le B x y
  <-> exists a b, F32_key (`x) = Some a /\ F32_key (`y) = Some b /\ a <= b.
Proof.
  unfold ev_le. rewrite B32_ltb, B32_eqb. split.
  - intros [(a & b & ? & ? & ?)|(a & ? & ?)];
      [exists a, b|exists a, a]; repeat split; auto; lia.
  - intros (a & b & Ha & Hb & Hab).
    destruct (Z.eq_dec a b) as [<-|]; [right; by exists a|left].
    exists a, b. repeat split; auto; lia.
Qed.

Lemma B32_zero_key : F32_key (` (@kEffectForceMagnitudeZero B)) = Some 0.
Proof. reflexivity. Qed.

(** A finite value that is not below zero. *)
Lemma B32_nonneg_finite (x : float32) :
  @ev_le B kEffectForceMagnitudeZero x -> @ev_isfinite B x = true ->
  exists s n, `x = F32_fin s n /\ F32_key (`x) = Some n
              /\ 0 <= n /\ (s = false \/ n = 0).
Proof.
  rewrite B32_le. intros (a & b & Ha & Hb & Hab) Hfin.
  rewrite B32_zero_key in Ha. injection Ha as <-.
  destruct x as [x Hv]. cbn [proj1_sig] in *.
  change (F32_isfinite x = true) in Hfin.
  destruct x as [s|s|s n]; try discriminate Hfin.
  cbn in Hb. injection Hb as <-. pose proof (valid_magnitude_nonneg _ Hv).
  exists s, n. split; [done|].
  destruct s; cbn [cond_Zopp F32_key] in *.
  - assert (n = 0) by lia. subst. repeat split; auto.
  - repeat split; auto.
Qed.

Lemma B32_mul_proj (x y : float32) :
  ` (@ev_mul B x y) = F32_mul (`x) (`y).
Proof. apply F32_pack_valid, F32_mul_valid; [apply (proj2_sig x)|apply (proj2_sig y)]. Qed.

Lemma B32_div_proj (x y : float32) :
  ` (@ev_div B x y) = F32_div (`x) (`y).
Proof. apply F32_pack_valid, F32_div_valid; [apply (proj2_sig x)|apply (proj2_sig y)]. Qed.

Lemma B32_sub_proj (x y : float32) :
  ` (@ev_sub B x y) = F32_sub (`x) (`y).
Proof. apply F32_pack_valid, F32_sub_valid; [apply (proj2_sig x)|apply (proj2_sig y)]. Qed.

Lemma B32_abs_proj (x : float32) : ` (@ev_abs B x) = F32_abs (`x).
Proof. apply F32_pack_valid, F32_abs_valid, (proj2_sig x). Qed.

Lemma B32_mul_key (c x : float32) sc nc sx nx :
  `c = F32_fin sc nc -> 0 <= nc -> sc = false \/ nc = 0 ->
  `x = F32_fin sx nx -> 0 <= nx -> sx = false \/ nx = 0 ->
  F32_key (` (@ev_mul B c x))
  = Some (Z.min (Round24 (nc * nx) F32_one) F32_limit).
Proof.
  intros Hc Hnc Hsc Hx Hnx Hsx.
  rewrite B32_mul_proj, Hc, Hx.
  cbn [F32_mul]. apply F32_key_round; [nia|reflexivity|].
  destruct Hsc as [->| ->]; [|right; lia].
  destruct Hsx as [->| ->]; [by left|right; lia].
Qed.

Lemma B32_isfinite_le (x y : float32) :
  @ev_le B kEffectForceMagnitudeZero x -> @ev_le B x y ->
  @ev_isfinite B y = true -> @ev_isfinite B x = true.
Proof.
  rewrite !B32_le. intros (z & a & Hz & Ha & Hza) (a' & b & Ha' & Hb & Hab) Hfin.
  rewrite B32_zero_key in Hz. injection Hz as <-.
  rewrite Ha in Ha'. injection Ha' as <-.
  destruct y as [y Hvy], x as [x Hvx]. cbn [proj1_sig] in *.
  change (F32_isfinite y = true) in Hfin. change (F32_isfinite x = true).
  destruct y as [|sy|sy ny]; try discriminate Hfin.
  destruct x as [|sx|sx nx]; [done| |done].
  cbn in Ha, Hb. injection Ha as <-. injection Hb as <-.
  apply valid_magnitude_spec in Hvy as [[? Hlim] _].
  destruct sx, sy; cbn [cond_Zopp] in *; try lia; by vm_compute in Hza.
Qed.

Lemma Binary32Arithmetic_laws : @EffectArithmeticLaws Binary32Arithmetic.
Proof.
  split.
  - (* ev_le_refl *)
    intros x y. rewrite !B32_le. intros (a & b & Ha & Hb & _).
    split; [exists a, a|exists b, b]; repeat split; auto; lia.
  - (* ev_le_trans *)
    intros x y z. rewrite !B32_le.
    intros (a & b & Ha & Hb & Hab) (b' & c & Hb' & Hc & Hbc).
    rewrite Hb in Hb'. injection Hb' as <-. exists a, c. repeat split; auto; lia.
  - (* ev_le_lt_trans *)
    intros x y z. rewrite B32_le, !B32_ltb.
    intros (a & b & Ha & Hb & Hab) (b' & c & Hb' & Hc & Hbc).
    rewrite Hb in Hb'. injection Hb' as <-. exists a, c. repeat split; auto; lia.
  - (* ev_lt_le_trans *)
    intros x y z. rewrite B32_le, !B32_ltb.
    intros (a & b & Ha & Hb & Hab) (b' & c & Hb' & Hc & Hbc).
    rewrite Hb in Hb'. injection Hb' as <-. exists a, c. repeat split; auto; lia.
  - (* ev_le_not_lt *)
    intros x y. rewrite B32_le. intros (a & b & Ha & Hb & Hab).
    apply not_true_iff_false. rewrite B32_ltb.
    intros (b' & a' & Hb' & Ha' & Hlt).
    rewrite Ha in Ha'. rewrite Hb in Hb'.
    injection Ha' as <-. injection Hb' as <-. lia.
  - (* ev_lt_positive *)
    intros x. rewrite B32_ltb. intros (z & a & Hz & Ha & Hlt).
    rewrite B32_zero_key in Hz. injection Hz as <-. split.
    + apply not_true_iff_false. rewrite B32_eqb. intros (z & Hz & Ha').
      rewrite B32_zero_key in Hz. rewrite Ha in Ha'.
      injection Hz as <-. injection Ha' as ->. lia.
    + destruct x as [x Hv]. cbn [proj1_sig] in Ha.
      change (F32_signbit x = false).
      destruct x as [s|s|s n]; [done| |]; cbn in Ha; injection Ha as <-.
      * destruct s; [by vm_compute in Hlt|done].
      * apply valid_magnitude_nonneg in Hv. destruct s; cbn in *; [lia|done].
  - (* ev_sub_zero *)
    intros x. apply sig_eq_pi; [apply _|]. rewrite B32_sub_proj.
    destruct x as [x Hv]. change (` (@kEffectForceMagnitudeZero B)) with (F32_fin false 0).
    cbn [proj1_sig].
    destruct x as [s|s|s n]; [done|done|].
    cbn [F32_sub]. cbv zeta. cbn [cond_Zopp].
    pose proof (valid_magnitude_nonneg _ Hv) as Hn.
    replace (cond_Zopp s n - 0) with (cond_Zopp s n) by lia.
    destruct (Z.eqb_spec (cond_Zopp s n) 0) as [Hz|Hnz].
    + assert (n = 0) by (destruct s; cbn in Hz; lia). subst.
      by destruct s.
    + assert (Hs : (cond_Zopp s n <? 0) = s).
      { destruct s; cbn [cond_Zopp] in *; [apply Z.ltb_lt|apply Z.ltb_ge]; lia. }
      assert (Ha : Z.abs (cond_Zopp s n) = n) by (destruct s; cbn; lia).
      rewrite Hs, Ha. unfold F32_round. rewrite Round24_id by exact Hv.
      apply valid_magnitude_spec in Hv as [[_ Hlim] _].
      by rewrite (proj2 (Z.ltb_lt _ _) Hlim).
  - (* ev_abs_nonneg *)
    intros x Hs. apply sig_eq_pi; [apply _|]. rewrite B32_abs_proj.
    destruct x as [x Hv]. change (F32_signbit x = false) in Hs. cbn [proj1_sig].
    destruct x as [s|s|s n]; cbn in *; by subst.
  - (* ev_mul_comm *)
    intros x y. apply sig_eq_pi; [apply _|]. rewrite !B32_mul_proj.
    destruct x as [x Hx], y as [y Hy]. cbn [proj1_sig].
    destruct x as [s1|s1|s1 n1], y as [s2|s2|s2 n2]; cbn [F32_mul];
      rewrite ?(xorb_comm s1 s2), ?(andb_comm s1 s2); try reflexivity.
    by rewrite (Z.mul_comm n1 n2).
  - (* ev_mul_nonneg *)
    intros c x Hcfin Hc Hxfin Hx.
    destruct (B32_nonneg_finite c Hc Hcfin) as (sc & nc & Ec & _ & Hnc & Hsc).
    destruct (B32_nonneg_finite x Hx Hxfin) as (sx & nx & Ex & _ & Hnx & Hsx).
    apply B32_le. eexists 0, _. split; [apply B32_zero_key|].
    split; [by apply (B32_mul_key c x sc nc sx nx)|].
    pose proof (Round24_nonneg (nc * nx) F32_one ltac:(nia) eq_refl).
    assert (0 < F32_limit) by reflexivity. lia.
  - (* ev_mul_le *)
    intros c x y Hcfin Hc Hx Hxy Hyfin.
    pose proof (B32_isfinite_le x y Hx Hxy Hyfin) as Hxfin.
    assert (Hy : @ev_le B kEffectForceMagnitudeZero y).
    { revert Hx Hxy. rewrite !B32_le.
      intros (z & a & Hz & Ha & Hza) (a' & b & Ha' & Hb & Hab).
      rewrite Ha in Ha'. injection Ha' as <-. exists z, b. repeat split; auto; lia. }
    destruct (B32_nonneg_finite c Hc Hcfin) as (sc & nc & Ec & _ & Hnc & Hsc).
    destruct (B32_nonneg_finite x Hx Hxfin) as (sx & nx & Ex & Kx & Hnx & Hsx).
    destruct (B32_nonneg_finite y Hy Hyfin) as (sy & ny & Ey & Ky & Hny & Hsy).
    assert (Hle : nx <= ny).
    { apply B32_le in Hxy as (a & b & Ha & Hb & Hab).
      rewrite Kx in Ha. rewrite Ky in Hb. injection Ha as <-. injection Hb as <-.
      exact Hab. }
    apply B32_le. eexists _, _.
    split; [by apply (B32_mul_key c x sc nc sx nx)|].
    split; [by apply (B32_mul_key c y sc nc sy ny)|].
    apply Z.min_le_compat_r, Round24_mono; [nia|reflexivity|reflexivity|].
    apply Z.mul_le_mono_nonneg_r; [discriminate|].
    apply Z.mul_le_mono_nonneg_l; lia.
  - (* ev_div_le *)
    intros g Hg0 Hg1.
    assert (Hmaxfin : @ev_isfinite B kEffectModifierMaximum = true) by reflexivity.
    pose proof (B32_isfinite_le g _ Hg0 Hg1 Hmaxfin) as Hgfin.
    destruct (B32_nonneg_finite g Hg0 Hgfin) as (sg & ng & Eg & Kg & Hng & Hsg).
    set (nG := 10000 * F32_one).
    assert (EG : ` (@kEffectModifierMaximum B) = F32_fin false nG)
      by (by vm_compute).
    assert (HnG : 0 < nG) by reflexivity.
    assert (Hle : ng <= nG).
    { apply B32_le in Hg1 as (a & b & Ha & Hb & Hab).
      rewrite Kg in Ha. rewrite EG in Hb. cbn in Hb.
      injection Ha as <-. injection Hb as <-. exact Hab. }
    assert (Kdiv : forall (x : float32) sx nx,
              `x = F32_fin sx nx -> 0 <= nx -> sx = false \/ nx = 0 ->
              F32_key (` (@ev_div B x kEffectModifierMaximum))
              = Some (Z.min (Round24 (nx * F32_one) nG) F32_limit)).
    { intros x sx nx Ex Hnx Hsx.
      rewrite B32_div_proj, Ex, EG. cbn [F32_div].
      destruct (Z.eqb_spec nG 0); [lia|]. rewrite xorb_false_r.
      apply F32_key_round; [|exact HnG|].
      - apply Z.mul_nonneg_nonneg; [lia|discriminate].
      - destruct Hsx as [->| ->]; [by left|by right]. }
    split; apply B32_le.
    + eexists 0, _. split; [apply B32_zero_key|].
      split; [by apply (Kdiv g sg ng)|].
      assert (0 <= ng * F32_one) by (apply Z.mul_nonneg_nonneg; [lia|discriminate]).
      pose proof (Round24_nonneg (ng * F32_one) nG ltac:(lia) HnG).
      assert (0 < F32_limit) by reflexivity. lia.
    + eexists _, _. split; [by apply (Kdiv g sg ng)|].
      split; [apply (Kdiv _ false nG EG); [lia|by left]|].
      apply Z.min_le_compat_r, Round24_mono; [|exact HnG|exact HnG|].
      * apply Z.mul_nonneg_nonneg; [lia|discriminate].
      * apply Z.mul_le_mono_nonneg_r; [lia|].
        apply Z.mul_le_mono_nonneg_r; [discriminate|lia].
  - (* ev_isfinite_le *)
    exact B32_isfinite_le.
  - (* ev_lround_le *)
    intros x y Hx Hxy Hyfin.
    pose proof (B32_isfinite_le x y Hx Hxy Hyfin) as Hxfin.
    assert (Hy : @ev_le B kEffectForceMagnitudeZero y).
    { revert Hx Hxy. rewrite !B32_le.
      intros (z & a & Hz & Ha & Hza) (a' & b & Ha' & Hb & Hab).
      rewrite Ha in Ha'. injection Ha' as <-. exists z, b. repeat split; auto; lia. }
    destruct (B32_nonneg_finite x Hx Hxfin) as (sx & nx & Ex & Kx & Hnx & Hsx).
    destruct (B32_nonneg_finite y Hy Hyfin) as (sy & ny & Ey & Ky & Hny & Hsy).
    assert (Hle : nx <= ny).
    { apply B32_le in Hxy as (a & b & Ha & Hb & Hab).
      rewrite Kx in Ha. rewrite Ky in Hb. injection Ha as <-. injection Hb as <-.
      exact Hab. }
    change (F32_lround (`x) <= F32_lround (`y)). rewrite Ex, Ey.
    cbn [F32_lround].
    assert (Hl : forall s n, 0 <= n -> s = false \/ n = 0 ->
              cond_Zopp s ((n + F32_one / 2) / F32_one)
              = (n + F32_one / 2) / F32_one).
    { intros s n Hn [->| ->]; [done|]. by destruct s. }
    rewrite !Hl by done.
    apply Z.div_le_mono; [reflexivity|lia].
  - (* ev_lround_zero *) reflexivity.
  - (* ev_maximum_nonneg *) left. by vm_compute.
  - (* ev_maximum_finite *) reflexivity.
  - (* ev_unit_gain_finite *) by vm_compute.
  - (* ev_full_strength_finite *) by vm_compute.
  - (* ev_scaling_nonneg *) left. by vm_compute.
  - (* ev_scaling_finite *) by vm_compute.
  - (* ev_full_scale_finite *) by vm_compute.
  - (* ev_full_scale_fits *) by vm_compute.
Qed.

End Binary32Laws.

(** The operations of the single-precision model agree with those of the
    standard library's specification of IEEE 754 arithmetic (precision 24,
    maximal exponent 128) on these values, which include zeros of both signs,
    the least subnormal and the greatest finite value, and the infinities. *)
Example F32_operations_agree :
  let to_sf := F32_to_spec_float in
  let pairs := p ← F32_samples; q ← F32_samples; [(p, q)] in
  (fun '(x, y) => to_sf (F32_mul x y)) <$> pairs
  = (fun '(x, y) => SFmul 24 128 (to_sf x) (to_sf y)) <$> pairs
  /\ (fun '(x, y) => to_sf (F32_div x y)) <$> pairs
     = (fun '(x, y) => SFdiv 24 128 (to_sf x) (to_sf y)) <$> pairs
  /\ (fun '(x, y) => to_sf (F32_sub x y)) <$> pairs
     = (fun '(x, y) => SFsub 24 128 (to_sf x) (to_sf y)) <$> pairs
  /\ (fun '(x, y) => F32_ltb x y) <$> pairs
     = (fun '(x, y) => SFltb (to_sf x) (to_sf y)) <$> pairs
  /\ (fun '(x, y) => F32_eqb x y) <$> pairs
     = (fun '(x, y) => SFeqb (to_sf x) (to_sf y)) <$> pairs
  /\ Forall (fun x => F32_valid x = true) F32_samples.
Proof.
  cbv zeta.
  split; [vm_compute; reflexivity|].
  split; [vm_compute; reflexivity|].
  split; [vm_compute; reflexivity|].
  split; [vm_compute; reflexivity|].
  split; [vm_compute; reflexivity|].
  apply Forall_fold_right. vm_compute. tauto.
Qed.



(** The four outputs for a table with a magnitude projection on the left motor
    and a positive single axis on the right motor, in single precision. *)
Example MapForceFeedbackVirtualToPhysical_example :
  @MapForceFeedbackVirtualToPhysical Binary32Arithmetic
    (mkActuatorMap
       (mkActuator true (MagnitudeProjection EAxis_X EAxis_Y))
       (mkActuator true (SingleAxis EAxis_X EAxisDirection_Positive))
       (mkActuator true (SingleAxis EAxis_X EAxisDirection_Negative))
       SActuatorElement_absent)
    (vinsert (EAxis_index EAxis_Y) (float32_of_int 4000)
       (@SingleComponent Binary32Arithmetic EAxis_X (float32_of_int 3000)))
    (float32_of_int 10000)
  = {| out_leftMotor := 32768; out_rightMotor := 19661;
       out_leftImpulseTrigger := 0; out_rightImpulseTrigger := 0 |}.
Proof. vm_compute. reflexivity. Qed.

(** The gain 20000 with the components 5000 and 5001: the level 65535, then
    65548 which the 16-bit actuator value holds as 12. *)
Example ForceFeedbackActuatorValue_wraps :
  let actuator := mkActuator true (SingleAxis EAxis_X EAxisDirection_Positive) in
  @ForceFeedbackActuatorValue Binary32Arithmetic
    (@SingleComponent Binary32Arithmetic EAxis_X (float32_of_int 5000))
    actuator (float32_of_int 20000) = 65535
  /\ @ForceFeedbackActuatorValue Binary32Arithmetic
       (@SingleComponent Binary32Arithmetic EAxis_X (float32_of_int 5001))
       actuator (float32_of_int 20000) = 12.
Proof. split; vm_compute; reflexivity. Qed.

(** ** Queries on [SCapabilities] *)

Lemma PresentAxes_lookup (capabilities : SCapabilities) (i : Z) :
  0 <= i < numAxes capabilities ->
  PresentAxes capabilities !! Z.to_nat i
  = axisCapabilities capabilities !! Z.to_nat i.
Proof. intros Hi. unfold PresentAxes. apply lookup_take_lt. lia. Qed.

Lemma AxisTypeAt_Some (capabilities : SCapabilities) (i t : Z) :
  AxisTypeAt capabilities i = Some t
  <-> 0 <= i < numAxes capabilities
      /\ exists entry, axisCapabilities capabilities !! Z.to_nat i = Some entry
                       /\ type entry = t.
Proof.
  unfold AxisTypeAt.
  destruct (Z.leb_spec 0 i), (Z.ltb_spec i (numAxes capabilities)); cbn;
    try (split; [done|lia]).
  rewrite fmap_Some. split.
  - intros (entry & ? & ->). split; [lia|]. by exists entry.
  - intros (_ & entry & ? & <-). by exists entry.
Qed.

Lemma FindAxis_loop_spec (remaining : nat) (i : Z) (capabilities : SCapabilities)
    (axis : EAxis) :
  0 <= i ->
  (Z.to_nat i + remaining <= length (axisCapabilities capabilities))%nat ->
  exists index,
    FindAxis_loop remaining i capabilities axis = Some index
    /\ ((index = -1
         /\ forall k entry, i <= k < i + Z.of_nat remaining ->
              axisCapabilities capabilities !! Z.to_nat k = Some entry ->
              type entry <> EAxis_ordinal axis)
        \/ (i <= index < i + Z.of_nat remaining
            /\ (exists entry,
                  axisCapabilities capabilities !! Z.to_nat index = Some entry
                  /\ type entry = EAxis_ordinal axis)
            /\ forall k entry, i <= k < index ->
                 axisCapabilities capabilities !! Z.to_nat k = Some entry ->
                 type entry <> EAxis_ordinal axis)).
Proof.
  revert i. induction remaining as [|remaining IH]; intros i Hi Hlen; cbn [FindAxis_loop].
  - exists (-1). split; [done|]. left. split; [done|]. intros k entry Hk. lia.
  - destruct (lookup_lt_is_Some_2 (axisCapabilities capabilities) (Z.to_nat i))
      as [entry Hentry]; [lia|].
    rewrite Hentry. destruct (Z.eqb_spec (type entry) (EAxis_ordinal axis)) as [Heq|Hne].
    + exists i. split; [done|]. right. split; [lia|]. split; [by exists entry|].
      intros k e Hk. lia.
    + destruct (IH (i + 1)) as (index & Hloop & Hspec); [lia|lia|].
      exists index. split; [done|].
      assert (Hstep : forall k e, i <= k < i + 1 ->
                axisCapabilities capabilities !! Z.to_nat k = Some e ->
                type e <> EAxis_ordinal axis).
      { intros k e Hk He. assert (k = i) by lia. subst k.
        rewrite Hentry in He. by injection He as <-. }
      destruct Hspec as [[-> Hnone]|(Hrange & Hfound & Hfirst)].
      * left. split; [done|]. intros k e Hk He.
        destruct (Z.eq_dec k i) as [->|]; [apply (Hstep i e); [lia|done]|].
        apply (Hnone k e); [lia|done].
      * right. split; [lia|]. split; [done|]. intros k e Hk He.
        destruct (Z.eq_dec k i) as [->|]; [apply (Hstep i e); [lia|done]|].
        apply (Hfirst k e); [lia|done].
Qed.

(** X1: on a well-formed capabilities object [FindAxis] returns the index of
    the first valid entry of the given axis type, and -1 exactly when no
    valid entry has that type. *)
Theorem FindAxis_first_index (capabilities : SCapabilities) (axis : EAxis) :
  SCapabilities_wf capabilities ->
  exists index,
    FindAxis capabilities axis = Some index
    /\ ((index = -1
         /\ forall k, AxisTypeAt capabilities k <> Some (EAxis_ordinal axis))
        \/ (0 <= index < numAxes capabilities
            /\ AxisTypeAt capabilities index = Some (EAxis_ordinal axis)
            /\ forall k, k < index ->
                 AxisTypeAt capabilities k <> Some (EAxis_ordinal axis))).
Proof.
  intros [Hlen Hnum].
  destruct (FindAxis_loop_spec (Z.to_nat (numAxes capabilities)) 0 capabilities axis)
    as (index & Hfind & Hspec); [lia|lia|].
  exists index. split; [exact Hfind|].
  destruct Hspec as [[-> Hnone]|(Hrange & (entry & Hentry & Htype) & Hfirst)].
  - left. split; [done|]. intros k Hk.
    apply AxisTypeAt_Some in Hk as (Hk & entry & Hentry & Htype).
    apply (Hnone k entry); [lia|done|done].
  - right. split; [lia|]. split.
    + apply AxisTypeAt_Some. split; [lia|]. by exists entry.
    + intros k Hk Hat.
      apply AxisTypeAt_Some in Hat as (Hk' & e & He & Ht).
      apply (Hfirst k e); [lia|done|done].
Qed.

Lemma FindAxis_first_index_witness :
  let capabilities :=
    {| axisCapabilities :=
         [mkAxisCaps 0 false; mkAxisCaps 1 false; mkAxisCaps 5 true;
          mkAxisCaps 0 false; mkAxisCaps 0 false; mkAxisCaps 0 false];
       numAxes := 3; numButtons := 10; hasPov := true |} in
  exists index,
    FindAxis capabilities EAxis_RotZ = Some index
    /\ ((index = -1
         /\ forall k, AxisTypeAt capabilities k <> Some (EAxis_ordinal EAxis_RotZ))
        \/ (0 <= index < numAxes capabilities
            /\ AxisTypeAt capabilities index = Some (EAxis_ordinal EAxis_RotZ)
            /\ forall k, k < index ->
                 AxisTypeAt capabilities k <> Some (EAxis_ordinal EAxis_RotZ))).
Proof.
  intros capabilities.
  apply (FindAxis_first_index capabilities EAxis_RotZ).
  split; [reflexivity|cbn; lia].
Defined.

Lemma take_drop_S {A : Type} (l : list A) (i n : nat) (x : A) :
  l !! i = Some x -> take (S n) (drop i l) = x :: take n (drop (S i) l).
Proof. intros Hx. by rewrite (drop_S _ _ _ Hx). Qed.

Lemma FindAxis_loop_ext (remaining : nat) (i : Z) (c1 c2 : SCapabilities)
    (axis : EAxis) :
  0 <= i ->
  (forall k, i <= k < i + Z.of_nat remaining ->
     axisCapabilities c1 !! Z.to_nat k = axisCapabilities c2 !! Z.to_nat k) ->
  FindAxis_loop remaining i c1 axis = FindAxis_loop remaining i c2 axis.
Proof.
  revert i. induction remaining as [|remaining IH]; intros i Hi Hext; [done|].
  cbn [FindAxis_loop]. rewrite <- (Hext i) by lia.
  destruct (axisCapabilities c1 !! Z.to_nat i) as [entry|]; [|done].
  destruct (type entry =? EAxis_ordinal axis); [done|].
  apply IH; [lia|]. intros k Hk. apply Hext. lia.
Qed.

Lemma FindAxis_loop_app (n m : nat) (i : Z) (capabilities : SCapabilities)
    (axis : EAxis) :
  0 <= i ->
  FindAxis_loop (n + m) i capabilities axis
  = match FindAxis_loop n i capabilities axis with
    | Some index =>
        if index =? -1
        then FindAxis_loop m (i + Z.of_nat n) capabilities axis
        else Some index
    | None => None
    end.
Proof.
  revert i. induction n as [|n IH]; intros i Hi.
  - cbn. by rewrite Z.add_0_r.
  - cbn [FindAxis_loop Nat.add].
    destruct (axisCapabilities capabilities !! Z.to_nat i) as [entry|]; [|done].
    destruct (type entry =? EAxis_ordinal axis).
    + destruct (Z.eqb_spec i (-1)); [lia|done].
    + rewrite IH by lia. replace (i + 1 + Z.of_nat n) with (i + Z.of_nat (S n)) by lia.
      done.
Qed.

(** X2: appending an axis that [FindAxis] does not find makes [FindAxis] find
    it at the former [numAxes], with the force feedback flag it was appended
    with, and does not change what is found for the other axes. *)
Theorem AppendAxis_FindAxis (capabilities : SCapabilities) (axis : EAxis)
    (ff : bool) :
  SCapabilities_wf capabilities ->
  numAxes capabilities < 6 ->
  FindAxis capabilities axis = Some (-1) ->
  exists capabilities',
    AppendAxis capabilities (mkAxisCaps (EAxis_ordinal axis) ff) = Some capabilities'
    /\ SCapabilities_wf capabilities'
    /\ numAxes capabilities' = numAxes capabilities + 1
    /\ FindAxis capabilities' axis = Some (numAxes capabilities)
    /\ ForceFeedbackIsSupportedForAxis capabilities' axis = Some ff
    /\ forall other, other <> axis ->
         FindAxis capabilities' other = FindAxis capabilities other.
Proof.
  intros [Hlen Hnum] Hlt Hnone.
  set (n := numAxes capabilities) in *.
  set (new := mkAxisCaps (EAxis_ordinal axis) ff).
  set (capabilities' :=
         {| axisCapabilities := <[Z.to_nat n := new]> (axisCapabilities capabilities);
            numAxes := wrap_unsigned 3 (n + 1);
            numButtons := numButtons capabilities;
            hasPov := hasPov capabilities |}).
  assert (Happend : AppendAxis capabilities new = Some capabilities').
  { unfold AppendAxis. fold n. rewrite Hlen.
    destruct (Z.ltb_spec n (Z.of_nat 6)); [done|lia]. }
  assert (Hnum' : numAxes capabilities' = n + 1).
  { cbn. unfold wrap_unsigned. apply Z.mod_small. change (2 ^ 3) with 8. lia. }
  assert (Hold : forall k, 0 <= k < 0 + Z.of_nat (Z.to_nat n) ->
            axisCapabilities capabilities' !! Z.to_nat k
            = axisCapabilities capabilities !! Z.to_nat k).
  { intros k Hk. cbn. apply list_lookup_insert_ne. lia. }
  assert (Hnew : axisCapabilities capabilities' !! Z.to_nat n = Some new).
  { cbn. apply list_lookup_insert_eq. lia. }
  assert (Hfind : forall other,
            FindAxis capabilities' other
            = match FindAxis capabilities other with
              | Some index =>
                  if index =? -1
                  then if EAxis_ordinal axis =? EAxis_ordinal other
                       then Some n else Some (-1)
                  else Some index
              | None => None
              end).
  { intros other. unfold FindAxis. rewrite Hnum'. fold n.
    replace (Z.to_nat (n + 1)) with (Z.to_nat n + 1)%nat by lia.
    rewrite FindAxis_loop_app by lia.
    rewrite (FindAxis_loop_ext _ _ capabilities' capabilities) by (done || lia).
    destruct (FindAxis_loop (Z.to_nat n) 0 capabilities other) as [index|]; [|done].
    destruct (index =? -1); [|done].
    cbn [FindAxis_loop]. replace (0 + Z.of_nat (Z.to_nat n)) with n by lia.
    rewrite Hnew. cbn [type new]. by destruct (_ =? _). }
  exists capabilities'. split; [exact Happend|]. split.
  { split; [cbn; by rewrite length_insert|lia]. }
  split; [exact Hnum'|]. split; [|split].
  - rewrite Hfind, Hnone. cbn. by rewrite Z.eqb_refl.
  - unfold ForceFeedbackIsSupportedForAxis. rewrite Hnum'.
    replace (Z.to_nat (n + 1)) with (Z.to_nat n + 1)%nat by lia.
    assert (Hloop : forall m i, 0 <= i ->
              FindAxis_loop m i capabilities axis = Some (-1) ->
              (forall k, i <= k < i + Z.of_nat m ->
                 axisCapabilities capabilities' !! Z.to_nat k
                 = axisCapabilities capabilities !! Z.to_nat k) ->
              ForceFeedbackIsSupportedForAxis_loop (m + 1) i capabilities' axis
              = ForceFeedbackIsSupportedForAxis_loop 1 (i + Z.of_nat m)
                  capabilities' axis).
    { induction m as [|m IH]; intros i Hi Hloop Hext.
      - cbn [Nat.add]. by rewrite Z.add_0_r.
      - cbn [Nat.add ForceFeedbackIsSupportedForAxis_loop].
        cbn [FindAxis_loop] in Hloop. rewrite (Hext i) by lia.
        destruct (axisCapabilities capabilities !! Z.to_nat i) as [entry|]; [|done].
        destruct (type entry =? EAxis_ordinal axis).
        + injection Hloop as ->. lia.
        + rewrite IH; [|lia|done|intros k Hk; apply Hext; lia].
          by replace (i + 1 + Z.of_nat m) with (i + Z.of_nat (S m)) by lia. }
    rewrite Hloop; [|done|exact Hnone|exact Hold].
    cbn [ForceFeedbackIsSupportedForAxis_loop].
    replace (0 + Z.of_nat (Z.to_nat n)) with n by lia.
    rewrite Hnew. cbn [type new supportsForceFeedback]. by rewrite Z.eqb_refl.
  - intros other Hother. rewrite Hfind.
    destruct (FindAxis capabilities other) as [index|]; [|done].
    destruct (Z.eqb_spec index (-1)) as [->|]; [|done].
    destruct (Z.eqb_spec (EAxis_ordinal axis) (EAxis_ordinal other)) as [Heq|]; [|done].
    destruct axis, other; cbn in Heq; congruence.
Qed.

Lemma AppendAxis_FindAxis_witness :
  exists capabilities',
    AppendAxis SCapabilities_zero (mkAxisCaps (EAxis_ordinal EAxis_Z) true)
    = Some capabilities'
    /\ SCapabilities_wf capabilities'
    /\ numAxes capabilities' = numAxes SCapabilities_zero + 1
    /\ FindAxis capabilities' EAxis_Z = Some (numAxes SCapabilities_zero)
    /\ ForceFeedbackIsSupportedForAxis capabilities' EAxis_Z = Some true
    /\ forall other, other <> EAxis_Z ->
         FindAxis capabilities' other = FindAxis SCapabilities_zero other.
Proof.
  apply (AppendAxis_FindAxis SCapabilities_zero EAxis_Z true).
  - split; [reflexivity|cbn; lia].
  - reflexivity.
  - reflexivity.
Defined.

Lemma ForceFeedbackAxisCount_loop_spec (remaining : nat) (i : Z)
    (capabilities : SCapabilities) (count : Z) :
  0 <= i ->
  (Z.to_nat i + remaining <= length (axisCapabilities capabilities))%nat ->
  ForceFeedbackAxisCount_loop remaining i capabilities count
  = Some (count
          + Z.of_nat (length (filter (fun entry => supportsForceFeedback entry = true)
                                (take remaining
                                   (drop (Z.to_nat i)
                                      (axisCapabilities capabilities)))))).
Proof.
  revert i count. induction remaining as [|remaining IH]; intros i count Hi Hlen.
  - cbn [ForceFeedbackAxisCount_loop]. rewrite take_0, filter_nil. cbn [length].
    f_equal. lia.
  - cbn [ForceFeedbackAxisCount_loop].
    destruct (lookup_lt_is_Some_2 (axisCapabilities capabilities) (Z.to_nat i))
      as [entry Hentry]; [lia|].
    rewrite Hentry, (take_drop_S _ _ _ _ Hentry).
    rewrite IH; [|lia|lia].
    replace (S (Z.to_nat i)) with (Z.to_nat (i + 1)) by lia.
    rewrite filter_cons. f_equal.
    destruct (supportsForceFeedback entry); cbn.
    + rewrite decide_True by done. cbn [length]. lia.
    + rewrite decide_False by done. lia.
Qed.

Lemma ForceFeedbackIsSupported_loop_spec (remaining : nat) (i : Z)
    (capabilities : SCapabilities) :
  0 <= i ->
  (Z.to_nat i + remaining <= length (axisCapabilities capabilities))%nat ->
  ForceFeedbackIsSupported_loop remaining i capabilities
  = Some (bool_decide
            (filter (fun entry => supportsForceFeedback entry = true)
               (take remaining (drop (Z.to_nat i) (axisCapabilities capabilities)))
             <> [])).
Proof.
  revert i. induction remaining as [|remaining IH]; intros i Hi Hlen.
  - done.
  - cbn [ForceFeedbackIsSupported_loop].
    destruct (lookup_lt_is_Some_2 (axisCapabilities capabilities) (Z.to_nat i))
      as [entry Hentry]; [lia|].
    rewrite Hentry, (take_drop_S _ _ _ _ Hentry).
    replace (S (Z.to_nat i)) with (Z.to_nat (i + 1)) by lia.
    rewrite filter_cons. destruct (supportsForceFeedback entry) eqn:Hff.
    + rewrite decide_True by done. done.
    + rewrite decide_False by done. apply IH; lia.
Qed.

Lemma PresentAxes_take_drop (capabilities : SCapabilities) :
  take (Z.to_nat (numAxes capabilities))
    (drop (Z.to_nat 0) (axisCapabilities capabilities))
  = PresentAxes capabilities.
Proof. done. Qed.

(** X3: on a well-formed capabilities object the number of force feedback
    axes is between 0 and [numAxes], and force feedback is reported as
    supported exactly when that number is positive. *)
Theorem ForceFeedbackIsSupported_iff_count (capabilities : SCapabilities) :
  SCapabilities_wf capabilities ->
  exists count supported,
    ForceFeedbackAxisCount capabilities = Some count
    /\ ForceFeedbackIsSupported capabilities = Some supported
    /\ 0 <= count <= numAxes capabilities
    /\ (supported = true <-> 0 < count)
    /\ (supported = true
        <-> exists entry, entry ∈ PresentAxes capabilities
                          /\ supportsForceFeedback entry = true).
Proof.
  intros [Hlen Hnum].
  unfold ForceFeedbackAxisCount, ForceFeedbackIsSupported.
  rewrite ForceFeedbackAxisCount_loop_spec, ForceFeedbackIsSupported_loop_spec
    by lia.
  rewrite PresentAxes_take_drop.
  set (l := filter _ (PresentAxes capabilities)).
  eexists _, _. split; [done|]. split; [done|].
  assert (Hl : (length l <= length (PresentAxes capabilities))%nat)
    by apply length_filter.
  assert (Hp : (length (PresentAxes capabilities) <= Z.to_nat (numAxes capabilities))%nat).
  { unfold PresentAxes. rewrite length_take. lia. }
  split; [lia|]. rewrite bool_decide_eq_true. split.
  - destruct l; cbn; [split; [done|lia]|split; [lia|done]].
  - split.
    + intros Hne. destruct l as [|entry l'] eqn:El; [done|].
      exists entry.
      assert (Hel : entry ∈ l) by (rewrite El; left).
      apply list_elem_of_filter in Hel as [? ?]. done.
    + intros (entry & Hin & Hff) Heq.
      assert (Hel : entry ∈ l) by (by apply list_elem_of_filter).
      rewrite Heq in Hel. by apply elem_of_nil in Hel.
Qed.

Lemma ForceFeedbackIsSupported_iff_count_witness :
  let capabilities :=
    {| axisCapabilities :=
         [mkAxisCaps 0 true; mkAxisCaps 1 false; mkAxisCaps 5 true;
          mkAxisCaps 0 true; mkAxisCaps 0 false; mkAxisCaps 0 false];
       numAxes := 3; numButtons := 10; hasPov := true |} in
  ForceFeedbackAxisCount capabilities = Some 2
  /\ ForceFeedbackIsSupported capabilities = Some true.
Proof.
  intros capabilities.
  destruct (ForceFeedbackIsSupported_iff_count capabilities)
    as (count & supported & Hcount & Hsupported & _);
    [split; [reflexivity|cbn; lia]|].
  split; reflexivity.
Defined.

Lemma ForceFeedbackIsSupportedForAxis_loop_spec (remaining : nat) (i : Z)
    (capabilities : SCapabilities) (axis : EAxis) :
  0 <= i ->
  (Z.to_nat i + remaining <= length (axisCapabilities capabilities))%nat ->
  exists index,
    FindAxis_loop remaining i capabilities axis = Some index
    /\ ((index = -1
         /\ ForceFeedbackIsSupportedForAxis_loop remaining i capabilities axis
            = Some false)
        \/ (i <= index < i + Z.of_nat remaining
            /\ exists entry,
                 axisCapabilities capabilities !! Z.to_nat index = Some entry
                 /\ ForceFeedbackIsSupportedForAxis_loop remaining i capabilities axis
                    = Some (supportsForceFeedback entry))).
Proof.
  revert i. induction remaining as [|remaining IH]; intros i Hi Hlen.
  - exists (-1). split; [done|]. by left.
  - cbn [FindAxis_loop ForceFeedbackIsSupportedForAxis_loop].
    destruct (lookup_lt_is_Some_2 (axisCapabilities capabilities) (Z.to_nat i))
      as [entry Hentry]; [lia|].
    rewrite Hentry. destruct (type entry =? EAxis_ordinal axis).
    + exists i. split; [done|]. right. split; [lia|]. by exists entry.
    + destruct (IH (i + 1)) as (index & Hfind & Hspec); [lia|lia|].
      exists index. split; [done|].
      destruct Hspec as [[-> Hfalse]|(Hrange & entry' & Hentry' & Hff)].
      * by left.
      * right. split; [lia|]. by exists entry'.
Qed.

(** X4: on a well-formed capabilities object
    [ForceFeedbackIsSupportedForAxis] reports the flag of the entry that
    [FindAxis] locates, and [false] for an axis that is not present; when it
    reports [true] the axis is present and force feedback is supported. *)
Theorem ForceFeedbackIsSupportedForAxis_FindAxis (capabilities : SCapabilities)
    (axis : EAxis) :
  SCapabilities_wf capabilities ->
  (exists index,
     FindAxis capabilities axis = Some index
     /\ ((index = -1
          /\ ForceFeedbackIsSupportedForAxis capabilities axis = Some false)
         \/ (0 <= index < numAxes capabilities
             /\ exists entry,
                  axisCapabilities capabilities !! Z.to_nat index = Some entry
                  /\ ForceFeedbackIsSupportedForAxis capabilities axis
                     = Some (supportsForceFeedback entry))))
  /\ (ForceFeedbackIsSupportedForAxis capabilities axis = Some true ->
      HasAxis capabilities axis = Some true
      /\ ForceFeedbackIsSupported capabilities = Some true).
Proof.
  intros [Hlen Hnum].
  destruct (ForceFeedbackIsSupportedForAxis_loop_spec
              (Z.to_nat (numAxes capabilities)) 0 capabilities axis)
    as (index & Hfind & Hspec); [lia|lia|].
  split.
  - exists index. split; [exact Hfind|].
    destruct Hspec as [[-> Hfalse]|(Hrange & entry & Hentry & Hff)].
    + by left.
    + right. split; [lia|]. by exists entry.
  - intros Htrue. unfold ForceFeedbackIsSupportedForAxis in Htrue.
    destruct Hspec as [[-> Hfalse]|(Hrange & entry & Hentry & Hff)]; [congruence|].
    rewrite Hff in Htrue. injection Htrue as Htrue. split.
    + unfold HasAxis, FindAxis. rewrite Hfind. f_equal.
      destruct (Z.eqb_spec (-1) index); [lia|done].
    + unfold ForceFeedbackIsSupported.
      rewrite ForceFeedbackIsSupported_loop_spec, PresentAxes_take_drop by lia.
      f_equal. apply bool_decide_eq_true. intros Hnil.
      assert (Hel : entry ∈ filter (fun e => supportsForceFeedback e = true)
                              (PresentAxes capabilities)).
      { apply list_elem_of_filter. split; [done|].
        apply list_elem_of_lookup. exists (Z.to_nat index).
        rewrite PresentAxes_lookup by lia. done. }
      rewrite Hnil in Hel. by apply elem_of_nil in Hel.
Qed.

Lemma ForceFeedbackIsSupportedForAxis_FindAxis_witness :
  let capabilities :=
    {| axisCapabilities :=
         [mkAxisCaps 0 false; mkAxisCaps 1 false; mkAxisCaps 5 true;
          mkAxisCaps 0 false; mkAxisCaps 0 false; mkAxisCaps 0 false];
       numAxes := 3; numButtons := 10; hasPov := true |} in
  HasAxis capabilities EAxis_RotZ = Some true
  /\ ForceFeedbackIsSupported capabilities = Some true.
Proof.
  intros capabilities.
  apply (ForceFeedbackIsSupportedForAxis_FindAxis capabilities EAxis_RotZ).
  - split; [reflexivity|cbn; lia].
  - reflexivity.
Defined.

Lemma SAxisCapabilities_eqb_eq (a b : SAxisCapabilities) :
  SAxisCapabilities_eqb a b = true <-> a = b.
Proof.
  unfold SAxisCapabilities_eqb. rewrite andb_true_iff, Z.eqb_eq, eqb_true_iff.
  destruct a, b; cbn. split; [by intros [-> ->]|by intros [= -> ->]].
Qed.

Lemma std_equal_spec (count i : nat) (first1 first2 : list SAxisCapabilities) :
  (i + count <= length first1)%nat -> (i + count <= length first2)%nat ->
  exists result,
    std_equal count i first1 first2 = Some result
    /\ (result = true
        <-> take count (drop i first1) = take count (drop i first2)).
Proof.
  revert i. induction count as [|count IH]; intros i H1 H2.
  - exists true. by rewrite !take_0.
  - cbn [std_equal].
    destruct (lookup_lt_is_Some_2 first1 i) as [a Ha]; [lia|].
    destruct (lookup_lt_is_Some_2 first2 i) as [b Hb]; [lia|].
    rewrite Ha, Hb, (take_drop_S _ _ _ _ Ha), (take_drop_S _ _ _ _ Hb).
    destruct (SAxisCapabilities_eqb a b) eqn:Hab.
    + apply SAxisCapabilities_eqb_eq in Hab as ->.
      destruct (IH (S i)) as (result & Hresult & Hspec); [lia|lia|].
      exists result. split; [done|]. rewrite Hspec. split; [by intros ->|].
      by intros [= ->].
    + exists false. split; [done|]. split; [done|]. intros [= Heq _].
      apply SAxisCapabilities_eqb_eq in Heq. congruence.
Qed.

(** X5: on well-formed capabilities objects [operator==] holds exactly when
    the two objects have the same [numAxes], [numButtons] and [hasPov] and the
    same valid entries; what the arrays hold from index [numAxes] on is not
    compared. *)
Theorem SCapabilities_eqb_valid_entries (this other : SCapabilities) :
  SCapabilities_wf this -> SCapabilities_wf other ->
  exists result,
    SCapabilities_eqb this other = Some result
    /\ (result = true
        <-> numAxes other = numAxes this
            /\ numButtons other = numButtons this
            /\ hasPov other = hasPov this
            /\ PresentAxes other = PresentAxes this).
Proof.
  intros [Hlen1 Hnum1] [Hlen2 Hnum2]. unfold SCapabilities_eqb.
  destruct (Z.eqb_spec (numAxes other) (numAxes this)) as [Ha|Ha]; cbn [negb];
    [|exists false; split; [done|]; split; [done|]; by intros [? _]].
  destruct (Z.eqb_spec (numButtons other) (numButtons this)) as [Hb|Hb]; cbn [negb];
    [|exists false; split; [done|]; split; [done|]; by intros (_ & ? & _)].
  destruct (Bool.eqb (hasPov other) (hasPov this)) eqn:Hp; cbn [negb].
  - apply eqb_prop in Hp.
    destruct (std_equal_spec (Z.to_nat (numAxes this)) 0
                (axisCapabilities other) (axisCapabilities this))
      as (result & Hresult & Hspec); [lia|lia|].
    exists result. split; [done|]. rewrite Hspec. unfold PresentAxes. rewrite Ha.
    cbn [drop]. tauto.
  - exists false. split; [done|]. split; [done|]. intros (_ & _ & Heq & _).
    rewrite Heq, eqb_reflx in Hp. done.
Qed.

Lemma SCapabilities_eqb_valid_entries_witness :
  SCapabilities_eqb
    {| axisCapabilities :=
         [mkAxisCaps 0 false; mkAxisCaps 1 false; mkAxisCaps 5 true;
          mkAxisCaps 0 false; mkAxisCaps 0 false; mkAxisCaps 0 false];
       numAxes := 3; numButtons := 10; hasPov := true |}
    {| axisCapabilities :=
         [mkAxisCaps 0 false; mkAxisCaps 1 false; mkAxisCaps 5 true;
          mkAxisCaps 3 true; mkAxisCaps 4 true; mkAxisCaps 2 false];
       numAxes := 3; numButtons := 10; hasPov := true |} = Some true.
Proof.
  match goal with
  | |- SCapabilities_eqb ?this ?other = _ =>
      destruct (SCapabilities_eqb_valid_entries this other)
        as (result & Hresult & Hspec);
      [split; [reflexivity|cbn; lia]|split; [reflexivity|cbn; lia]|]
  end.
  rewrite Hresult. f_equal. apply Hspec. repeat split; reflexivity.
Defined.

(** X6: [SPhysicalState::operator==] is an equivalence relation; it holds
    exactly when the error codes agree and, if they are zero, the packet
    numbers agree as well, and it never looks at the controller reading. *)
Theorem SPhysicalState_eqb_equivalence :
  (forall a b,
     SPhysicalState_eqb a b = true
     <-> errorCode a = errorCode b
         /\ (errorCode a = 0 -> dwPacketNumber a = dwPacketNumber b))
  /\ (forall a, SPhysicalState_eqb a a = true)
  /\ (forall a b, SPhysicalState_eqb a b = SPhysicalState_eqb b a)
  /\ (forall a b c,
        SPhysicalState_eqb a b = true -> SPhysicalState_eqb b c = true ->
        SPhysicalState_eqb a c = true)
  /\ (forall a b reading1 reading2,
        SPhysicalState_eqb
          (mkPhysicalState (errorCode a) (dwPacketNumber a) reading1)
          (mkPhysicalState (errorCode b) (dwPacketNumber b) reading2)
        = SPhysicalState_eqb a b).
Proof.
  assert (Hspec : forall a b,
            SPhysicalState_eqb a b = true
            <-> errorCode a = errorCode b
                /\ (errorCode a = 0 -> dwPacketNumber a = dwPacketNumber b)).
  { intros a b. unfold SPhysicalState_eqb.
    destruct (Z.eqb_spec (errorCode a) (errorCode b)) as [He|He]; cbn [negb];
      [|split; [done|by intros [? _]]].
    destruct (Z.eqb_spec (errorCode a) 0) as [Hz|Hz]; cbn [andb];
      [|split; [split; [done|by intros ?]|done]].
    destruct (Z.eqb_spec (dwPacketNumber a) (dwPacketNumber b)) as [Hp|Hp]; cbn [negb].
    - split; [by split|done].
    - split; [done|]. intros [_ Hq]. by specialize (Hq Hz). }
  split; [exact Hspec|]. split; [|split; [|split]].
  - intros a. by apply Hspec.
  - intros a b. apply eq_true_iff_eq. rewrite !Hspec. split.
    + intros [He Hp]. split; [done|]. intros Hz. symmetry. apply Hp. congruence.
    + intros [He Hp]. split; [done|]. intros Hz. symmetry. apply Hp. congruence.
  - intros a b c. rewrite !Hspec. intros [He1 Hp1] [He2 Hp2].
    split; [congruence|]. intros Hz. rewrite Hp1 by done. apply Hp2. congruence.
  - intros a b reading1 reading2. reflexivity.
Qed.

(** ** Queries on derived capabilities *)

Lemma AppendAxes_length (ff : BitSetEnum) (present : list Z)
    (capabilities capabilities' : SCapabilities) :
  AppendAxes ff present capabilities = Some capabilities' ->
  length (axisCapabilities capabilities') = length (axisCapabilities capabilities).
Proof.
  revert capabilities. induction present as [|a present IH]; intros capabilities.
  - cbn. by intros [= ->].
  - cbn [AppendAxes]. unfold AppendAxis.
    destruct (numAxes capabilities <? _); [|done].
    intros Happend. apply IH in Happend. rewrite Happend. cbn.
    apply length_insert.
Qed.

Lemma StronglySorted_lookup_lt (l : list Z) (i j : nat) (x y : Z) :
  StronglySorted Z.lt l -> l !! i = Some x -> l !! j = Some y ->
  (i < j)%nat -> x < y.
Proof.
  intros Hsorted. revert i j. induction Hsorted as [|z l Hl IH Hz]; intros i j.
  - by rewrite lookup_nil.
  - destruct i as [|i], j as [|j]; cbn; try lia.
    + intros [= <-] Hy _. eapply Forall_forall in Hz; [exact Hz|].
      by eapply list_elem_of_lookup_2.
    + intros Hx Hy Hij. apply (IH i j); [done|done|lia].
Qed.

Lemma AxisTypeAt_PresentAxes (capabilities : SCapabilities) (k t : Z) :
  SCapabilities_wf capabilities ->
  AxisTypeAt capabilities k = Some t
  <-> 0 <= k /\ (type <$> PresentAxes capabilities) !! Z.to_nat k = Some t.
Proof.
  intros [Hlen Hnum]. rewrite AxisTypeAt_Some, list_lookup_fmap, fmap_Some.
  split.
  - intros (Hk & entry & Hentry & <-). split; [lia|].
    exists entry. by rewrite PresentAxes_lookup.
  - intros (Hk & entry & Hentry & ->).
    assert (Hlt : (Z.to_nat k < length (PresentAxes capabilities))%nat)
      by (by eapply lookup_lt_Some).
    unfold PresentAxes in Hlt. rewrite length_take in Hlt.
    split; [lia|]. exists entry. by rewrite <- PresentAxes_lookup by lia.
Qed.

Lemma StronglySorted_lt_NoDup (l : list Z) : StronglySorted Z.lt l -> NoDup l.
Proof.
  induction 1 as [|x l Hl IH Hx]; constructor; [|exact IH].
  intros Hin. eapply Forall_forall in Hx; [|exact Hin]. lia.
Qed.

Section DerivedQueries.
Context `{MapperConstants}.

(** The capabilities derived for a mapper, by the variables of the two
    loops. *)
Lemma DeriveCapabilitiesFromElementMap_wf (elements : UElementMap)
    (forceFeedbackActuators : UForceFeedbackActuatorMap) :
  let vars := DeriveScan elements forceFeedbackActuators in
  exists capabilities,
    DeriveCapabilitiesFromElementMap elements forceFeedbackActuators
    = Some capabilities
    /\ SCapabilities_wf capabilities
    /\ PresentAxes capabilities
       = (fun a => mkAxisCaps a (BitSetEnum_contains (axesForceFeedback vars) a))
           <$> BitSetEnum_elements EAxis_Count (axesPresent vars)
    /\ type <$> PresentAxes capabilities
       = BitSetEnum_elements EAxis_Count (axesPresent vars)
    /\ numButtons capabilities = wrap_unsigned 5 (highestButtonSeen vars + 1).
Proof.
  intros vars.
  destruct (DeriveCapabilitiesFromElementMap_ok elements forceFeedbackActuators)
    as (c & Hc & Haxes & Hnum & Hbuttons & _).
  fold vars in Haxes, Hnum, Hbuttons.
  exists c. split; [exact Hc|].
  pose proof (BitSetEnum_elements_length (axesPresent vars)) as Hlen.
  split; [|split; [exact Haxes|split; [|exact Hbuttons]]].
  - split; [|lia].
    unfold DeriveCapabilitiesFromElementMap in Hc. fold vars in Hc.
    destruct (AppendAxes _ _ SCapabilities_zero) as [c0|] eqn:Happend; [|done].
    injection Hc as <-. cbn [axisCapabilities].
    by rewrite (AppendAxes_length _ _ _ _ Happend).
  - rewrite Haxes, <- list_fmap_compose. apply list_fmap_id.
Qed.

(** What the queries return on the capabilities derived for a mapper, by
    the variables of the two loops. *)
Lemma DerivedCapabilities_scan (elements : UElementMap)
    (forceFeedbackActuators : UForceFeedbackActuatorMap) :
  let vars := DeriveScan elements forceFeedbackActuators in
  exists capabilities,
    DeriveCapabilitiesFromElementMap elements forceFeedbackActuators
    = Some capabilities
    /\ SCapabilities_wf capabilities
    /\ (forall a : EAxis,
          is_Some (HasAxis capabilities a)
          /\ (HasAxis capabilities a = Some true
              <-> BitSetEnum_contains (axesPresent vars) (EAxis_ordinal a) = true))
    /\ (forall a : EAxis,
          is_Some (ForceFeedbackIsSupportedForAxis capabilities a)
          /\ (ForceFeedbackIsSupportedForAxis capabilities a = Some true
              <-> HasAxis capabilities a = Some true
                  /\ BitSetEnum_contains (axesForceFeedback vars)
                       (EAxis_ordinal a) = true))
    /\ (forall (a b : EAxis) (i j : Z),
          FindAxis capabilities a = Some i -> FindAxis capabilities b = Some j ->
          0 <= i -> 0 <= j ->
          (EAxis_ordinal a < EAxis_ordinal b <-> i < j)).
Proof.
  intros vars.
  destruct (DeriveCapabilitiesFromElementMap_wf elements forceFeedbackActuators)
    as (c & Hc & Hwf & Haxes & Htypes & _).
  fold vars in Haxes, Htypes. clearbody vars.
  set (present := BitSetEnum_elements EAxis_Count (axesPresent vars)) in *.
  assert (Hord : forall a : EAxis, 0 <= EAxis_ordinal a < EAxis_Count)
    by (intros []; cbn; unfold EAxis_Count; lia).
  assert (Hat : forall k t, AxisTypeAt c k = Some t
                            <-> 0 <= k /\ present !! Z.to_nat k = Some t).
  { intros k t. by rewrite AxisTypeAt_PresentAxes, Htypes. }
  (* what [FindAxis] returns *)
  assert (Hfind : forall a : EAxis,
            exists index,
              FindAxis c a = Some index
              /\ ((index = -1 /\ EAxis_ordinal a ∉ present)
                  \/ (0 <= index
                      /\ present !! Z.to_nat index = Some (EAxis_ordinal a)))).
  { intros a. destruct Hwf as [Hlen Hnum].
    destruct (FindAxis_loop_spec (Z.to_nat (numAxes c)) 0 c a)
      as (index & Hindex & Hspec); [lia|lia|].
    exists index. split; [exact Hindex|].
    destruct Hspec as [[-> Hnone]|(Hrange & (entry & Hentry & Htype) & _)].
    - left. split; [done|]. intros Hin.
      apply list_elem_of_lookup in Hin as [k Hk].
      assert (Hfound : AxisTypeAt c (Z.of_nat k) = Some (EAxis_ordinal a)).
      { apply Hat. split; [lia|]. by rewrite Nat2Z.id. }
      apply AxisTypeAt_Some in Hfound as (Hk' & e & He & Ht).
      apply (Hnone (Z.of_nat k) e); [lia|done|done].
    - right. split; [lia|].
      assert (Hfound : AxisTypeAt c index = Some (EAxis_ordinal a)).
      { apply AxisTypeAt_Some. split; [lia|]. by exists entry. }
      by apply Hat in Hfound as [_ ?]. }
  assert (Hhas : forall a : EAxis,
            is_Some (HasAxis c a)
            /\ (HasAxis c a = Some true <-> EAxis_ordinal a ∈ present)).
  { intros a. destruct (Hfind a) as (index & Hindex & Hspec).
    unfold HasAxis. rewrite Hindex. split; [done|].
    destruct Hspec as [[-> Hnotin]|[Hpos Hlookup]].
    - split; [done|]. intros Hin. by destruct Hnotin.
    - destruct (Z.eqb_spec (-1) index); [lia|]. split; [|done].
      intros _. by eapply list_elem_of_lookup_2. }
  assert (Hpresent : forall a : EAxis,
            EAxis_ordinal a ∈ present
            <-> BitSetEnum_contains (axesPresent vars) (EAxis_ordinal a) = true).
  { intros a. unfold present. rewrite BitSetEnum_elements_spec.
    specialize (Hord a). tauto. }
  exists c. split; [exact Hc|]. split; [exact Hwf|]. split; [|split].
  - intros a. destruct (Hhas a) as [Hsome Hiff]. split; [exact Hsome|].
    by rewrite Hiff, Hpresent.
  - intros a. destruct Hwf as [Hlen Hnum].
    destruct (ForceFeedbackIsSupportedForAxis_loop_spec
                (Z.to_nat (numAxes c)) 0 c a) as (index & Hindex & Hspec);
      [lia|lia|].
    fold (FindAxis c a) in Hindex.
    fold (ForceFeedbackIsSupportedForAxis c a) in Hspec.
    destruct (Hfind a) as (index' & Hindex' & Hspec').
    rewrite Hindex in Hindex'. injection Hindex' as <-.
    destruct (Hhas a) as [_ Hiff]. rewrite Hiff.
    destruct Hspec as [[-> Hfalse]|(Hrange & entry & Hentry & Hff)].
    + rewrite Hfalse. split; [done|]. split; [done|]. intros [Hin _].
      destruct Hspec' as [[_ Hnotin]|[? _]]; [by destruct Hnotin|lia].
    + rewrite Hff. split; [done|].
      destruct Hspec' as [[? _]|[_ Hlookup]]; [lia|].
      assert (Hentry' : PresentAxes c !! Z.to_nat index = Some entry)
        by (rewrite PresentAxes_lookup by lia; exact Hentry).
      rewrite Haxes, list_lookup_fmap in Hentry'. fold present in Hentry'.
      rewrite Hlookup in Hentry'. cbn [fmap option_fmap option_map] in Hentry'.
      injection Hentry' as <-.
      cbn [supportsForceFeedback].
      assert (EAxis_ordinal a ∈ present) by (by eapply list_elem_of_lookup_2).
      split; [by intros [= ->]|]. by intros [_ ->].
  - intros a b i j Hi Hj Hi0 Hj0.
    destruct (Hfind a) as (i' & Hi' & Hspeci). rewrite Hi in Hi'.
    injection Hi' as <-.
    destruct (Hfind b) as (j' & Hj' & Hspecj). rewrite Hj in Hj'.
    injection Hj' as <-.
    destruct Hspeci as [[? _]|[_ Hli]]; [lia|].
    destruct Hspecj as [[? _]|[_ Hlj]]; [lia|].
    pose proof (BitSetEnum_elements_sorted EAxis_Count (axesPresent vars)) as Hsorted.
    fold present in Hsorted. split.
    + intros Hab. destruct (Z.lt_ge_cases i j) as [|Hge]; [done|].
      destruct (Z.eq_dec i j) as [->|Hne].
      * rewrite Hli in Hlj. injection Hlj as Heq. lia.
      * pose proof (StronglySorted_lookup_lt present (Z.to_nat j) (Z.to_nat i)
                      _ _ Hsorted Hlj Hli ltac:(lia)). lia.
    + intros Hij.
      apply (StronglySorted_lookup_lt present (Z.to_nat i) (Z.to_nat j)
               _ _ Hsorted Hli Hlj). lia.
Qed.

(** X7: for the capabilities derived for a mapper, [HasAxis] holds of the
    axes that are required, targeted by an element mapper or bound to an
    actuator; [ForceFeedbackIsSupportedForAxis] holds of those present axes
    for which force feedback is required or to which an actuator is bound;
    and [FindAxis] numbers the present axes in the order of the axis
    enumeration. *)
Theorem DerivedCapabilities_queries (elements : UElementMap)
    (forceFeedbackActuators : UForceFeedbackActuatorMap) :
  exists capabilities,
    DeriveCapabilitiesFromElementMap elements forceFeedbackActuators
    = Some capabilities
    /\ SCapabilities_wf capabilities
    /\ (forall a : EAxis,
          is_Some (HasAxis capabilities a)
          /\ (HasAxis capabilities a = Some true
              <-> BitSetEnum_contains kRequiredAxes (EAxis_ordinal a) = true
                  \/ Targets elements (Element_Axis (EAxis_ordinal a))
                  \/ Binds forceFeedbackActuators a))
    /\ (forall a : EAxis,
          is_Some (ForceFeedbackIsSupportedForAxis capabilities a)
          /\ (ForceFeedbackIsSupportedForAxis capabilities a = Some true
              <-> HasAxis capabilities a = Some true
                  /\ (BitSetEnum_contains kRequiredForceFeedbackAxes
                        (EAxis_ordinal a) = true
                      \/ Binds forceFeedbackActuators a)))
    /\ (forall (a b : EAxis) (i j : Z),
          FindAxis capabilities a = Some i -> FindAxis capabilities b = Some j ->
          0 <= i -> 0 <= j ->
          (EAxis_ordinal a < EAxis_ordinal b <-> i < j)).
Proof.
  destruct (DerivedCapabilities_scan elements forceFeedbackActuators)
    as (c & Hc & Hwf & Hhas & Hff & Horder).
  destruct (DeriveScan_spec elements forceFeedbackActuators) as (Sa & Sf & _).
  exists c. split; [exact Hc|]. split; [exact Hwf|].
  split; [|split; [|exact Horder]].
  - intros a. destruct (Hhas a) as [Hsome Hiff]. split; [exact Hsome|].
    by rewrite Hiff, Sa.
  - intros a. destruct (Hff a) as [Hsome Hiff]. split; [exact Hsome|].
    by rewrite Hiff, Sf.
Qed.

(** X8: the capabilities derived for a mapper never report more buttons than
    the controller state holds, provided the required minimum does not; a
    button is reported exactly when it is below the required minimum or some
    element mapper targets it or a higher button. *)
Theorem DerivedCapabilities_buttons (elements : UElementMap)
    (forceFeedbackActuators : UForceFeedbackActuatorMap) :
  0 <= kMinNumButtons <= EButton_Count ->
  exists capabilities,
    DeriveCapabilitiesFromElementMap elements forceFeedbackActuators
    = Some capabilities
    /\ 0 <= numButtons capabilities <= EButton_Count
    /\ (forall button,
          HasButton capabilities button = true
          <-> button < kMinNumButtons
              \/ exists higher, button <= higher < EButton_Count
                                /\ Targets elements (Element_Button higher)).
Proof.
  intros Hmin.
  destruct (DeriveCapabilitiesFromElementMap_wf elements forceFeedbackActuators)
    as (c & Hc & _ & _ & _ & Hbuttons).
  destruct (DeriveScan_spec elements forceFeedbackActuators)
    as (_ & _ & Sle & Sb & Sh & _).
  set (vars := DeriveScan elements forceFeedbackActuators) in *. clearbody vars.
  unfold EButton_Count in *.
  assert (Hrange : -1 <= highestButtonSeen vars < 16) by (destruct Sh; lia).
  assert (Hnum : numButtons c = highestButtonSeen vars + 1).
  { rewrite Hbuttons. unfold wrap_unsigned. change (2 ^ 5) with 32.
    apply Z.mod_small. lia. }
  exists c. split; [exact Hc|]. split; [lia|].
  intros button. unfold HasButton. rewrite Z.ltb_lt, Hnum. split.
  - intros Hlt. destruct Sh as [Heq|[Hlt16 Htarget]]; [left; lia|].
    right. exists (highestButtonSeen vars). split; [lia|done].
  - intros [Hlt|(higher & Hhigher & Htarget)]; [lia|].
    pose proof (Sb higher ltac:(lia) Htarget). lia.
Qed.

(** X9: assigning element mappers to further elements of a mapper never
    takes capabilities away: every axis that was present stays present, with
    force feedback if it had it, and the numbers of axes and of buttons and
    the POV flag do not decrease. *)
Theorem DeriveCapabilities_monotone (elements elements' : UElementMap)
    (forceFeedbackActuators : UForceFeedbackActuatorMap) :
  0 <= kMinNumButtons <= EButton_Count ->
  (forall e m, elements e = Some m -> elements' e = Some m) ->
  exists capabilities capabilities',
    DeriveCapabilitiesFromElementMap elements forceFeedbackActuators
    = Some capabilities
    /\ DeriveCapabilitiesFromElementMap elements' forceFeedbackActuators
       = Some capabilities'
    /\ (forall a, HasAxis capabilities a = Some true ->
          HasAxis capabilities' a = Some true)
    /\ (forall a, ForceFeedbackIsSupportedForAxis capabilities a = Some true ->
          ForceFeedbackIsSupportedForAxis capabilities' a = Some true)
    /\ numAxes capabilities <= numAxes capabilities'
    /\ numButtons capabilities <= numButtons capabilities'
    /\ (hasPov capabilities = true -> hasPov capabilities' = true).
Proof.
  intros Hmin Hsub.
  assert (Htargets : forall t, Targets elements t -> Targets elements' t).
  { intros t (e & m & j & He & Hj & Ht). exists e, m, j. auto. }
  destruct (DerivedCapabilities_scan elements forceFeedbackActuators)
    as (c & Hc & Hwf & Hhas & Hff & _).
  destruct (DerivedCapabilities_scan elements' forceFeedbackActuators)
    as (c' & Hc' & Hwf' & Hhas' & Hff' & _).
  assert (Hmono : forall a, HasAxis c a = Some true -> HasAxis c' a = Some true).
  { intros a Ha. apply Hhas'. apply Hhas in Ha.
    destruct (DeriveScan_spec elements forceFeedbackActuators) as (Sa & _).
    destruct (DeriveScan_spec elements' forceFeedbackActuators) as (Sa' & _).
    apply Sa'. apply Sa in Ha. intuition. }
  exists c, c'. split; [exact Hc|]. split; [exact Hc'|]. split; [exact Hmono|].
  split; [|split; [|split]].
  - intros a Ha. apply Hff'. apply Hff in Ha as [Ha Hflag]. split; [auto|].
    destruct (DeriveScan_spec elements forceFeedbackActuators) as (_ & Sf & _).
    destruct (DeriveScan_spec elements' forceFeedbackActuators) as (_ & Sf' & _).
    apply Sf'. by apply Sf in Hflag.
  - destruct (DeriveCapabilitiesFromElementMap_wf elements forceFeedbackActuators)
      as (c0 & Hc0 & _ & _ & Htypes & _).
    rewrite Hc in Hc0. injection Hc0 as <-.
    destruct (DeriveCapabilitiesFromElementMap_wf elements' forceFeedbackActuators)
      as (c0 & Hc0 & _ & _ & Htypes' & _).
    rewrite Hc' in Hc0. injection Hc0 as <-.
    destruct (DeriveCapabilitiesFromElementMap_ok elements forceFeedbackActuators)
      as (c0 & Hc0 & _ & Hnum & _).
    rewrite Hc in Hc0. injection Hc0 as <-.
    destruct (DeriveCapabilitiesFromElementMap_ok elements' forceFeedbackActuators)
      as (c0 & Hc0 & _ & Hnum' & _).
    rewrite Hc' in Hc0. injection Hc0 as <-.
    destruct (DeriveScan_spec elements forceFeedbackActuators) as (Sa & _).
    destruct (DeriveScan_spec elements' forceFeedbackActuators) as (Sa' & _).
    rewrite Hnum, Hnum'. apply inj_le, submseteq_length, NoDup_submseteq.
    + apply StronglySorted_lt_NoDup, BitSetEnum_elements_sorted.
    + intros t Ht. apply BitSetEnum_elements_spec in Ht as [Ht Hrange].
      apply BitSetEnum_elements_spec. split; [|exact Hrange].
      assert (Haxis : exists a : EAxis, t = EAxis_ordinal a).
      { unfold EAxis_Count in Hrange.
        assert (Hcases : t = 0 \/ t = 1 \/ t = 2 \/ t = 3 \/ t = 4 \/ t = 5) by lia.
        destruct Hcases as [->|[->|[->|[->|[->| ->]]]]];
          [by exists EAxis_X|by exists EAxis_Y|by exists EAxis_Z
          |by exists EAxis_RotX|by exists EAxis_RotY|by exists EAxis_RotZ]. }
      destruct Haxis as [a ->]. apply Sa'. apply Sa in Ht. intuition.
  - destruct (DeriveCapabilitiesFromElementMap_wf elements forceFeedbackActuators)
      as (c0 & Hc0 & _ & _ & _ & Hbuttons).
    rewrite Hc in Hc0. injection Hc0 as <-.
    destruct (DeriveCapabilitiesFromElementMap_wf elements' forceFeedbackActuators)
      as (c0 & Hc0 & _ & _ & _ & Hbuttons').
    rewrite Hc' in Hc0. injection Hc0 as <-.
    destruct (DeriveScan_spec elements forceFeedbackActuators)
      as (_ & _ & Sle & Sb & Sh & _).
    destruct (DeriveScan_spec elements' forceFeedbackActuators)
      as (_ & _ & Sle' & Sb' & Sh' & _).
    set (vars := DeriveScan elements forceFeedbackActuators) in *. clearbody vars.
    set (vars' := DeriveScan elements' forceFeedbackActuators) in *. clearbody vars'.
    unfold EButton_Count in *.
    rewrite Hbuttons, Hbuttons'. unfold wrap_unsigned. change (2 ^ 5) with 32.
    rewrite !Z.mod_small by (destruct Sh, Sh'; lia).
    destruct Sh as [->|[Hlt Htarget]]; [lia|].
    pose proof (Sb' _ Hlt (Htargets _ Htarget)). lia.
  - destruct (DeriveCapabilitiesFromElementMap_ok elements forceFeedbackActuators)
      as (c0 & Hc0 & _ & _ & _ & Hpov).
    rewrite Hc in Hc0. injection Hc0 as <-.
    destruct (DeriveCapabilitiesFromElementMap_ok elements' forceFeedbackActuators)
      as (c0 & Hc0 & _ & _ & _ & Hpov').
    rewrite Hc' in Hc0. injection Hc0 as <-.
    destruct (DeriveScan_spec elements forceFeedbackActuators)
      as (_ & _ & _ & _ & _ & Sp).
    destruct (DeriveScan_spec elements' forceFeedbackActuators)
      as (_ & _ & _ & _ & _ & Sp').
    rewrite Hpov, Hpov'. intros Hp. apply Sp'. apply Sp in Hp. intuition.
Qed.

End DerivedQueries.

Lemma DerivedCapabilities_buttons_witness :
  exists capabilities,
    @DeriveCapabilitiesFromElementMap (mkMapperConstants 3 0 2 false)
      (UElementMap_single stickLeftX (ProbeMapper EAxis_Z))
      UForceFeedbackActuatorMap_empty = Some capabilities
    /\ 0 <= numButtons capabilities <= EButton_Count
    /\ HasButton capabilities 1 = true.
Proof.
  destruct (@DerivedCapabilities_buttons (mkMapperConstants 3 0 2 false)
              (UElementMap_single stickLeftX (ProbeMapper EAxis_Z))
              UForceFeedbackActuatorMap_empty)
    as (c & Hc & Hrange & Hhas); [cbn; unfold EButton_Count; lia|].
  exists c. split; [exact Hc|]. split; [exact Hrange|].
  apply Hhas. left. cbn. lia.
Defined.

Lemma DeriveCapabilities_monotone_witness :
  exists capabilities capabilities',
    @DeriveCapabilitiesFromElementMap (mkMapperConstants 3 0 2 false)
      UElementMap_empty UForceFeedbackActuatorMap_empty = Some capabilities
    /\ @DeriveCapabilitiesFromElementMap (mkMapperConstants 3 0 2 false)
         (UElementMap_single stickLeftX (ProbeMapper EAxis_Z))
         UForceFeedbackActuatorMap_empty = Some capabilities'
    /\ numAxes capabilities <= numAxes capabilities'
    /\ numButtons capabilities <= numButtons capabilities'.
Proof.
  destruct (@DeriveCapabilities_monotone (mkMapperConstants 3 0 2 false)
              UElementMap_empty
              (UElementMap_single stickLeftX (ProbeMapper EAxis_Z))
              UForceFeedbackActuatorMap_empty)
    as (c & c' & Hc & Hc' & _ & _ & Haxes & Hbuttons & _).
  - cbn. unfold EButton_Count. lia.
  - intros e m He. discriminate He.
  - exists c, c'. repeat split; assumption.
Defined.

(** ** The registry: invariants and round trips *)

(** The default designation of a reachable registry is empty or names a
    registered mapper. *)
Lemma Reachable_default_registered (r : MapperRegistry) :
  Reachable r ->
  defaultMapper r = "" \/ is_Some (knownMappers r !! defaultMapper r).
Proof.
  induction 1 as [|name this r Hr IH|name this r Hr IH].
  - by left.
  - unfold Mapper_construct, RegisterMapper.
    destruct (wstring_empty name) eqn:Hname; cbn [negb]; [exact IH|].
    cbn [defaultMapper knownMappers].
    destruct (wstring_empty (defaultMapper r)) eqn:Hdefault.
    + right. by rewrite lookup_insert_eq.
    + right. apply wstring_empty_false in Hdefault.
      destruct IH as [|[p Hp]]; [done|].
      destruct (decide (name = defaultMapper r)) as [->|Hne].
      * by rewrite lookup_insert_eq.
      * rewrite lookup_insert_ne by done. by exists p.
  - unfold Mapper_destroy, UnregisterMapper.
    destruct (wstring_empty name) eqn:Hname; cbn [negb]; [exact IH|].
    destruct (knownMappers r !! name) as [registered|] eqn:Hknown; [|exact IH].
    destruct (Pos.eqb this registered); cbn [negb]; [|exact IH].
    cbn [defaultMapper knownMappers].
    destruct (String.eqb_spec (defaultMapper r) name) as [Heq|Hne]; [by left|].
    destruct IH as [|[p Hp]]; [by left|]. right.
    rewrite lookup_delete_ne by done. by exists p.
Qed.

(** X10: in every registry reached by constructing and destroying mappers,
    the lookup of the empty name returns [nullptr] exactly when no default is
    designated: a designated default is always a registered mapper. *)
Theorem default_designation_never_dangles (r : MapperRegistry) :
  Reachable r ->
  (GetMapper "" r = None <-> defaultMapper r = "")
  /\ (forall this, GetMapper "" r = Some this ->
        defaultMapper r <> ""
        /\ knownMappers r !! defaultMapper r = Some this).
Proof.
  intros Hr. pose proof (Reachable_NoEmptyKey r Hr) as Hempty.
  unfold NoEmptyKey in Hempty. unfold GetMapper. cbn [wstring_empty].
  destruct (Reachable_default_registered r Hr) as [Hd|[p Hp]].
  - rewrite Hd, Hempty. split; [done|]. by intros this.
  - rewrite Hp. split.
    + split; [done|]. intros Hd. rewrite Hd, Hempty in Hp. done.
    + intros this [= <-]. split; [|done]. intros Hd.
      rewrite Hd, Hempty in Hp. done.
Qed.

Lemma default_designation_never_dangles_witness :
  let r := Mapper_destroy "B" 2%positive
             (ConstructAll [("A", 1%positive); ("B", 2%positive)] EmptyRegistry) in
  GetMapper "" r = Some 1%positive /\ defaultMapper r <> "".
Proof.
  intros r.
  assert (Hreach : Reachable r).
  { exact (Reachable_destroy "B" 2%positive _
             (Reachable_construct "B" 2%positive _
                (Reachable_construct "A" 1%positive _ Reachable_empty))). }
  destruct (default_designation_never_dangles r Hreach) as [_ Hsome].
  split; [reflexivity|]. exact (proj1 (Hsome 1%positive eq_refl)).
Defined.

(** X11: destroying a mapper never removes the registration of another
    object: whatever is registered under any name for a different object
    stays registered, also under the name of the destroyed mapper, and a
    default that is another object stays the default. *)
Theorem destroy_keeps_other_objects (r : MapperRegistry) (name : string)
    (this : MapperPtr) :
  (forall (n : string) (p : MapperPtr),
     knownMappers r !! n = Some p -> p <> this ->
     knownMappers (Mapper_destroy name this r) !! n = Some p)
  /\ (forall p : MapperPtr,
        GetMapper "" r = Some p -> p <> this ->
        GetMapper "" (Mapper_destroy name this r) = Some p).
Proof.
  assert (Hcases : Mapper_destroy name this r = r
                   \/ (name <> ""
                       /\ knownMappers r !! name = Some this
                       /\ Mapper_destroy name this r
                          = {| knownMappers := delete name (knownMappers r);
                               defaultMapper :=
                                 if String.eqb (defaultMapper r) name then ""
                                 else defaultMapper r |})).
  { unfold Mapper_destroy, UnregisterMapper.
    destruct (wstring_empty name) eqn:Hname; cbn [negb]; [by left|].
    apply wstring_empty_false in Hname.
    destruct (knownMappers r !! name) as [registered|] eqn:Hknown; [|by left].
    destruct (Pos.eqb_spec this registered) as [<-|]; cbn [negb]; [|by left].
    right. done. }
  split.
  - intros n p Hn Hp. destruct Hcases as [->|(Hname & Hknown & ->)]; [done|].
    cbn [knownMappers]. rewrite lookup_delete_ne; [done|].
    intros <-. congruence.
  - intros p Hdefault Hp. destruct Hcases as [->|(Hname & Hknown & ->)]; [done|].
    unfold GetMapper in *. cbn [wstring_empty defaultMapper knownMappers] in *.
    destruct (String.eqb_spec (defaultMapper r) name) as [Heq|Hne].
    + rewrite Heq in Hdefault. congruence.
    + by rewrite lookup_delete_ne.
Qed.

(** X12: in a reachable registry, constructing a mapper under a name that is
    not registered and destroying it again restores the registry, its
    default designation included. *)
Theorem construct_destroy_restores (r : MapperRegistry) (name : string)
    (this : MapperPtr) :
  Reachable r ->
  knownMappers r !! name = None ->
  Mapper_destroy name this (Mapper_construct name this r) = r.
Proof.
  intros Hr Hfresh. unfold Mapper_destroy, Mapper_construct.
  destruct (wstring_empty name) eqn:Hname; cbn [negb]; [done|].
  unfold UnregisterMapper, RegisterMapper. rewrite Hname.
  cbn [knownMappers defaultMapper]. rewrite lookup_insert_eq, Pos.eqb_refl.
  cbn [negb]. rewrite delete_insert_eq, delete_id by done.
  destruct r as [known default]. cbn [knownMappers defaultMapper] in *. f_equal.
  destruct (wstring_empty default) eqn:Hdefault.
  - rewrite String.eqb_refl. symmetry. by apply wstring_empty_true.
  - destruct (String.eqb_spec default name) as [->|]; [|done].
    destruct (Reachable_default_registered _ Hr) as [Hd|[p Hp]];
      cbn [knownMappers defaultMapper] in *.
    + apply wstring_empty_true in Hd. congruence.
    + congruence.
Qed.

Lemma construct_destroy_restores_witness :
  let r := ConstructAll [("A", 1%positive); ("B", 2%positive)] EmptyRegistry in
  Mapper_destroy "C" 3%positive (Mapper_construct "C" 3%positive r) = r.
Proof.
  intros r.
  apply (construct_destroy_restores r "C" 3%positive); [|reflexivity].
  exact (Reachable_construct "B" 2%positive _
           (Reachable_construct "A" 1%positive _ Reachable_empty)).
Defined.

(** ** The static array of [GetConfigured] *)

(** X13: the first call of [GetConfigured] fills the static array, whatever
    controller it is for; every later call leaves the array as it is and
    answers from it, so that for a valid controller it returns what the first
    environment determined, whatever the registry and the configuration have
    become. *)
Theorem GetConfigured_initialised_once (env env' : MapperEnvironment)
    (first later : Z) :
  let cache := (GetConfigured env None first).2 in
  cache = Some (InitConfiguredMappers env)
  /\ (GetConfigured env' cache later).2 = cache
  /\ (0 <= later < kPhysicalControllerCount ->
      (GetConfigured env' cache later).1 = (GetConfigured env None later).1)
  /\ (later >= kPhysicalControllerCount ->
      (GetConfigured env' cache later).1 = GetNull env').
Proof.
  intros cache.
  assert (Hcache : cache = Some (InitConfiguredMappers env)).
  { unfold cache, GetConfigured. by destruct (first >=? kPhysicalControllerCount). }
  split; [exact Hcache|]. rewrite Hcache. unfold GetConfigured.
  split; [by destruct (later >=? kPhysicalControllerCount)|]. split.
  - intros Hlater. destruct (Z.geb_spec later kPhysicalControllerCount); [lia|done].
  - intros Hlater. destruct (Z.geb_spec later kPhysicalControllerCount); [done|lia].
Qed.

(** ** What [MapStatePhysicalToVirtual] depends on *)

Lemma foldl_ContributeFrom_agree (elements : UElementMap)
    (calls1 calls2 : list (EPhysicalElement * TPhysicalReading))
    (controllerState : SState) :
  Forall2 (fun call1 call2 =>
             call1.1 = call2.1
             /\ (is_Some (elements call1.1) -> call1.2 = call2.2))
          calls1 calls2 ->
  foldl (ContributeFrom elements) controllerState calls1
  = foldl (ContributeFrom elements) controllerState calls2.
Proof.
  intros Hagree. revert controllerState.
  induction Hagree as [|[e1 r1] [e2 r2] calls1 calls2 [He Hr] _ IH];
    intros controllerState; [done|].
  cbn [foldl]. cbn [fst snd] in He, Hr. subst e2.
  replace (ContributeFrom elements controllerState (e1, r2))
    with (ContributeFrom elements controllerState (e1, r1)); [apply IH|].
  unfold ContributeFrom. cbn [fst snd].
  destruct (elements e1) as [m|]; [|done]. by rewrite Hr.
Qed.

Lemma MapStatePhysicalToVirtual_agree (elements : UElementMap)
    (physicalState1 physicalState2 : XINPUT_GAMEPAD) :
  (forall e, is_Some (elements e) ->
     ReadingOf physicalState1 e = ReadingOf physicalState2 e) ->
  MapStatePhysicalToVirtual elements physicalState1
  = MapStatePhysicalToVirtual elements physicalState2.
Proof.
  intros Hagree. unfold MapStatePhysicalToVirtual.
  rewrite (foldl_ContributeFrom_agree elements
             (PhysicalReadings physicalState1) (PhysicalReadings physicalState2));
    [done|].
  unfold PhysicalReadings.
  repeat (constructor;
          [split; [reflexivity|];
           let Hsome := fresh in
           intros Hsome; specialize (Hagree _ Hsome);
           cbv [ReadingOf PhysicalReadings EPhysicalElement_index fmap list_fmap
                lookup list_lookup fst snd] in Hagree;
           cbn [snd]; congruence
          |]).
  constructor.
Qed.

(** X14: the state a mapper produces depends only on the readings of the
    elements that have an element mapper: two physical states that give the
    same reading on each of them are mapped to the same state.  In
    particular the mapper without element mappers, which is what the null
    mapper is, produces the zeroed state for every physical state. *)
Theorem MapStatePhysicalToVirtual_unassigned_ignored (elements : UElementMap)
    (physicalState1 physicalState2 : XINPUT_GAMEPAD) :
  ((forall e, is_Some (elements e) ->
      ReadingOf physicalState1 e = ReadingOf physicalState2 e) ->
   MapStatePhysicalToVirtual elements physicalState1
   = MapStatePhysicalToVirtual elements physicalState2)
  /\ MapStatePhysicalToVirtual UElementMap_empty physicalState1 = SState_zero.
Proof.
  split; [apply MapStatePhysicalToVirtual_agree|]. reflexivity.
Qed.

Lemma FilterAnalogStickValue_idempotent (v : Z) :
  FilterAnalogStickValue (FilterAnalogStickValue v) = FilterAnalogStickValue v.
Proof.
  unfold FilterAnalogStickValue, kAnalogValueMin, kAnalogValueMax.
  repeat match goal with
         | |- context [?a >? ?b] => destruct (Z.gtb_spec a b)
         | |- context [?a <? ?b] => destruct (Z.ltb_spec a b)
         end; lia.
Qed.

Lemma ButtonPressed_masked (physicalState1 physicalState2 : XINPUT_GAMEPAD)
    (mask : Z) :
  Z.land (wButtons physicalState1) XINPUT_GAMEPAD_AllButtons
  = Z.land (wButtons physicalState2) XINPUT_GAMEPAD_AllButtons ->
  Z.land XINPUT_GAMEPAD_AllButtons mask = mask ->
  ButtonPressed physicalState1 mask = ButtonPressed physicalState2 mask.
Proof.
  intros Hbuttons Hmask. unfold ButtonPressed.
  rewrite <- Hmask, !Z.land_assoc, Hbuttons. done.
Qed.

(** X15: the state a mapper produces depends on the physical state only
    through the stick values saturated into [-32767, 32767], the trigger
    values and the fourteen button bits: the reading -32768 of a stick is
    treated as -32767, and the two unassigned bits of [wButtons] are never
    looked at. *)
Theorem MapStatePhysicalToVirtual_filtered_input (elements : UElementMap)
    (physicalState1 physicalState2 : XINPUT_GAMEPAD) :
  FilterAnalogStickValue (sThumbLX physicalState1)
  = FilterAnalogStickValue (sThumbLX physicalState2) ->
  FilterAnalogStickValue (sThumbLY physicalState1)
  = FilterAnalogStickValue (sThumbLY physicalState2) ->
  FilterAnalogStickValue (sThumbRX physicalState1)
  = FilterAnalogStickValue (sThumbRX physicalState2) ->
  FilterAnalogStickValue (sThumbRY physicalState1)
  = FilterAnalogStickValue (sThumbRY physicalState2) ->
  bLeftTrigger physicalState1 = bLeftTrigger physicalState2 ->
  bRightTrigger physicalState1 = bRightTrigger physicalState2 ->
  Z.land (wButtons physicalState1) XINPUT_GAMEPAD_AllButtons
  = Z.land (wButtons physicalState2) XINPUT_GAMEPAD_AllButtons ->
  MapStatePhysicalToVirtual elements physicalState1
  = MapStatePhysicalToVirtual elements physicalState2.
Proof.
  intros HLX HLY HRX HRY HLT HRT Hbuttons.
  apply MapStatePhysicalToVirtual_agree. intros e _.
  unfold ReadingOf, PhysicalReadings, FilterAndInvertAnalogStickValue.
  rewrite HLX, HLY, HRX, HRY, HLT, HRT.
  destruct e; cbn [EPhysicalElement_index fmap list_fmap lookup list_lookup snd];
    try reflexivity;
    do 2 f_equal; by apply ButtonPressed_masked.
Qed.

Lemma MapStatePhysicalToVirtual_filtered_input_witness :
  MapStatePhysicalToVirtual (UElementMap_single stickLeftX (ProbeMapper EAxis_X))
    (mkGamepad 0x0C01 0 255 (-32768) 0 0 12345)
  = MapStatePhysicalToVirtual (UElementMap_single stickLeftX (ProbeMapper EAxis_X))
      (mkGamepad 0x0001 0 255 (-32767) 0 0 12345).
Proof.
  apply (MapStatePhysicalToVirtual_filtered_input
           (UElementMap_single stickLeftX (ProbeMapper EAxis_X))
           (mkGamepad 0x0C01 0 255 (-32768) 0 0 12345)
           (mkGamepad 0x0001 0 255 (-32767) 0 0 12345)); reflexivity.
Defined.

(** X16: for every [int16_t] value, [FilterAnalogStickValue] yields a value of
    [-32767, 32767] that it leaves unchanged when applied again, and it is
    odd except at -32768: the negation of -32768 is not an [int16_t],
    converted to the parameter's type it is -32768 again, and is filtered to
    -32767.  [FilterAndInvertAnalogStickValue] is the negation of the filtered
    value, without overflow, and applied twice it gives the filtered value. *)
Theorem FilterAnalogStickValue_symmetric (analogValue : Z) :
  -32768 <= analogValue <= 32767 ->
  let filtered := FilterAnalogStickValue analogValue in
  -32767 <= filtered <= 32767
  /\ FilterAnalogStickValue filtered = filtered
  /\ FilterAnalogStickValue (wrap_signed 16 (- analogValue))
     = (if analogValue =? -32768 then -32767 else - filtered)
  /\ FilterAndInvertAnalogStickValue analogValue = - filtered
  /\ FilterAndInvertAnalogStickValue (FilterAndInvertAnalogStickValue analogValue)
     = filtered.
Proof.
  intros Hint16 filtered.
  assert (Hfilter : forall v, -32768 <= v <= 32767 ->
            FilterAnalogStickValue v = if v =? -32768 then -32767 else v).
  { intros v Hv. unfold FilterAnalogStickValue, kAnalogValueMin, kAnalogValueMax.
    destruct (Z.eqb_spec v (-32768));
      repeat match goal with
             | |- context [?a >? ?b] => destruct (Z.gtb_spec a b)
             | |- context [?a <? ?b] => destruct (Z.ltb_spec a b)
             end; lia. }
  assert (Hwrap : forall v, -32768 <= v <= 32767 ->
            wrap_signed 16 (- v) = if v =? -32768 then -32768 else - v).
  { intros v Hv. unfold wrap_signed. change (2 ^ (16 - 1)) with 32768.
    change (2 ^ 16) with 65536. destruct (Z.eqb_spec v (-32768)) as [->|Hne].
    - reflexivity.
    - rewrite Z.mod_small by lia. lia. }
  assert (Hrange : -32767 <= filtered <= 32767).
  { unfold filtered. rewrite Hfilter by exact Hint16.
    destruct (Z.eqb_spec analogValue (-32768)); lia. }
  assert (Hinvert : forall v, -32768 <= v <= 32767 ->
            FilterAndInvertAnalogStickValue v = - FilterAnalogStickValue v).
  { intros v Hv. unfold FilterAndInvertAnalogStickValue.
    rewrite (Hfilter v Hv). destruct (Z.eqb_spec v (-32768)) as [->|Hne].
    - reflexivity.
    - rewrite Hwrap by exact Hv. destruct (Z.eqb_spec v (-32768)); [lia|done]. }
  assert (Hidem : FilterAnalogStickValue filtered = filtered).
  { rewrite Hfilter by lia. destruct (Z.eqb_spec filtered (-32768)); [lia|done]. }
  split; [exact Hrange|]. split; [exact Hidem|]. split; [|split].
  - rewrite Hwrap by exact Hint16. fold filtered.
    destruct (Z.eqb_spec analogValue (-32768)) as [->|Hne]; [reflexivity|].
    rewrite Hfilter by lia. unfold filtered. rewrite (Hfilter analogValue Hint16).
    destruct (Z.eqb_spec analogValue (-32768)); [lia|].
    destruct (Z.eqb_spec (- analogValue) (-32768)); [lia|done].
  - exact (Hinvert analogValue Hint16).
  - rewrite (Hinvert analogValue Hint16). fold filtered.
    rewrite Hinvert by lia.
    rewrite (Hfilter (- filtered)) by lia.
    destruct (Z.eqb_spec (- filtered) (-32768)); lia.
Qed.

Lemma FilterAnalogStickValue_symmetric_witness :
  FilterAnalogStickValue (wrap_signed 16 (- -32768)) = -32767
  /\ FilterAndInvertAnalogStickValue (-32768) = 32767.
Proof.
  destruct (FilterAnalogStickValue_symmetric (-32768) ltac:(lia))
    as (_ & _ & Hodd & Hinvert & _).
  split; [exact Hodd|exact Hinvert].
Defined.

(** ** Bounds of the actuator value *)

Section ActuatorValueBound.
Context `{EffectArithmeticLaws}.

(** The level computed from a raw strength, for a gain between zero and the
    maximum modifier: when the scaled strength is below the bound of the gain
    only if it is not below zero, the level lies between zero and the
    gain-scaled maximum. *)
Lemma PhysicalActuatorStrength_bounded (raw gain : TEffectValue) :
  ev_le kEffectForceMagnitudeZero gain -> ev_le gain kEffectModifierMaximum ->
  (let scaled :=
     ev_mul (ev_div gain kEffectModifierMaximum)
       (ev_abs (ev_sub raw kEffectForceMagnitudeZero)) in
   ev_ltb scaled (VirtualActuatorStrengthMax gain) = true ->
   ev_le kEffectForceMagnitudeZero scaled) ->
  0 <= GainScaledMaximum gain <= TPhysicalActuatorValue_max
  /\ 0 <= PhysicalActuatorStrength raw gain <= GainScaledMaximum gain.
Proof.
  intros Hg0 Hg1 Hscaled.
  destruct (gain_facts gain Hg0 Hg1) as (_ & _ & _ & HM0 & _ & _).
  pose proof (proj2 (ev_le_refl _ _ HM0)) as HMM.
  pose proof (level_facts gain _ Hg0 Hg1 HM0 HMM) as [HrangeM _].
  pose proof (GainScaledMaximum_level gain Hg0 Hg1) as HG.
  split; [rewrite HG; exact HrangeM|].
  unfold PhysicalActuatorStrength. cbv zeta in *. unfold ev_min.
  destruct (ev_ltb _ (VirtualActuatorStrengthMax gain)) eqn:Hlt.
  - specialize (Hscaled eq_refl).
    destruct (level_facts gain _ Hg0 Hg1 Hscaled (or_introl Hlt))
      as (Hrange & _ & Hmono).
    rewrite wrap_unsigned_small, HG.
    + split; [lia|]. apply Hmono; [by left|exact HMM].
    + unfold TPhysicalActuatorValue_max in Hrange.
      assert (0 < 2 ^ TPhysicalActuatorValue_bits) by (by cbn). lia.
  - fold (GainScaledMaximum gain). rewrite HG. lia.
Qed.

End ActuatorValueBound.

Lemma SFadd_comm (prec emax : Z) (x y : spec_float) :
  SFadd prec emax x y = SFadd prec emax y x.
Proof.
  destruct x as [sx|sx| |sx mx ex], y as [sy|sy| |sy my ey]; cbn [SFadd];
    try reflexivity; try (by destruct sx, sy).
  by rewrite Z.min_comm, Z.add_comm.
Qed.

(** The scaled strength in single precision is not below zero, unless it is
    a NaN. *)
Lemma B32_scaled_strength_nonneg (multiplier raw : float32) :
  @ev_isfinite Binary32Arithmetic multiplier = true ->
  @ev_le Binary32Arithmetic kEffectForceMagnitudeZero multiplier ->
  forall position,
    F32_key (` (@ev_mul Binary32Arithmetic multiplier
                  (@ev_abs Binary32Arithmetic
                     (@ev_sub Binary32Arithmetic raw
                        (@kEffectForceMagnitudeZero Binary32Arithmetic)))))
    = Some position ->
    0 <= position.
Proof.
  intros Hfin Hnonneg position.
  destruct (B32_nonneg_finite multiplier Hnonneg Hfin)
    as (sg & ng & Eg & _ & Hng & Hsg).
  rewrite B32_mul_proj, B32_abs_proj, (@ev_sub_zero _ Binary32Arithmetic_laws), Eg.
  destruct raw as [[s|s|s n] Hv]; cbn [proj1_sig F32_abs F32_mul].
  - done.
  - destruct (Z.eqb_spec ng 0) as [|Hne]; [done|].
    destruct Hsg as [->|]; [|done]. cbn. intros [= <-]. done.
  - apply valid_magnitude_nonneg in Hv.
    rewrite F32_key_round; [|nia|reflexivity|].
    + intros [= <-].
      pose proof (Round24_nonneg (ng * n) F32_one ltac:(nia) eq_refl).
      assert (0 < F32_limit) by reflexivity. lia.
    + destruct Hsg as [->| ->]; [by left|right; lia].
Qed.

(** The gain-scaled maximum and the level of any raw strength, in single
    precision, for a gain between zero and the maximum modifier. *)
Lemma B32_PhysicalActuatorStrength_range (gain raw : float32) :
  @ev_le Binary32Arithmetic kEffectForceMagnitudeZero gain ->
  @ev_le Binary32Arithmetic gain kEffectModifierMaximum ->
  0 <= @GainScaledMaximum Binary32Arithmetic gain <= TPhysicalActuatorValue_max
  /\ 0 <= @PhysicalActuatorStrength Binary32Arithmetic raw gain
       <= @GainScaledMaximum Binary32Arithmetic gain.
Proof.
  intros Hg0 Hg1.
  apply (@PhysicalActuatorStrength_bounded _ Binary32Arithmetic_laws raw gain Hg0 Hg1).
  intros scaled Hlt.
  destruct (@gain_facts _ Binary32Arithmetic_laws gain Hg0 Hg1)
    as (Hm0 & Hmfin & _).
  apply B32_ltb in Hlt as (position & bound & Hposition & _ & _).
  apply B32_le. exists 0, position. split; [apply B32_zero_key|].
  split; [exact Hposition|].
  exact (B32_scaled_strength_nonneg _ raw Hmfin Hm0 position Hposition).
Qed.

(** X17: in single precision, for every gain between zero and the maximum
    modifier, the value computed for an actuator lies between zero and the
    gain-scaled maximum, which itself fits the actuator's range, whatever the
    actuator's mode and whatever the magnitude components are, infinities
    and NaNs included. *)
Theorem ForceFeedbackActuatorValue_bounded (gain : float32)
    (virtualEffectComponents : @TOrderedMagnitudeComponents Binary32Arithmetic)
    (actuatorElement : SActuatorElement) :
  @ev_le Binary32Arithmetic kEffectForceMagnitudeZero gain ->
  @ev_le Binary32Arithmetic gain kEffectModifierMaximum ->
  0 <= @ForceFeedbackActuatorValue Binary32Arithmetic
         virtualEffectComponents actuatorElement gain
    <= @GainScaledMaximum Binary32Arithmetic gain
  /\ @GainScaledMaximum Binary32Arithmetic gain <= TPhysicalActuatorValue_max.
Proof.
  intros Hg0 Hg1.
  destruct (B32_PhysicalActuatorStrength_range gain gain Hg0 Hg1) as [HG _].
  split; [|lia]. unfold ForceFeedbackActuatorValue.
  destruct (VirtualActuatorStrengthRaw _ _) as [raw|]; [|lia].
  by destruct (B32_PhysicalActuatorStrength_range gain raw Hg0 Hg1) as [_ ?].
Qed.

Lemma ForceFeedbackActuatorValue_bounded_witness :
  0 <= @ForceFeedbackActuatorValue Binary32Arithmetic
         (@SingleComponent Binary32Arithmetic EAxis_X (float32_of_int 20000))
         (mkActuator true (MagnitudeProjection EAxis_X EAxis_Y))
         (float32_of_int 5000)
    <= @GainScaledMaximum Binary32Arithmetic (float32_of_int 5000)
  /\ @GainScaledMaximum Binary32Arithmetic (float32_of_int 5000)
     <= TPhysicalActuatorValue_max.
Proof.
  apply (ForceFeedbackActuatorValue_bounded (float32_of_int 5000)).
  - left. vm_compute. reflexivity.
  - left. vm_compute. reflexivity.
Defined.

(** X18: in single precision a gain of zero, of either sign, silences every
    actuator: the value is 0 whatever the mode and the magnitude components. *)
Theorem ForceFeedbackActuatorValue_zero_gain (gain : float32)
    (virtualEffectComponents : @TOrderedMagnitudeComponents Binary32Arithmetic)
    (actuatorElement : SActuatorElement) :
  @ev_eqb Binary32Arithmetic kEffectForceMagnitudeZero gain = true ->
  @ForceFeedbackActuatorValue Binary32Arithmetic
    virtualEffectComponents actuatorElement gain = 0.
Proof.
  intros Hzero.
  assert (Hg0 : @ev_le Binary32Arithmetic kEffectForceMagnitudeZero gain)
    by (by right).
  assert (Hmax : @GainScaledMaximum Binary32Arithmetic gain = 0
                 /\ @ev_le Binary32Arithmetic gain kEffectModifierMaximum).
  { apply B32_eqb in Hzero as (position & Hz & Hgain).
    rewrite B32_zero_key in Hz. injection Hz as <-.
    destruct gain as [[s|s|s n] Hv]; cbn [proj1_sig F32_key] in Hgain; [done| |].
    - injection Hgain as Hgain. destruct s; by vm_compute in Hgain.
    - injection Hgain as Hgain.
      assert (n = 0) by (destruct s; cbn [cond_Zopp] in Hgain; lia). subst n.
      split.
      + destruct s; vm_compute; reflexivity.
      + left. destruct s; vm_compute; reflexivity. }
  destruct Hmax as [Hmax Hg1].
  unfold ForceFeedbackActuatorValue.
  destruct (VirtualActuatorStrengthRaw _ _) as [raw|]; [|done].
  destruct (B32_PhysicalActuatorStrength_range gain raw Hg0 Hg1) as [_ Hrange].
  lia.
Qed.

Lemma ForceFeedbackActuatorValue_zero_gain_witness :
  @ForceFeedbackActuatorValue Binary32Arithmetic
    (@SingleComponent Binary32Arithmetic EAxis_X (float32_of_int 10000))
    (mkActuator true (SingleAxis EAxis_X EAxisDirection_Both))
    (float32_of_int 0) = 0.
Proof.
  apply (ForceFeedbackActuatorValue_zero_gain (float32_of_int 0)).
  vm_compute. reflexivity.
Defined.

(** X19: a magnitude projection does not depend on the order of its two
    axes: in single precision, exchanging [axisFirst] and [axisSecond] gives
    the same actuator value. *)
Theorem MagnitudeProjection_symmetric (gain : float32)
    (virtualEffectComponents : @TOrderedMagnitudeComponents Binary32Arithmetic)
    (present : bool) (axisFirst axisSecond : EAxis) :
  @ForceFeedbackActuatorValue Binary32Arithmetic virtualEffectComponents
    (mkActuator present (MagnitudeProjection axisFirst axisSecond)) gain
  = @ForceFeedbackActuatorValue Binary32Arithmetic virtualEffectComponents
      (mkActuator present (MagnitudeProjection axisSecond axisFirst)) gain.
Proof.
  unfold ForceFeedbackActuatorValue, VirtualActuatorStrengthRaw.
  cbn [isPresent mode]. destruct present; cbn [negb]; [|done].
  change (@wide_add Binary32Arithmetic) with (SFadd 53 1024).
  by rewrite SFadd_comm.
Qed.

Lemma B32_eqb_zero_abs (x : float32) :
  @ev_eqb Binary32Arithmetic kEffectForceMagnitudeZero x
  = @ev_eqb Binary32Arithmetic kEffectForceMagnitudeZero
      (@ev_abs Binary32Arithmetic x).
Proof.
  apply eq_true_iff_eq. rewrite !B32_eqb, B32_abs_proj, B32_zero_key.
  destruct x as [[s|s|s n] Hv]; cbn [proj1_sig F32_abs F32_key].
  - split; intros (? & _ & ?); done.
  - split; intros (a & [= <-] & [= Ha]); exfalso;
      destruct s; by vm_compute in Ha.
  - split; intros (a & [= <-] & [= Ha]); exists 0; (split; [done|]); f_equal;
      destruct s; cbn [cond_Zopp] in *; lia.
Qed.

(** X20: in single precision the value of a single-axis actuator depends on
    the component of its axis only through the magnitude, once the direction
    lets the component through: a negative component on an actuator
    restricted to the negative direction gives what the positive component
    of the same magnitude gives on one restricted to the positive direction,
    and an unrestricted actuator gives that same value for both. *)
Theorem SingleAxis_direction_mirror (gain : float32) (a : EAxis)
    (components1 components2 : @TOrderedMagnitudeComponents Binary32Arithmetic) :
  let component1 : @TEffectValue Binary32Arithmetic :=
    components1 !!! EAxis_index a in
  let component2 : @TEffectValue Binary32Arithmetic :=
    components2 !!! EAxis_index a in
  F32_abs (`component1) = F32_abs (`component2) ->
  @ev_signbit Binary32Arithmetic component1 = true ->
  @ev_signbit Binary32Arithmetic component2 = false ->
  let value actuator components :=
    @ForceFeedbackActuatorValue Binary32Arithmetic components actuator gain in
  value (mkActuator true (SingleAxis a EAxisDirection_Negative)) components1
  = value (mkActuator true (SingleAxis a EAxisDirection_Positive)) components2
  /\ value (mkActuator true (SingleAxis a EAxisDirection_Both)) components1
     = value (mkActuator true (SingleAxis a EAxisDirection_Positive)) components2
  /\ value (mkActuator true (SingleAxis a EAxisDirection_Both)) components2
     = value (mkActuator true (SingleAxis a EAxisDirection_Positive)) components2.
Proof.
  intros component1 component2 Hmagnitude Hneg Hpos value.
  subst value.
  assert (Habs : @ev_abs Binary32Arithmetic component1
                 = @ev_abs Binary32Arithmetic component2).
  { apply sig_eq_pi; [apply _|]. by rewrite !B32_abs_proj. }
  assert (Hstrength :
            @PhysicalActuatorStrength Binary32Arithmetic component1 gain
            = @PhysicalActuatorStrength Binary32Arithmetic component2 gain).
  { unfold PhysicalActuatorStrength.
    by rewrite !(@ev_sub_zero _ Binary32Arithmetic_laws), Habs. }
  assert (Hzero : @ev_eqb Binary32Arithmetic kEffectForceMagnitudeZero component1
                  = @ev_eqb Binary32Arithmetic kEffectForceMagnitudeZero component2).
  { by rewrite (B32_eqb_zero_abs component1), (B32_eqb_zero_abs component2), Habs. }
  unfold ForceFeedbackActuatorValue, VirtualActuatorStrengthRaw.
  cbn [isPresent mode negb]. cbv zeta. fold component1 component2.
  rewrite Hzero, Hneg, Hpos.
  destruct (@ev_eqb Binary32Arithmetic kEffectForceMagnitudeZero component2); done.
Qed.

Lemma SingleAxis_direction_mirror_witness :
  @ForceFeedbackActuatorValue Binary32Arithmetic
    (@SingleComponent Binary32Arithmetic EAxis_Y (float32_of_int (-2500)))
    (mkActuator true (SingleAxis EAxis_Y EAxisDirection_Negative))
    (float32_of_int 10000)
  = @ForceFeedbackActuatorValue Binary32Arithmetic
      (@SingleComponent Binary32Arithmetic EAxis_Y (float32_of_int 2500))
      (mkActuator true (SingleAxis EAxis_Y EAxisDirection_Positive))
      (float32_of_int 10000).
Proof.
  apply (SingleAxis_direction_mirror (float32_of_int 10000) EAxis_Y
           (@SingleComponent Binary32Arithmetic EAxis_Y (float32_of_int (-2500)))
           (@SingleComponent Binary32Arithmetic EAxis_Y (float32_of_int 2500))).
  - vm_compute. reflexivity.
  - vm_compute. reflexivity.
  - vm_compute. reflexivity.
Defined.

(** The sign of a NaN component is read as it is stored: on an actuator
    restricted to the positive direction a NaN with the sign bit set gives 0,
    and one with the sign bit clear gives the gain-scaled maximum. *)
Example ForceFeedbackActuatorValue_nan_sign :
  let actuator := mkActuator true (SingleAxis EAxis_X EAxisDirection_Positive) in
  @ForceFeedbackActuatorValue Binary32Arithmetic
    (@SingleComponent Binary32Arithmetic EAxis_X (F32_pack (F32_nan true)))
    actuator (float32_of_int 10000) = 0
  /\ @ForceFeedbackActuatorValue Binary32Arithmetic
       (@SingleComponent Binary32Arithmetic EAxis_X (F32_pack (F32_nan false)))
       actuator (float32_of_int 10000) = 65535.
Proof. split; vm_compute; reflexivity. Qed.

(** ** Choice of a coordinate system *)

Lemma land_flag_cases (dwFlags flag : Z) :
  flag = 0x10 \/ flag = 0x20 \/ flag = 0x40 ->
  Z.land dwFlags flag = 0 \/ Z.land dwFlags flag = flag.
Proof.
  intros Hflag.
  assert (Hbit : forall k, 0 <= k ->
            Z.land dwFlags (2 ^ k) = 0 \/ Z.land dwFlags (2 ^ k) = 2 ^ k).
  { intros k Hk. destruct (Z.testbit dwFlags k) eqn:Hb; [right|left];
      apply Z.bits_inj'; intros i Hi;
      rewrite Z.land_spec, ?Z.bits_0, Z.pow2_bits_eqb by lia;
      destruct (Z.eqb_spec k i) as [->|]; rewrite ?Hb, ?andb_false_r; done. }
  destruct Hflag as [->|[->| ->]];
    [apply (Hbit 4)|apply (Hbit 5)|apply (Hbit 6)]; lia.
Qed.

Lemma land_coordinate_flags (dwFlags : Z) :
  Z.land dwFlags (Z.lor (Z.lor DIEFF_CARTESIAN DIEFF_POLAR) DIEFF_SPHERICAL)
  = Z.land dwFlags DIEFF_CARTESIAN + Z.land dwFlags DIEFF_POLAR
    + Z.land dwFlags DIEFF_SPHERICAL.
Proof.
  rewrite !Z.land_lor_distr_r.
  destruct (land_flag_cases dwFlags DIEFF_CARTESIAN ltac:(by left)) as [HC|HC];
    destruct (land_flag_cases dwFlags DIEFF_POLAR ltac:(by right; left)) as [HP|HP];
    destruct (land_flag_cases dwFlags DIEFF_SPHERICAL ltac:(by right; right))
      as [HS|HS];
    rewrite HC, HP, HS; reflexivity.
Qed.

(** X21: [PickCoordinateSystem] only returns a coordinate system that the
    flags allow, and returns the original one whenever the flags allow it and
    the request is not rejected; it returns nothing exactly when the flags
    allow no coordinate system, or the vector has one axis and Cartesian is
    not allowed, or the vector has neither one nor two axes and Polar is the
    only system allowed.  When the original system is not allowed the choice
    is Spherical before Polar before Cartesian. *)
Theorem PickCoordinateSystem_allowed (numAxes : Z)
    (originalCoordinateSystem : ECoordinateSystem) (dwFlags : Z) :
  let rejected :=
    (numAxes = 1
     /\ ~ CoordinateSystemAllowed dwFlags ECoordinateSystem_Cartesian)
    \/ (numAxes <> 1 /\ numAxes <> 2
        /\ CoordinateSystemAllowed dwFlags ECoordinateSystem_Polar
        /\ ~ CoordinateSystemAllowed dwFlags ECoordinateSystem_Cartesian
        /\ ~ CoordinateSystemAllowed dwFlags ECoordinateSystem_Spherical) in
  (forall coordinateSystem,
     PickCoordinateSystem numAxes originalCoordinateSystem dwFlags
     = Some coordinateSystem ->
     CoordinateSystemAllowed dwFlags coordinateSystem)
  /\ (PickCoordinateSystem numAxes originalCoordinateSystem dwFlags = None
      <-> rejected
          \/ forall coordinateSystem,
               ~ CoordinateSystemAllowed dwFlags coordinateSystem)
  /\ (~ rejected ->
      CoordinateSystemAllowed dwFlags originalCoordinateSystem ->
      PickCoordinateSystem numAxes originalCoordinateSystem dwFlags
      = Some originalCoordinateSystem)
  /\ (~ rejected ->
      ~ CoordinateSystemAllowed dwFlags originalCoordinateSystem ->
      PickCoordinateSystem numAxes originalCoordinateSystem dwFlags
      = if decide (CoordinateSystemAllowed dwFlags ECoordinateSystem_Spherical)
        then Some ECoordinateSystem_Spherical
        else if decide (CoordinateSystemAllowed dwFlags ECoordinateSystem_Polar)
        then Some ECoordinateSystem_Polar
        else if decide (CoordinateSystemAllowed dwFlags ECoordinateSystem_Cartesian)
        then Some ECoordinateSystem_Cartesian
        else None).
Proof.
  intros rejected.
  pose proof (land_flag_cases dwFlags DIEFF_CARTESIAN ltac:(by left)) as HC.
  pose proof (land_flag_cases dwFlags DIEFF_POLAR ltac:(by right; left)) as HP.
  pose proof (land_flag_cases dwFlags DIEFF_SPHERICAL ltac:(by right; right)) as HS.
  assert (Hall : forall P : ECoordinateSystem -> Prop,
            (forall c, P c)
            <-> P ECoordinateSystem_Cartesian /\ P ECoordinateSystem_Polar
                /\ P ECoordinateSystem_Spherical).
  { intros P. split; [by auto|]. intros (? & ? & ?) []; done. }
  subst rejected. destruct originalCoordinateSystem;
    unfold PickCoordinateSystem, CoordinateSystemAllowed;
    rewrite land_coordinate_flags; rewrite !Hall; clear Hall;
    cbn beta; cbn [CoordinateSystemFlag];
    set (c := Z.land dwFlags DIEFF_CARTESIAN) in *;
    set (p := Z.land dwFlags DIEFF_POLAR) in *;
    set (s := Z.land dwFlags DIEFF_SPHERICAL) in *;
    clearbody c p s; unfold DIEFF_CARTESIAN, DIEFF_POLAR, DIEFF_SPHERICAL in *;
    destruct HC as [-> | ->], HP as [-> | ->], HS as [-> | ->];
    destruct (Z.eqb_spec 1 numAxes) as [H1|H1];
    destruct (Z.eqb_spec 2 numAxes) as [H2|H2];
    try lia;
    repeat match goal with
           | |- context [?a + ?b] =>
               let v := eval vm_compute in (a + b) in change (a + b) with v
           end;
    cbn;
    repeat match goal with
           | |- context [decide ?P] => destruct (decide P); try lia
           end;
    intuition (try discriminate; try congruence; try lia).
Qed.
